(** * nobel_analysis.py: normalisation and aggregation of laureate records

    A shallow embedding of the script [nobel_analysis.py].  The script is a
    straight-line pandas program: it loads a table, maps variant column
    names onto five canonical columns, normalises them, validates them and
    then answers five questions by grouping and counting.

    Modelling choices, all taken from the behaviour of the pandas calls the
    script makes:
    - a CSV column is either an object column (strings and nulls) or a
      numeric column (integers and nulls); a character is a code point
      below 256;
    - the numbers of a column without a null are int64 and those of a
      column with one are float64: line 74 is computed in that arithmetic;
    - a ratio of two counts is an exact rational;
    - the input is the parsed table, so reading the file is left out, and
      so are printing, except for the one print statement whose argument
      can raise, and the chart calls, except for the bar chart of line
      120, which ends the run when it is given no decade. *)

From Stdlib Require Import ZArith QArith Qabs Qround Ascii String List Lia.
From Stdlib Require Import DecimalString.
From Stdlib Require Qcanon.
From stdpp Require Import base decidable option list sorting strings gmap.

Local Close Scope Q_scope.
Local Open Scope Z_scope.
Local Open Scope nat_scope.
Local Open Scope list_scope.
Local Open Scope stdpp_scope.

(** ** Exceptions *)

Inductive exn :=
| ValueError (missing : list string)   (* raise ValueError(f"Missing or empty columns: {missing}") *)
| EmptyArgmax                          (* idxmax of an empty Series *)
| AttributeError                       (* .str accessor on a column that holds no strings *)
| KeyError (column : string)           (* nobel[c] for an absent column *)
| TypeError                            (* an operator applied to operands of the wrong type *)
| PlotError.                           (* Series.plot(kind='bar') on a Series without entries;
                                          its class depends on the version of pandas *)

Inductive result (A : Type) :=
| Ok (a : A)
| Raise (e : exn).
Arguments Ok {A} a.
Arguments Raise {A} e.

Global Instance result_ret : MRet result := fun A a => Ok a.
Global Instance result_bind : MBind result := fun A B f m =>
  match m with
  | Ok a => f a
  | Raise e => Raise e
  end.

Fixpoint traverse {A B} (f : A -> result B) (l : list A) : result (list B) :=
  match l with
  | [] => Ok []
  | x :: l' => y ← f x; ys ← traverse f l'; Ok (y :: ys)
  end.

(** ** Characters and strings *)

Module PyStr.

Definition code (c : ascii) : N := N_of_ascii c.

(** [str.lower]: the capital letters below code point 256 are A-Z and the
    range 192-222 without the multiplication sign 215. *)
Definition is_upper (c : ascii) : bool :=
  let n := code c in
  ((65 <=? n) && (n <=? 90) || (192 <=? n) && (n <=? 222) && negb (n =? 215))%N.

Definition lower_char (c : ascii) : ascii :=
  if is_upper c then ascii_of_N (code c + 32) else c.

Fixpoint lower (s : string) : string :=
  match s with
  | EmptyString => EmptyString
  | String c s' => String (lower_char c) (lower s')
  end.

(** [str.isspace] below code point 256. *)
Definition is_space (c : ascii) : bool :=
  let n := code c in
  ((9 <=? n) && (n <=? 13) || (28 <=? n) && (n <=? 32) || (n =? 133) || (n =? 160))%N.

Fixpoint lstrip (s : string) : string :=
  match s with
  | EmptyString => EmptyString
  | String c s' => if is_space c then lstrip s' else s
  end.

Definition rstrip (s : string) : string := String.rev (lstrip (String.rev s)).

Definition strip (s : string) : string := rstrip (lstrip s).

(** *** The regular expressions of [str.contains]

    Only what the script's pattern uses: alternatives separated by a bar,
    each a sequence of literal characters and dots.  The script's pattern
    is the only one [contains] is applied to below; a pattern with other
    syntax of [re] (a class, a repetition, a group, an escape, a flag) is
    outside this fragment. *)

Inductive atom :=
| Lit (c : ascii)
| Dot.

Fixpoint parse_alt (s : string) (cur : list atom) : list (list atom) :=
  match s with
  | EmptyString => [rev cur]
  | String c s' =>
      if Ascii.eqb c "|" then rev cur :: parse_alt s' []
      else if Ascii.eqb c "." then parse_alt s' (Dot :: cur)
      else parse_alt s' (Lit c :: cur)
  end.

Definition compile (pat : string) : list (list atom) := parse_alt pat [].

(** With [case=False] a literal matches a character with the same lower
    case; a dot matches everything but a line feed. *)
Definition atom_matches (case : bool) (a : atom) (c : ascii) : bool :=
  match a with
  | Lit x => if case then Ascii.eqb x c else Ascii.eqb (lower_char x) (lower_char c)
  | Dot => negb (Ascii.eqb c "010")
  end.

Fixpoint match_here (case : bool) (p : list atom) (s : string) : bool :=
  match p, s with
  | [], _ => true
  | _ :: _, EmptyString => false
  | a :: p', String c s' => atom_matches case a c && match_here case p' s'
  end.

Fixpoint search_one (case : bool) (p : list atom) (s : string) : bool :=
  match_here case p s ||
  match s with
  | EmptyString => false
  | String _ s' => search_one case p s'
  end.

Definition contains (pat : string) (case : bool) (s : string) : bool :=
  existsb (fun p => search_one case p s) (compile pat).

(** *** Rendering of numbers by [astype(str)] *)

Definition of_Z (z : Z) : string := NilZero.string_of_int (Z.to_int z).

(** An integral float prints with a trailing [.0] (below 1e16 in
    magnitude, where Python does not switch to exponent notation). *)
Definition of_float (z : Z) : string := of_Z z +:+ ".0".

End PyStr.


(** ** Tables *)

Inductive value :=
| Str (s : string)
| Num (z : Z).

(** A cell is a value or null (NaN / None). *)
Abbreviation cell := (option value).

(** The columns [read_csv] produces: an object column holds strings and
    nulls, a numeric column holds numbers and nulls (int64 without nulls,
    float64 with them).  A column assigned the scalar [None] is an object
    column of nulls. *)
Inductive column :=
| ObjCol (cells : list (option string))
| NumCol (cells : list (option Z)).

Record table := Table {
  nrows : nat;
  columns : gmap string column
}.

Definition col_cells (c : column) : list cell :=
  match c with
  | ObjCol l => fmap (M:=option) Str <$> l
  | NumCol l => fmap (M:=option) Num <$> l
  end.

Definition col_len (c : column) : nat :=
  match c with
  | ObjCol l => length l
  | NumCol l => length l
  end.

(** Every column of a data frame has one cell per row. *)
Definition table_wf (df : table) : Prop :=
  map_Forall (fun _ c => col_len c = nrows df) (columns df).

(** [df[name] = c] *)
Definition set_col (name : string) (c : column) (df : table) : table :=
  Table (nrows df) (<[name := c]> (columns df)).

(** [df[name]] *)
Definition get_col (name : string) (df : table) : result column :=
  match columns df !! name with
  | Some c => Ok c
  | None => Raise (KeyError name)
  end.

(** [name in df.columns] *)
Definition has_col (name : string) (df : table) : bool :=
  bool_decide (is_Some (columns df !! name)).

(** [df[name].iloc[i]], null when there is no such cell. *)
Definition cell_at (df : table) (name : string) (i : nat) : cell :=
  match columns df !! name with
  | Some c => mjoin (col_cells c !! i)
  | None => None
  end.

(** [s.isna().all()] *)
Definition isna_all (c : column) : bool :=
  match c with
  | ObjCol l => forallb (fun x => bool_decide (x = None)) l
  | NumCol l => forallb (fun x => bool_decide (x = None)) l
  end.

(** [s.fillna(d)] on an object column. *)
Definition fillna {A} (d : A) (l : list (option A)) : list (option A) :=
  (fun x => Some (default d x)) <$> l.

(** The [.str] accessor: only a column of object dtype has one. *)
Definition str_accessor (c : column) : result (list (option string)) :=
  match c with
  | ObjCol l => Ok l
  | NumCol _ => Raise AttributeError
  end.

(** ** Mapping of column names (lines 32-50) *)

Definition col_map : list (string * list string) :=
  [ ("year", ["year"; "year_award"; "awardYear"; "Year"; "prizeYear"]);
    ("full_name", ["full_name"; "name"; "laureate_name"; "Full Name"; "firstname"; "surname"]);
    ("sex", ["sex"; "gender"; "Sex"; "Gender"]);
    ("birth_country", ["birth_country"; "bornCountry"; "country"; "birthCountry";
                       "Birth Country"; "birth_countryNow"]);
    ("category", ["category"; "prize_category"; "Category"; "discipline"]) ].

(** The inner [for v in variants] loop: the first variant that names a
    column of [df], if any. *)
Fixpoint first_variant (df : table) (variants : list string) : option column :=
  match variants with
  | [] => None
  | v :: vs =>
      match columns df !! v with
      | Some c => Some c
      | None => first_variant df vs
      end
  end.

(** [mapped[std] = None] *)
Definition none_col (n : nat) : column := ObjCol (replicate n None).

Definition map_one (df : table) (mapped : table) (entry : string * list string) : table :=
  let '(std, variants) := entry in
  match first_variant df variants with
  | Some c => set_col std c mapped
  | None => set_col std (none_col (nrows df)) mapped
  end.

Definition map_columns (df : table) : table :=
  foldl (map_one df) df col_map.

(** ** Normalisation (lines 54-63) *)

(** [nobel['sex'] = nobel['sex'].str.lower().fillna('unknown')] *)
Definition standardize_sex (nobel : table) : result table :=
  if has_col "sex" nobel then
    c ← get_col "sex" nobel;
    l ← str_accessor c;
    Ok (set_col "sex" (ObjCol (fillna "unknown" (fmap (M:=option) PyStr.lower <$> l))) nobel)
  else Ok nobel.

(** [s.fillna(d)] with a string [d] on any column: the nulls of a numeric
    column become strings next to its numbers. *)
Definition fillna_str (d : string) (c : column) : list value :=
  match c with
  | ObjCol l => (fun x => Str (default d x)) <$> l
  | NumCol l => (fun x => from_option Num (Str d) x) <$> l
  end.

(** [+] between two cells of object columns. *)
Definition add_values (a b : value) : result value :=
  match a, b with
  | Str x, Str y => Ok (Str (x +:+ y))
  | Num x, Num y => Ok (Num (x + y))
  | _, _ => Raise TypeError
  end.

Definition as_str (v : value) : result string :=
  match v with
  | Str s => Ok s
  | Num _ => Raise TypeError
  end.

(** [first.fillna('') + ' ' + last.fillna('')] *)
Definition join_names (first last : column) : result column :=
  left ← traverse (fun a => add_values a (Str " ")) (fillna_str "" first);
  both ← traverse (fun ab => add_values ab.1 ab.2) (zip left (fillna_str "" last));
  names ← traverse as_str both;
  Ok (ObjCol (Some <$> names)).

Definition combine_names (nobel : table) : result table :=
  if has_col "givenName" nobel && has_col "familyName" nobel then
    first ← get_col "givenName" nobel;
    last ← get_col "familyName" nobel;
    c ← join_names first last;
    Ok (set_col "full_name" c nobel)
  else if has_col "firstname" nobel && has_col "surname" nobel then
    first ← get_col "firstname" nobel;
    last ← get_col "surname" nobel;
    c ← join_names first last;
    Ok (set_col "full_name" c nobel)
  else Ok nobel.

(** [nobel['full_name'] = nobel['full_name'].str.strip()] *)
Definition strip_names (nobel : table) : result table :=
  c ← get_col "full_name" nobel;
  l ← str_accessor c;
  Ok (set_col "full_name" (ObjCol (fmap (M:=option) PyStr.strip <$> l)) nobel).

Definition normalize (df : table) : result table :=
  nobel ← standardize_sex (map_columns df);
  nobel ← combine_names nobel;
  strip_names nobel.

(** ** Validation of the essential columns (lines 65-69) *)

Definition essential : list string :=
  ["year"; "full_name"; "sex"; "birth_country"; "category"].

(** [c not in nobel.columns or nobel[c].isna().all()] *)
Definition is_missing (nobel : table) (c : string) : bool :=
  match columns nobel !! c with
  | None => true
  | Some col => isna_all col
  end.

Definition missing (nobel : table) : list string :=
  List.filter (is_missing nobel) essential.

Definition check_essential (nobel : table) : result table :=
  match missing nobel with
  | [] => Ok nobel
  | _ :: _ => Raise (ValueError (missing nobel))
  end.

(** ** Preprocessing (lines 73-75) *)

(** The floor of a tenth of the year, times ten: the decade as the
    statements below speak of it.  [Z.div] rounds towards minus infinity
    for a positive divisor, as Python's [//] does. *)
Definition decade_of (year : Z) : Z := (year / 10 * 10)%Z.

(** A numeric column with a null is float64, one without is int64. *)
Definition is_float (c : column) : bool :=
  match c with
  | ObjCol _ => false
  | NumCol l => negb (forallb (fun x => bool_decide (is_Some x)) l)
  end.

(** *** [(year // 10) * 10] on int64

    The floor division cannot leave the range; the product wraps around. *)

Definition wrap64 (z : Z) : Z := ((z + 2 ^ 63) mod 2 ^ 64 - 2 ^ 63)%Z.

Definition decade_int64 (y : Z) : Z := wrap64 (y / 10 * 10).

(** *** [(year // 10) * 10] on float64

    Every operation rounds its exact result to the nearest number of 53
    significant bits, ties to the even one ([RN]; the values at hand are
    far from the ends of the exponent range).  The floor division is the
    one of [npy_divmod], which is also that of Python's [float]: the
    remainder by [fmod], which is exact, then the quotient of the
    difference, moved down by one when the remainder is negative, then its
    floor, moved up by one when the quotient is more than a half above
    it. *)

Definition pow2 (e : Z) : Q :=
  if (0 <=? e)%Z then inject_Z (2 ^ e) else (/ inject_Z (2 ^ (- e)))%Q.

(** The floor of the binary logarithm of [|q|], for [q] other than 0. *)
Definition ilog2 (q : Q) : Z :=
  let e := (Z.log2 (Z.abs (Qnum q)) - Z.log2 (Zpos (Qden q)))%Z in
  if Qle_bool (pow2 e) (Qabs q) then e else (e - 1)%Z.

Definition round_even (q : Q) : Z :=
  let f := Qfloor q in
  match Qcompare (q - inject_Z f) (1 # 2) with
  | Lt => f
  | Gt => (f + 1)%Z
  | Eq => if Z.even f then f else (f + 1)%Z
  end.

Definition RN (q : Q) : Q :=
  let q := Qred q in
  if Qeq_bool q 0 then 0%Q
  else let e := (ilog2 q - 52)%Z in
       Qred (inject_Z (round_even (q / pow2 e)) * pow2 e).

Definition decade_float64 (y : Z) : Z :=
  let a := RN (inject_Z y) in
  let m := Z.rem (Qfloor a) 10 in
  let d0 := RN (RN (a - inject_Z m) / inject_Z 10) in
  let d := if (m <? 0)%Z then RN (d0 - inject_Z 1) else d0 in
  let fd :=
    if Qeq_bool d 0 then 0%Q
    else let fl := inject_Z (Qfloor d) in
         if Qlt_le_dec (1 # 2) (d - fl) then RN (fl + inject_Z 1) else fl in
  Qfloor (RN (fd * inject_Z 10)).

Definition decade_in (float : bool) (y : Z) : Z :=
  if float then decade_float64 y else decade_int64 y.

(** [nobel['decade'] = (nobel['year'] // 10) * 10]: the operator is not
    defined on the strings (or [None]s) of an object column. *)
Definition add_decade (nobel : table) : result table :=
  c ← get_col "year" nobel;
  match c with
  | NumCol l =>
      Ok (set_col "decade" (NumCol (fmap (M:=option) (decade_in (is_float c)) <$> l)) nobel)
  | ObjCol _ => Raise TypeError
  end.

(** [str(v)] for the cells of a column. *)
Definition str_of_value (float : bool) (v : value) : string :=
  match v with
  | Str s => s
  | Num z => if float then PyStr.of_float z else PyStr.of_Z z
  end.

(** [nobel['birth_country'] = nobel['birth_country'].fillna('Unknown').astype(str)] *)
Definition default_country (nobel : table) : result table :=
  c ← get_col "birth_country" nobel;
  Ok (set_col "birth_country"
        (ObjCol (Some <$> (str_of_value (is_float c) <$> fillna_str "Unknown" c))) nobel).

Definition preprocess (nobel : table) : result table :=
  nobel ← add_decade nobel;
  default_country nobel.

(** Lines 52-75: the table every query reads. *)
Definition load (df : table) : result table :=
  nobel ← normalize df;
  nobel ← check_essential nobel;
  preprocess nobel.

(** ** Rows of the loaded table

    In a table that [load] returns, [year] and [decade] are numeric
    columns and [full_name], [sex] and [birth_country] are object columns;
    a record reads them at these types.  [category] can be either. *)

Record laureate := Laureate {
  year : option Z;
  full_name : option string;
  sex : option string;
  birth_country : option string;
  category : cell;
  decade : option Z
}.

Definition num_at (df : table) (name : string) (i : nat) : option Z :=
  match cell_at df name i with
  | Some (Num z) => Some z
  | _ => None
  end.

Definition str_at (df : table) (name : string) (i : nat) : option string :=
  match cell_at df name i with
  | Some (Str s) => Some s
  | _ => None
  end.

(** [nobel.iloc[i]] *)
Definition row (nobel : table) (i : nat) : laureate :=
  Laureate (num_at nobel "year" i) (str_at nobel "full_name" i) (str_at nobel "sex" i)
           (str_at nobel "birth_country" i) (cell_at nobel "category" i)
           (num_at nobel "decade" i).

Definition rows (nobel : table) : list laureate :=
  row nobel <$> seq 0 (nrows nobel).

(** ** Series: sorting, unique values, counts, grouping, argmax *)

(** A stable insertion sort stands for the sorts of pandas and Python.  On
    keys without ties every sort returns the same list; among equal keys
    pandas promises no order, and the model keeps the order they come in. *)
Section sort.
Context {A : Type} (R : relation A) `{!RelDecision R}.

Fixpoint insert_by (x : A) (l : list A) : list A :=
  match l with
  | [] => [x]
  | y :: l' => if decide (R x y) then x :: l else y :: insert_by x l'
  end.

Definition sort_by (l : list A) : list A := foldr insert_by [] l.
End sort.

Global Instance value_eq_dec : EqDecision value.
Proof. solve_decision. Defined.

Global Instance laureate_eq_dec : EqDecision laureate.
Proof. solve_decision. Defined.

(** The order pandas sorts group keys by: numbers by value, strings by
    code point.  A column never mixes the two; numbers are put first to
    make the order total. *)
Definition value_le (a b : value) : Prop :=
  match a, b with
  | Num x, Num y => (x ≤ y)%Z
  | Str x, Str y => String.le x y
  | Num _, Str _ => True
  | Str _, Num _ => False
  end.

Global Instance value_le_dec : RelDecision value_le.
Proof. intros [x|x] [y|y]; simpl; apply _. Defined.

(** Keys of [groupby(['decade', 'category'])], in lexicographic order. *)
Definition pair_le (a b : Z * value) : Prop :=
  (a.1 < b.1)%Z ∨ (a.1 = b.1 ∧ value_le a.2 b.2).

Global Instance pair_le_dec : RelDecision pair_le.
Proof. intros a b. unfold pair_le. apply _. Defined.

Section series.
Context {K : Type} `{EqDecision K}.

(** [s.unique()]: the distinct values in order of first appearance. *)
Fixpoint unique (l : list K) : list K :=
  match l with
  | [] => []
  | x :: l' => x :: filter (fun y => y ≠ x) (unique l')
  end.

Definition count (k : K) (l : list K) : nat :=
  length (filter (fun y => y = k) l).

(** [s[k]] on a Series with unique labels. *)
Fixpoint get {V} (k : K) (s : list (K * V)) : option V :=
  match s with
  | [] => None
  | (k', v) :: s' => if decide (k' = k) then Some v else get k s'
  end.

(** [groupby(keys).size()]: one entry per key that occurs, nulls
    dropped, sorted by key. *)
Definition groupby_size (le : relation K) `{!RelDecision le}
    (keys : list (option K)) : list (K * nat) :=
  let present := omap id keys in
  (fun k => (k, count k present)) <$> sort_by le (unique present).

(** [a / b] on two Series of counts: the labels are aligned on their
    sorted union, and a label missing on either side gives NaN. *)
Definition series_div (le : relation K) `{!RelDecision le}
    (a b : list (K * nat)) : list (K * option Q) :=
  (fun k => (k, match get k a, get k b with
                | Some x, Some y => Some (inject_Z (Z.of_nat x) / inject_Z (Z.of_nat y))%Q
                | _, _ => None
                end))
    <$> sort_by le (unique (a.*1 ++ b.*1)).

(** [s.fillna(0)] *)
Definition fillna0 (s : list (K * option Q)) : list (K * Q) :=
  (fun kv => (kv.1, default 0%Q kv.2)) <$> s.

(** [s.idxmax()]: the first label that carries the largest value. *)
Fixpoint argmax {V} (lt : V → V → bool) (best : K * V) (s : list (K * V)) : K * V :=
  match s with
  | [] => best
  | kv :: s' => argmax lt (if lt best.2 kv.2 then kv else best) s'
  end.

Definition idxmax {V} (lt : V → V → bool) (s : list (K * V)) : result K :=
  match s with
  | [] => Raise EmptyArgmax
  | kv :: s' => Ok (argmax lt kv s').1
  end.

(** [s.value_counts()]: nulls dropped, most frequent first.  Values
    of equal count stay in order of first appearance. *)
Definition by_count_desc (a b : K * nat) : Prop := (b.2 ≤ a.2)%nat.

Global Instance by_count_desc_dec : RelDecision by_count_desc.
Proof. intros a b. unfold by_count_desc. apply _. Defined.

Definition value_counts (l : list (option K)) : list (K * nat) :=
  let present := omap id l in
  sort_by by_count_desc ((fun k => (k, count k present)) <$> unique present).
End series.

Definition Qltb (a b : Q) : bool := negb (Qle_bool b a).

(** ** Question 1: most common gender and birth country (lines 81-86) *)

Definition top_gender (nobel : table) : result string :=
  idxmax Nat.ltb (value_counts (sex <$> rows nobel)).

Definition top_country (nobel : table) : result string :=
  idxmax Nat.ltb (value_counts (birth_country <$> rows nobel)).

(** ** Question 2: USA-born ratio by decade (lines 98-115) *)

(** [str.contains('United States|USA|America|U.S.A.', case=False, na=False)] *)
Definition usa_mask (r : laureate) : bool :=
  match birth_country r with
  | Some s => PyStr.contains "United States|USA|America|U.S.A." false s
  | None => false
  end.

Definition usa_winners (nobel : table) : list laureate :=
  filter (fun r => usa_mask r) (rows nobel).

Definition usa_per_decade (nobel : table) : list (Z * nat) :=
  groupby_size Z.le (decade <$> usa_winners nobel).

Definition total_per_decade (nobel : table) : list (Z * nat) :=
  groupby_size Z.le (decade <$> rows nobel).

Definition usa_ratio (nobel : table) : list (Z * Q) :=
  fillna0 (series_div Z.le (usa_per_decade nobel) (total_per_decade nobel)).

(** [None] is the script's value for a skipped analysis. *)
Definition max_decade_usa (nobel : table) : result (option Z) :=
  if decide (length (usa_winners nobel) = 0) then Ok None
  else d ← idxmax Qltb (usa_ratio nobel); Ok (Some d).

(** ** Question 3: highest female proportion (lines 131-152) *)

Definition female_winners (nobel : table) : list laureate :=
  filter (fun r => sex r = Some "female") (rows nobel).

(** The key of a row under [groupby(['decade', 'category'])]; a row with a
    null in either column belongs to no group. *)
Definition pair_key (r : laureate) : option (Z * value) :=
  d ← decade r; c ← category r; Some (d, c).

Definition female_group (nobel : table) : list (Z * value * nat) :=
  groupby_size pair_le (pair_key <$> female_winners nobel).

Definition total_group (nobel : table) : list (Z * value * nat) :=
  groupby_size pair_le (pair_key <$> rows nobel).

(** [pd.Series()] when there is no female winner. *)
Definition prop (nobel : table) : list (Z * value * Q) :=
  if decide (length (female_winners nobel) = 0) then []
  else fillna0 (series_div pair_le (female_group nobel) (total_group nobel)).

Definition max_female_dict (nobel : table) : result (Z * value) :=
  if decide (length (female_winners nobel) = 0) then Ok (1900%Z, Str "Unknown")
  else if decide (length (prop nobel) = 0) then Ok (1900%Z, Str "Unknown")
  else idxmax Qltb (prop nobel).

(** A data frame of numbers: row labels, column labels, one list of
    values per row.  A label can be null. *)
Record frame := Frame {
  frame_index : list (option Z);
  frame_columns : list cell;
  frame_values : list (list Q)
}.

(** [pd.DataFrame(columns=cs, index=ds).fillna(0)] *)
Definition zeros (ds : list (option Z)) (cs : list cell) : frame :=
  Frame ds cs ((fun _ => (fun _ => 0%Q) <$> cs) <$> ds).

(** [s.unstack().fillna(0)]: the second level of the labels becomes the
    columns; a pair the Series has no entry for is null, then 0. *)
Definition unstack_fillna0 (s : list (Z * value * Q)) : frame :=
  let ds := sort_by Z.le (unique (s.*1.*1)) in
  let cs := sort_by value_le (unique (s.*1.*2)) in
  Frame (Some <$> ds) (Some <$> cs)
        ((fun d => (fun c => default 0%Q (get (d, c) s)) <$> cs) <$> ds).

Definition prop_df (nobel : table) : frame :=
  if decide (length (female_winners nobel) = 0)
  then zeros (unique (decade <$> rows nobel)) (unique (category <$> rows nobel))
  else unstack_fillna0 (prop nobel).

(** [prop_df.loc[d, c]] *)
Definition frame_at (f : frame) (d : option Z) (c : cell) : option Q :=
  i ← list_find (fun x => x = d) (frame_index f);
  j ← list_find (fun x => x = c) (frame_columns f);
  r ← frame_values f !! i.1;
  r !! j.1.

(** ** Question 4: first woman (lines 164-172) *)

(** Ascending by year, nulls last; women of the same year stay in table
    order. *)
Definition year_le (a b : laureate) : Prop :=
  match year a, year b with
  | Some x, Some y => (x ≤ y)%Z
  | None, Some _ => False
  | _, None => True
  end.

Global Instance year_le_dec : RelDecision year_le.
Proof. intros a b. unfold year_le. destruct (year a), (year b); apply _. Defined.

(** [female_winners.sort_values('year').iloc[0]] *)
Definition first (nobel : table) : option laureate :=
  head (sort_by year_le (female_winners nobel)).

Definition first_woman_name (nobel : table) : option string :=
  match first nobel with
  | Some r => full_name r
  | None => Some "Unknown"
  end.

Definition first_woman_category (nobel : table) : cell :=
  match first nobel with
  | Some r => category r
  | None => Some (Str "Unknown")
  end.

(** ** Question 5: repeat winners (lines 174-183) *)

Definition repeat_counts (nobel : table) : list (string * nat) :=
  value_counts (full_name <$> rows nobel).

(** [repeat_counts[repeat_counts > 1].index.tolist()] *)
Definition repeat_list (nobel : table) : list string :=
  (filter (fun kv : string * nat => 1 < kv.2) (repeat_counts nobel)).*1.

(** [nobel[nobel['full_name'] == name]] *)
Definition wins_of (nobel : table) (name : string) : list laureate :=
  filter (fun r => full_name r = Some name) (rows nobel).

Definition cats (nobel : table) (name : string) : list cell :=
  unique (category <$> wins_of nobel name).

(** Python's [<] on two years: false as soon as one of them is NaN. *)
Definition year_lt (a b : option Z) : bool :=
  match a, b with
  | Some x, Some y => (x <? y)%Z
  | _, _ => false
  end.

(** No item is below the one before it. *)
Fixpoint one_run (l : list (option Z)) : bool :=
  match l with
  | a :: (b :: _) as l' => negb (year_lt b a) && one_run l'
  | _ => true
  end.

(** [sorted(l)] compares with [<] and nothing else.  Without a NaN the
    result is the ascending order.  A list in which no item is below the
    one before it is a single ascending run to the algorithm and comes
    back as it is, whatever a NaN in it hides.  For the other lists with a
    NaN the order depends on the runs and merges of the interpreter at
    hand; that case is left out: [None]. *)
Definition sorted (l : list (option Z)) : option (list (option Z)) :=
  match mapM id l with
  | Some ys => Some (Some <$> sort_by Z.le ys)
  | None => if one_run l then Some l else None
  end.

(** [sorted(nobel[nobel['full_name'] == name]['year'].tolist())] *)
Definition years (nobel : table) (name : string) : option (list (option Z)) :=
  sorted (year <$> wins_of nobel name).

(** [sep.join(l)]: every item has to be a string. *)
Fixpoint join (sep : string) (l : list cell) : result string :=
  match l with
  | [] => Ok ""
  | x :: l' =>
      match x with
      | Some (Str s) =>
          match l' with
          | [] => Ok s
          | _ :: _ => rest ← join sep l'; Ok (s +:+ sep +:+ rest)
          end
      | _ => Raise TypeError
      end
  end.

(** The body of the [for name in repeat_list] loop; the printed line is
    reduced to its joined categories. *)
Definition print_winner (nobel : table) (name : string) : result string :=
  join ", " (cats nobel name).

Definition print_repeat_winners (nobel : table) : result (list string) :=
  traverse (print_winner nobel) (repeat_list nobel).

(** ** The whole script *)

Record answers := Answers {
  ans_top_gender : string;
  ans_top_country : string;
  ans_max_decade_usa : option Z;
  ans_max_female_dict : Z * value;
  ans_prop_df : frame;
  ans_first_woman_name : option string;
  ans_first_woman_category : cell;
  ans_repeat_list : list string
}.

(** The queries of lines 81-183 on the loaded table, without the charts. *)
Definition aggregate (nobel : table) : result answers :=
  g ← top_gender nobel;
  c ← top_country nobel;
  u ← max_decade_usa nobel;
  f ← max_female_dict nobel;
  _ ← print_repeat_winners nobel;
  Ok (Answers g c u f (prop_df nobel) (first_woman_name nobel)
              (first_woman_category nobel) (repeat_list nobel)).

(** Line 119: [usa_ratio[usa_ratio.index >= 1900]] *)
Definition ratio_series (nobel : table) : list (Z * Q) :=
  filter (fun kv : Z * Q => (1900 ≤ kv.1)%Z) (usa_ratio nobel).

(** Line 120, in the branch of the USA-born records:
    [ratio_series.plot(kind='bar', ...)] raises when the Series has no
    entry. *)
Definition plot_usa_ratio (nobel : table) : result unit :=
  if decide (length (usa_winners nobel) = 0) then Ok ()
  else if decide (length (ratio_series nobel) = 0) then Raise PlotError
  else Ok ().

(** Lines 81-183 in the order of the script, with the bar chart of line
    120.  The count plot and the heat map are not modelled. *)
Definition run (nobel : table) : result answers :=
  g ← top_gender nobel;
  c ← top_country nobel;
  u ← max_decade_usa nobel;
  _ ← plot_usa_ratio nobel;
  f ← max_female_dict nobel;
  _ ← print_repeat_winners nobel;
  Ok (Answers g c u f (prop_df nobel) (first_woman_name nobel)
              (first_woman_category nobel) (repeat_list nobel)).

Definition analysis (df : table) : result (table * answers) :=
  nobel ← load df;
  a ← run nobel;
  Ok (nobel, a).

(** ** Quantities the statements below are phrased in *)

(** The number of records of a decade, and of its USA-born records. *)
Definition decade_total (nobel : table) (d : Z) : nat :=
  length (filter (fun r => decade r = Some d) (rows nobel)).

Definition decade_usa (nobel : table) (d : Z) : nat :=
  length (filter (fun r => decade r = Some d ∧ usa_mask r) (rows nobel)).

(** The number of records of a (decade, category) pair, and of its female
    records. *)
Definition pair_total (nobel : table) (p : Z * value) : nat :=
  length (filter (fun r => pair_key r = Some p) (rows nobel)).

Definition pair_female (nobel : table) (p : Z * value) : nat :=
  length (filter (fun r => pair_key r = Some p ∧ sex r = Some "female") (rows nobel)).

(** The quotient of two counts. *)
Definition quotient (a b : nat) : Q := (inject_Z (Z.of_nat a) / inject_Z (Z.of_nat b))%Q.

(** The source names [map_columns] accepts for a canonical column. *)
Definition aliases (std : string) : list string := default [] (get std col_map).

Definition lacks_aliases (std : string) (df : table) : Prop :=
  Forall (fun v => columns df !! v = None) (aliases std).

(** The column [map_columns] stores under a canonical name. *)
Definition mapped_col (df : table) (variants : list string) : column :=
  default (none_col (nrows df)) (first_variant df variants).

(** One half of a name, a null counting as the empty string. *)
Definition name_half (df : table) (name : string) (i : nat) : string :=
  match cell_at df name i with
  | Some (Str s) => s
  | _ => ""
  end.

(** A string that neither starts nor ends with white space. *)
Definition is_stripped (s : string) : Prop :=
  (∀ c s', s = String c s' → PyStr.is_space c = false) ∧
  (∀ c s', String.rev s = String c s' → PyStr.is_space c = false).

(** A data frame from its columns. *)
Definition from_columns (n : nat) (l : list (string * column)) : table :=
  Table n (list_to_map l).

(** The pair of columns [combine_names] joins, if any. *)
Definition name_source (df : table) : option (string * string) :=
  if has_col "givenName" df && has_col "familyName" df then Some ("givenName", "familyName")
  else if has_col "firstname" df && has_col "surname" df then Some ("firstname", "surname")
  else None.

(** The literal reading of the USA test: [birth_country] contains one of
    the four names, whatever the case of the letters. *)
Definition usa_names : list string := ["United States"; "USA"; "America"; "U.S.A."].

Fixpoint is_substring (p s : string) : bool :=
  String.prefix p s ||
  match s with
  | EmptyString => false
  | String _ s' => is_substring p s'
  end.

Definition contains_literal (name s : string) : bool :=
  is_substring (PyStr.lower name) (PyStr.lower s).

Definition usa_born_literally (s : string) : bool :=
  existsb (fun name => contains_literal name s) usa_names.

(** An atom accepts every character that equals [x] up to case. *)
Definition covers (a : PyStr.atom) (x : ascii) : Prop :=
  ∀ c, PyStr.lower_char x = PyStr.lower_char c → PyStr.atom_matches false a c = true.

Fixpoint covers_all (p : list PyStr.atom) (name : string) : Prop :=
  match p, name with
  | [], EmptyString => True
  | a :: p', String x name' => covers a x ∧ covers_all p' name'
  | _, _ => False
  end.

(** The table [load] returns, the input itself when it raises. *)
Definition loaded (df : table) : table :=
  match load df with
  | Ok t => t
  | Raise _ => df
  end.

(** ** Sample inputs *)

(** Winner A in 1990 (Physics) and 2000 (Chemistry), winner B once. *)
Definition df_repeat : table :=
  from_columns 3
    [ ("year", NumCol [Some 1990; Some 1995; Some 2000]%Z);
      ("full_name", ObjCol [Some "A"; Some "B"; Some "A"]);
      ("sex", ObjCol [Some "Male"; Some "Female"; None]);
      ("birth_country", ObjCol [Some "USA"; None; Some "United States of America"]);
      ("category", ObjCol [Some "Physics"; Some "Peace"; Some "Chemistry"]) ].

(** No alias of [sex]. *)
Definition df_no_sex : table :=
  from_columns 2
    [ ("year", NumCol [Some 1903; Some 1911]%Z);
      ("name", ObjCol [Some "Marie Curie"; Some "Marie Curie"]);
      ("bornCountry", ObjCol [Some "Poland"; Some "Poland"]);
      ("category", ObjCol [Some "Physics"; Some "Chemistry"]) ].

(** No alias of [category]. *)
Definition df_no_category : table :=
  from_columns 1
    [ ("year", NumCol [Some 1903%Z]);
      ("full_name", ObjCol [Some "Marie Curie"]);
      ("sex", ObjCol [Some "Female"]);
      ("birth_country", ObjCol [Some "Poland"]) ].

(** A [full_name] column next to a [givenName]/[familyName] pair. *)
Definition df_names : table :=
  from_columns 2
    [ ("year", NumCol [Some 1903; Some 1921]%Z);
      ("full_name", ObjCol [Some "Marie Curie"; Some "Albert Einstein"]);
      ("givenName", ObjCol [Some "Maria"; Some " Albert"]);
      ("familyName", ObjCol [Some "Sklodowska"; None]);
      ("sex", ObjCol [Some "female"; Some "male"]);
      ("birth_country", ObjCol [Some "Poland"; Some "Germany"]);
      ("category", ObjCol [Some "Physics"; Some "Physics"]) ].

(** Two decades and two categories, but only two of the four pairs. *)
Definition df_sparse : table :=
  from_columns 2
    [ ("year", NumCol [Some 1995; Some 2001]%Z);
      ("full_name", ObjCol [Some "C"; Some "D"]);
      ("sex", ObjCol [Some "female"; Some "male"]);
      ("birth_country", ObjCol [Some "France"; Some "Japan"]);
      ("category", ObjCol [Some "Physics"; Some "Chemistry"]) ].

(** One record, born in the Russian Empire. *)
Definition df_russian : table :=
  from_columns 1
    [ ("year", NumCol [Some 1904%Z]);
      ("full_name", ObjCol [Some "Ivan Pavlov"]);
      ("sex", ObjCol [Some "male"]);
      ("birth_country", ObjCol [Some "Russian Empire"]);
      ("category", ObjCol [Some "Medicine"]) ].

(** A repeat winner with an empty category cell; no woman, nobody born in
    the USA. *)
Definition df_null_category : table :=
  from_columns 2
    [ ("year", NumCol [Some 1990; Some 2000]%Z);
      ("full_name", ObjCol [Some "A"; Some "A"]);
      ("sex", ObjCol [Some "male"; Some "male"]);
      ("birth_country", ObjCol [Some "France"; Some "France"]);
      ("category", ObjCol [Some "Physics"; None]) ].

(** The table [normalize] returns, the input itself when it raises. *)
Definition normalized (df : table) : table :=
  match normalize df with
  | Ok t => t
  | Raise _ => df
  end.

(** Membership of a given name in [essential]. *)
Ltac essential_tac :=
  unfold essential;
  first
    [ solve [repeat constructor]
    | let H := fresh in
      intros H;
      repeat (apply elem_of_cons in H as [H|H]; [discriminate H|]);
      by apply elem_of_nil in H ].

(** ** Further values the script computes and prints *)

(** [s.min()] and [s.max()] of a numeric Series: nulls are skipped, and the
    result is null when nothing is left. *)
Definition series_min (l : list (option Z)) : option Z :=
  foldr (fun x acc => match x, acc with
                      | Some a, Some b => Some (Z.min a b)
                      | Some a, None => Some a
                      | None, _ => acc
                      end) None l.

Definition series_max (l : list (option Z)) : option Z :=
  foldr (fun x acc => match x, acc with
                      | Some a, Some b => Some (Z.max a b)
                      | Some a, None => Some a
                      | None, _ => acc
                      end) None l.

(** Line 71: [nobel['year'].min()] and [nobel['year'].max()], on a table
    whose [year] column is numeric. *)
Definition year_min (nobel : table) : option Z := series_min (year <$> rows nobel).

Definition year_max (nobel : table) : option Z := series_max (year <$> rows nobel).

(** [s.sum()] of a Series of counts. *)
Definition series_sum {K} (s : list (K * nat)) : nat := sum_list (s.*2).

(** [s.max()] of a Series of ratios, null for an empty Series. *)
Definition ratio_max {K} (s : list (K * Q)) : option Q :=
  foldr (fun kv acc => match acc with
                       | Some q => Some (if Qltb q kv.2 then kv.2 else q)
                       | None => Some kv.2
                       end) None s.

(** Line 180: [wins = repeat_counts[name]], for a name of [repeat_list]. *)
Definition wins (nobel : table) (name : string) : option nat :=
  get name (repeat_counts nobel).

(** Line 169: [first['year']] *)
Definition first_woman_year (nobel : table) : option Z := first nobel ≫= year.

(** A column that holds a number. *)
Definition has_number (c : column) : Prop :=
  match c with
  | ObjCol _ => False
  | NumCol l => ∃ z, Some z ∈ l
  end.

(** A numeric column. *)
Definition is_numeric (c : column) : Prop :=
  match c with
  | ObjCol _ => False
  | NumCol _ => True
  end.

(** A [sex] column of numbers, as a CSV with codes 1 and 2 is read. *)
Definition df_numeric_sex : table :=
  from_columns 2
    [ ("year", NumCol [Some 1903; Some 1911]%Z);
      ("full_name", ObjCol [Some "Marie Curie"; Some "Marie Curie"]);
      ("sex", NumCol [Some 2; Some 2]%Z);
      ("birth_country", ObjCol [Some "Poland"; Some "Poland"]);
      ("category", ObjCol [Some "Physics"; Some "Chemistry"]) ].

(** No alias of [sex], and a [year] column of text. *)
Definition df_text_year : table :=
  from_columns 2
    [ ("year", ObjCol [Some "MCMIII"; Some "MCMXI"]);
      ("name", ObjCol [Some "Marie Curie"; Some "Marie Curie"]);
      ("bornCountry", ObjCol [Some "Poland"; Some "Poland"]);
      ("category", ObjCol [Some "Physics"; Some "Chemistry"]) ].

(** Winner A three times, the second time without a year; B, a woman,
    once. *)
Definition df_nan_year : table :=
  from_columns 4
    [ ("year", NumCol [Some 2000; None; Some 1990; Some 1995]%Z);
      ("full_name", ObjCol [Some "A"; Some "A"; Some "A"; Some "B"]);
      ("sex", ObjCol [Some "male"; Some "male"; Some "male"; Some "female"]);
      ("birth_country", ObjCol [Some "France"; Some "France"; Some "France"; Some "Japan"]);
      ("category", ObjCol [Some "Physics"; Some "Physics"; Some "Chemistry"; Some "Peace"]) ].

(** Two women, the later one first in the file. *)
Definition df_women : table :=
  from_columns 3
    [ ("year", NumCol [Some 1911; Some 1903; Some 1921]%Z);
      ("full_name", ObjCol [Some "Marie Curie"; Some "Marie Curie"; Some "Albert Einstein"]);
      ("sex", ObjCol [Some "female"; Some "Female"; Some "male"]);
      ("birth_country", ObjCol [Some "Poland"; Some "Poland"; Some "Germany"]);
      ("category", ObjCol [Some "Chemistry"; Some "Physics"; Some "Physics"]) ].

(** The header alone: the four other columns, no row. *)
Definition df_header_only : table :=
  from_columns 0
    [ ("year", ObjCol []);
      ("name", ObjCol []);
      ("bornCountry", ObjCol []);
      ("category", ObjCol []) ].

(** One record, of the least year an int64 column holds. *)
Definition df_least_year : table :=
  from_columns 1
    [ ("year", NumCol [Some (-9223372036854775808)%Z]);
      ("full_name", ObjCol [Some "A"]);
      ("sex", ObjCol [Some "male"]);
      ("birth_country", ObjCol [Some "France"]);
      ("category", ObjCol [Some "Physics"]) ].

(** A year beyond 2^53, in a column with an empty cell. *)
Definition df_large_year : table :=
  from_columns 2
    [ ("year", NumCol [Some 100000000000000016; None]%Z);
      ("full_name", ObjCol [Some "A"; Some "B"]);
      ("sex", ObjCol [Some "male"; Some "male"]);
      ("birth_country", ObjCol [Some "France"; Some "France"]);
      ("category", ObjCol [Some "Physics"; Some "Physics"]) ].

(** One record before 1900, born in the USA. *)
Definition df_before_1900 : table :=
  from_columns 1
    [ ("year", NumCol [Some 1895%Z]);
      ("full_name", ObjCol [Some "A"]);
      ("sex", ObjCol [Some "male"]);
      ("birth_country", ObjCol [Some "USA"]);
      ("category", ObjCol [Some "Physics"]) ].

(** * Facts about the list and Series operations *)

Section sort_facts.
Context {A : Type} (R : relation A) `{!RelDecision R}.

Lemma insert_by_perm x l : insert_by R x l ≡ₚ x :: l.
Proof.
  induction l as [|y l IH]; simpl; [done|].
  case_decide; [done|]. rewrite IH. apply Permutation_swap.
Qed.

Lemma sort_by_perm l : sort_by R l ≡ₚ l.
Proof.
  induction l as [|x l IH]; simpl; [done|].
  by rewrite insert_by_perm, IH.
Qed.

Lemma elem_of_sort_by x l : x ∈ sort_by R l ↔ x ∈ l.
Proof. by rewrite sort_by_perm. Qed.

Lemma NoDup_sort_by l : NoDup l → NoDup (sort_by R l).
Proof. by rewrite sort_by_perm. Qed.

Lemma length_sort_by l : length (sort_by R l) = length l.
Proof. by rewrite sort_by_perm. Qed.

Lemma sort_by_nil_inv l : sort_by R l = [] → l = [].
Proof.
  intros E. apply length_zero_iff_nil. rewrite <- length_sort_by. by rewrite E.
Qed.

Context `{!Total R}.

Lemma Sorted_insert_by x l : Sorted R l → Sorted R (insert_by R x l).
Proof.
  induction 1 as [|y l Hl IH Hhd]; simpl; [by repeat constructor|].
  case_decide as Hxy.
  - constructor; [by constructor|]. by constructor.
  - assert (R y x) by (by destruct (total R x y)).
    constructor; [done|].
    destruct Hhd as [|z l Hyz]; simpl; [by constructor|].
    case_decide; by constructor.
Qed.

Lemma Sorted_sort_by l : Sorted R (sort_by R l).
Proof.
  induction l as [|x l IH]; simpl; [constructor|]. by apply Sorted_insert_by.
Qed.

Lemma StronglySorted_sort_by `{!Transitive R} l : StronglySorted R (sort_by R l).
Proof. apply Sorted_StronglySorted; [done|]. apply Sorted_sort_by. Qed.
End sort_facts.

Section series_facts.
Context {K : Type} `{EqDecision K}.
Implicit Types (k : K) (l : list K).

Lemma elem_of_unique k l : k ∈ unique l ↔ k ∈ l.
Proof.
  induction l as [|y l IH]; simpl; [done|].
  rewrite !elem_of_cons, list_elem_of_filter, IH.
  destruct (decide (k = y)); tauto.
Qed.

Lemma NoDup_unique l : NoDup (unique l).
Proof.
  induction l as [|y l IH]; simpl; constructor.
  - rewrite list_elem_of_filter. by intros [? _].
  - by apply NoDup_filter.
Qed.

(** [unique] keeps the order of first appearance: what a prefix
    contributes comes first, and the rest of the list only adds the
    values the prefix does not have. *)
Lemma unique_app l1 l2 :
  unique (l1 ++ l2) = unique l1 ++ filter (fun y => y ∉ l1) (unique l2).
Proof.
  induction l1 as [|x l1 IH]; simpl.
  - symmetry. induction (unique l2) as [|z u IHu]; [done|].
    rewrite filter_cons_True; [by f_equal|]. apply not_elem_of_nil.
  - f_equal. rewrite IH, filter_app. f_equal.
    rewrite list_filter_filter. apply list_filter_iff.
    intros z. rewrite not_elem_of_cons. tauto.
Qed.

Lemma unique_snoc l k :
  unique (l ++ [k]) = if decide (k ∈ l) then unique l else unique l ++ [k].
Proof.
  rewrite unique_app. simpl.
  case_decide.
  - rewrite filter_cons_False by (by intros Hk; apply Hk). by rewrite app_nil_r.
  - by rewrite filter_cons_True.
Qed.

Lemma count_pos k l : 0 < count k l ↔ k ∈ l.
Proof.
  unfold count. induction l as [|y l IH].
  - simpl. rewrite elem_of_nil. lia.
  - rewrite filter_cons, elem_of_cons. case_decide; simpl.
    + split; [auto|lia].
    + rewrite IH. split; [auto|]. by intros [->|?].
Qed.

Lemma count_omap (k : K) (l : list (option K)) :
  count k (omap id l) = count (Some k) l.
Proof.
  unfold count. induction l as [|[y|] l IH]; [done|..].
  - cbn [omap list_omap id]. rewrite !filter_cons.
    repeat case_decide; simplify_eq/=; by rewrite ?IH.
  - cbn [omap list_omap id]. rewrite filter_cons_False by done. done.
Qed.

Lemma count_le_length k l : count k l ≤ length l.
Proof. apply length_filter. Qed.

Lemma get_tabulate {V} (f : K → V) k (ks : list K) :
  get k ((fun x => (x, f x)) <$> ks) = if decide (k ∈ ks) then Some (f k) else None.
Proof.
  induction ks as [|y ks IH]; [done|].
  rewrite fmap_cons. cbn [get].
  destruct (decide (y = k)) as [->|Hne].
  - rewrite decide_True by left. done.
  - rewrite IH. destruct (decide (k ∈ ks)) as [Hin|Hnin].
    + rewrite decide_True by (by right). done.
    + rewrite decide_False; [done|]. by intros [->|?]%elem_of_cons.
Qed.

Lemma get_Some_elem_of {V} k (v : V) (s : list (K * V)) :
  get k s = Some v → (k, v) ∈ s.
Proof.
  induction s as [|[k' v'] s IH]; simpl; [done|].
  case_decide; intros; simplify_eq; [left|right; auto].
Qed.

Lemma elem_of_get_Some {V} k (v : V) (s : list (K * V)) :
  NoDup (s.*1) → (k, v) ∈ s → get k s = Some v.
Proof.
  induction s as [|[k' v'] s IH]; simpl; [by intros _ ?%elem_of_nil|].
  intros [Hk' Hs]%NoDup_cons [?|Hin]%elem_of_cons; simplify_eq.
  - by rewrite decide_True.
  - rewrite decide_False; [auto|]. intros ->. apply Hk'.
    apply list_elem_of_fmap. by exists (k, v).
Qed.

Lemma get_fillna0 k (s : list (K * option Q)) :
  get k (fillna0 s) = default 0%Q <$> get k s.
Proof.
  induction s as [|[k' v'] s IH]; simpl; [done|]. by case_decide.
Qed.

Lemma fst_fillna0 (s : list (K * option Q)) : (fillna0 s).*1 = s.*1.
Proof. unfold fillna0. rewrite <- list_fmap_compose. done. Qed.

Lemma fst_tabulate {V} (f : K → V) (ks : list K) :
  ((fun x => (x, f x)) <$> ks).*1 = ks.
Proof. rewrite <- list_fmap_compose. apply list_fmap_id. Qed.

(** *** Grouping *)

Context (le : relation K) `{!RelDecision le}.

Lemma fst_groupby_size (keys : list (option K)) :
  (groupby_size le keys).*1 = sort_by le (unique (omap id keys)).
Proof. unfold groupby_size. apply fst_tabulate. Qed.

Lemma NoDup_groupby_size (keys : list (option K)) :
  NoDup (groupby_size le keys).*1.
Proof. rewrite fst_groupby_size. apply NoDup_sort_by, NoDup_unique. Qed.

Lemma elem_of_groupby_keys k (keys : list (option K)) :
  k ∈ (groupby_size le keys).*1 ↔ 0 < count (Some k) keys.
Proof.
  rewrite fst_groupby_size, elem_of_sort_by, elem_of_unique.
  by rewrite <- count_pos, count_omap.
Qed.

(** A group is listed with its size exactly when it has a member. *)
Lemma get_groupby_size k (keys : list (option K)) :
  get k (groupby_size le keys) =
    if decide (0 < count (Some k) keys) then Some (count (Some k) keys) else None.
Proof.
  unfold groupby_size. rewrite get_tabulate, count_omap.
  destruct (decide (0 < count (Some k) keys)) as [Hc|Hc].
  - rewrite decide_True; [done|].
    by rewrite elem_of_sort_by, elem_of_unique, <- count_pos, count_omap.
  - rewrite decide_False; [done|].
    by rewrite elem_of_sort_by, elem_of_unique, <- count_pos, count_omap.
Qed.

Lemma fst_series_div (a b : list (K * nat)) :
  (series_div le a b).*1 = sort_by le (unique (a.*1 ++ b.*1)).
Proof. unfold series_div. apply fst_tabulate. Qed.

Lemma get_series_div k (a b : list (K * nat)) :
  get k (series_div le a b) =
    if decide (k ∈ a.*1 ++ b.*1)
    then Some (match get k a, get k b with
               | Some x, Some y => Some (inject_Z (Z.of_nat x) / inject_Z (Z.of_nat y))%Q
               | _, _ => None
               end)
    else None.
Proof.
  unfold series_div. rewrite get_tabulate.
  destruct (decide (k ∈ a.*1 ++ b.*1)) as [Hin|Hin].
  - rewrite decide_True; [done|]. by rewrite elem_of_sort_by, elem_of_unique.
  - rewrite decide_False; [done|]. by rewrite elem_of_sort_by, elem_of_unique.
Qed.

(** The share of a sub-population per group, as the script computes it:
    [(sub.groupby(k).size() / all.groupby(k).size()).fillna(0)]. *)
Lemma get_share k (sub all : list (option K)) :
  count (Some k) sub ≤ count (Some k) all →
  get k (fillna0 (series_div le (groupby_size le sub) (groupby_size le all))) =
    if decide (0 < count (Some k) all)
    then Some (if decide (0 < count (Some k) sub)
               then (inject_Z (Z.of_nat (count (Some k) sub)) /
                     inject_Z (Z.of_nat (count (Some k) all)))%Q
               else 0%Q)
    else None.
Proof.
  intros Hle. rewrite get_fillna0, get_series_div, !get_groupby_size.
  destruct (decide (0 < count (Some k) all)) as [Ha|Ha].
  - rewrite decide_True.
    2:{ apply elem_of_app. right. by apply elem_of_groupby_keys. }
    by destruct (decide (0 < count (Some k) sub)).
  - rewrite decide_False.
    2:{ intros [Hin|Hin]%elem_of_app; apply elem_of_groupby_keys in Hin; lia. }
    done.
Qed.

Lemma share_keys (sub all : list (option K)) :
  (∀ k, count (Some k) sub ≤ count (Some k) all) →
  ∀ k, k ∈ (fillna0 (series_div le (groupby_size le sub) (groupby_size le all))).*1
       ↔ 0 < count (Some k) all.
Proof.
  intros Hle k. rewrite fst_fillna0, fst_series_div, elem_of_sort_by, elem_of_unique.
  rewrite elem_of_app, !elem_of_groupby_keys. specialize (Hle k). lia.
Qed.

Lemma NoDup_share (sub all : list (option K)) :
  NoDup (fillna0 (series_div le (groupby_size le sub) (groupby_size le all))).*1.
Proof. rewrite fst_fillna0, fst_series_div. apply NoDup_sort_by, NoDup_unique. Qed.

(** *** Argmax *)

Lemma argmax_Qltb (best : K * Q) (s : list (K * Q)) :
  argmax Qltb best s ∈ best :: s ∧
  ∀ kv, kv ∈ best :: s → (kv.2 <= (argmax Qltb best s).2)%Q.
Proof.
  revert best. induction s as [|kv s IH]; intros best; simpl.
  - split; [left|]. intros kv ->%list_elem_of_singleton. apply Qle_refl.
  - destruct (Qltb best.2 kv.2) eqn:Hlt.
    + destruct (IH kv) as [Hin Hmax]. split; [by right|].
      intros kv' [->|Hkv']%elem_of_cons; [|by apply Hmax].
      apply Qle_trans with kv.2; [|apply Hmax; left].
      unfold Qltb in Hlt. apply negb_true_iff in Hlt.
      apply Qlt_le_weak, Qnot_le_lt. intros Hle%Qle_bool_iff. congruence.
    + destruct (IH best) as [Hin Hmax]. split.
      { apply elem_of_cons in Hin as [->|?]; [left|right; by right]. }
      intros kv' [->|[->|Hkv']%elem_of_cons]%elem_of_cons.
      * apply Hmax; left.
      * apply Qle_trans with best.2; [|apply Hmax; left].
        unfold Qltb in Hlt. apply negb_false_iff in Hlt. by apply Qle_bool_iff.
      * apply Hmax. by right.
Qed.

Lemma idxmax_Qltb (s : list (K * Q)) k :
  idxmax Qltb s = Ok k →
  ∃ q, (k, q) ∈ s ∧ ∀ k' q', (k', q') ∈ s → (q' <= q)%Q.
Proof.
  destruct s as [|kv s]; [done|]. simpl. intros [= <-].
  destruct (argmax_Qltb kv s) as [Hin Hmax].
  exists (argmax Qltb kv s).2. split.
  - by destruct (argmax Qltb kv s).
  - intros k' q' Hin'. apply (Hmax (k', q') Hin').
Qed.

Lemma idxmax_nonempty {V} (lt : V → V → bool) (s : list (K * V)) :
  s ≠ [] → ∃ k, idxmax lt s = Ok k.
Proof. destruct s; [done|]. simpl. eauto. Qed.
End series_facts.

Lemma count_fmap_filter {A K} `{EqDecision K} (f : A → K) (P : A → Prop)
    `{!∀ x, Decision (P x)} (k : K) (l : list A) :
  count k (f <$> filter P l) ≤ count k (f <$> l).
Proof.
  unfold count. induction l as [|x l IH]; [done|].
  rewrite filter_cons. case_decide; rewrite ?fmap_cons, !filter_cons;
    repeat case_decide; simpl; lia.
Qed.

Lemma ratio_bounds (u t : nat) :
  u ≤ t → 0 < t →
  (0 <= inject_Z (Z.of_nat u) / inject_Z (Z.of_nat t) <= 1)%Q.
Proof.
  intros Hut Ht.
  assert (0 < inject_Z (Z.of_nat t))%Q as Hpos.
  { change 0%Q with (inject_Z 0). rewrite <- Zlt_Qlt. lia. }
  split.
  - apply Qle_shift_div_l; [done|]. rewrite Qmult_0_l.
    change 0%Q with (inject_Z 0). rewrite <- Zle_Qle. lia.
  - apply Qle_shift_div_r; [done|]. rewrite Qmult_1_l.
    rewrite <- Zle_Qle. lia.
Qed.

Lemma count_fmap {A K} `{EqDecision K} (f : A → K) (k : K) (l : list A) :
  count k (f <$> l) = length (filter (fun x => f x = k) l).
Proof.
  unfold count. induction l as [|x l IH]; [done|].
  rewrite fmap_cons, !filter_cons. repeat case_decide; simpl; congruence.
Qed.

Lemma quotient_zero (t : nat) : (quotient 0 t == 0)%Q.
Proof. unfold quotient. simpl. unfold Qdiv. apply Qmult_0_l. Qed.

(** ** Question 2 *)

Lemma count_decade_rows nobel d :
  count (Some d) (decade <$> rows nobel) = decade_total nobel d.
Proof. apply count_fmap. Qed.

Lemma count_decade_usa nobel d :
  count (Some d) (decade <$> usa_winners nobel) = decade_usa nobel d.
Proof.
  rewrite count_fmap. unfold usa_winners, decade_usa. by rewrite list_filter_filter.
Qed.


Lemma get_usa_ratio nobel d :
  get d (usa_ratio nobel) =
    if decide (0 < decade_total nobel d)
    then Some (if decide (0 < decade_usa nobel d)
               then quotient (decade_usa nobel d) (decade_total nobel d)
               else 0%Q)
    else None.
Proof.
  unfold usa_ratio, usa_per_decade, total_per_decade.
  rewrite get_share by apply count_fmap_filter.
  by rewrite count_decade_usa, count_decade_rows.
Qed.

Lemma max_decade_usa_Some nobel :
  usa_winners nobel ≠ [] → (∃ d, 0 < decade_total nobel d) →
  ∃ d, max_decade_usa nobel = Ok (Some d).
Proof.
  intros Husa [d Hd]. unfold max_decade_usa.
  rewrite decide_False by (by intros ?%length_zero_iff_nil).
  destruct (idxmax_nonempty Qltb (usa_ratio nobel)) as [d0 ->]; [|by exists d0].
  intros Hnil. pose proof (get_usa_ratio nobel d) as Hget.
  rewrite Hnil, decide_True in Hget by done. done.
Qed.


(** ** Question 3 *)

Lemma pair_key_Some r d c :
  pair_key r = Some (d, c) ↔ decade r = Some d ∧ category r = Some c.
Proof.
  unfold pair_key. destruct (decade r), (category r); simpl;
    (split; [intros [=]; by subst|intros [[=] [=]]; by subst]).
Qed.

Lemma count_pair_rows nobel p :
  count (Some p) (pair_key <$> rows nobel) = pair_total nobel p.
Proof. apply count_fmap. Qed.

Lemma count_pair_female nobel p :
  count (Some p) (pair_key <$> female_winners nobel) = pair_female nobel p.
Proof.
  rewrite count_fmap. unfold female_winners, pair_female. by rewrite list_filter_filter.
Qed.

Lemma pair_female_le_total nobel p : pair_female nobel p ≤ pair_total nobel p.
Proof.
  rewrite <- count_pair_female, <- count_pair_rows. apply count_fmap_filter.
Qed.

Lemma pair_female_no_women nobel p :
  female_winners nobel = [] → pair_female nobel p = 0.
Proof. intros E. by rewrite <- count_pair_female, E. Qed.

Lemma pair_total_pos nobel d c :
  0 < pair_total nobel (d, c) ↔
  ∃ r, r ∈ rows nobel ∧ decade r = Some d ∧ category r = Some c.
Proof.
  rewrite <- count_pair_rows, count_pos, list_elem_of_fmap.
  split.
  - intros (r & Hk & Hr). symmetry in Hk. apply pair_key_Some in Hk. eauto.
  - intros (r & Hr & Hd & Hc). exists r. split; [|done].
    symmetry. by apply pair_key_Some.
Qed.

Lemma get_prop nobel p :
  female_winners nobel ≠ [] →
  get p (prop nobel) =
    if decide (0 < pair_total nobel p)
    then Some (if decide (0 < pair_female nobel p)
               then quotient (pair_female nobel p) (pair_total nobel p)
               else 0%Q)
    else None.
Proof.
  intros Hf. unfold prop.
  rewrite decide_False by (by intros ?%length_zero_iff_nil).
  unfold female_group, total_group.
  rewrite get_share by apply count_fmap_filter.
  by rewrite count_pair_female, count_pair_rows.
Qed.

Lemma prop_keys nobel p :
  female_winners nobel ≠ [] →
  p ∈ (prop nobel).*1 ↔ 0 < pair_total nobel p.
Proof.
  intros Hf. unfold prop.
  rewrite decide_False by (by intros ?%length_zero_iff_nil).
  unfold female_group, total_group.
  rewrite share_keys by (intros; apply count_fmap_filter).
  by rewrite count_pair_rows.
Qed.

Lemma NoDup_prop nobel : NoDup (prop nobel).*1.
Proof.
  unfold prop. case_decide; [constructor|]. apply NoDup_share.
Qed.

(** Reading a frame that was filled cell by cell. *)
Lemma frame_at_tabulate {A B} `{EqDecision A, EqDecision B}
    (fi : A → option Z) (fc : B → cell) `{!Inj (=) (=) fi, !Inj (=) (=) fc}
    (g : A → B → Q) (ds : list A) (cs : list B) (d : A) (c : B) :
  frame_at (Frame (fi <$> ds) (fc <$> cs) ((fun x => (fun y => g x y) <$> cs) <$> ds))
           (fi d) (fc c) =
    if decide (d ∈ ds ∧ c ∈ cs) then Some (g d c) else None.
Proof.
  unfold frame_at. simpl.
  destruct (list_find (fun x => x = fi d) (fi <$> ds)) as [[i x]|] eqn:Hi; simpl.
  - apply list_find_Some in Hi as (Hi & -> & _).
    apply list_lookup_fmap_Some in Hi as (d' & Heq & Hd').
    apply (inj fi) in Heq as <-.
    destruct (list_find (fun x => x = fc c) (fc <$> cs)) as [[j y]|] eqn:Hj; simpl.
    + apply list_find_Some in Hj as (Hj & -> & _).
      apply list_lookup_fmap_Some in Hj as (c' & Heq & Hc').
      apply (inj fc) in Heq as <-.
      rewrite list_lookup_fmap, Hd'. simpl. rewrite list_lookup_fmap, Hc'. simpl.
      rewrite decide_True; [done|].
      split; eapply list_elem_of_lookup_2; eauto.
    + rewrite decide_False; [done|]. intros [_ Hc].
      apply list_find_None in Hj. rewrite Forall_forall in Hj.
      apply (Hj (fc c)); [|done]. by apply list_elem_of_fmap_2.
  - rewrite decide_False; [done|]. intros [Hd _].
    apply list_find_None in Hi. rewrite Forall_forall in Hi.
    apply (Hi (fi d)); [|done]. by apply list_elem_of_fmap_2.
Qed.

Lemma frame_at_zeros (ds : list (option Z)) (cs : list cell) d c :
  frame_at (zeros ds cs) d c = if decide (d ∈ ds ∧ c ∈ cs) then Some 0%Q else None.
Proof.
  pose proof (frame_at_tabulate id id (fun _ _ => 0%Q) ds cs d c) as H.
  by rewrite !list_fmap_id in H.
Qed.

Lemma frame_at_unstack (s : list (Z * value * Q)) d c :
  frame_at (unstack_fillna0 s) (Some d) (Some c) =
    if decide (d ∈ s.*1.*1 ∧ c ∈ s.*1.*2) then Some (default 0%Q (get (d, c) s)) else None.
Proof.
  unfold unstack_fillna0.
  rewrite (frame_at_tabulate Some Some (fun x y => default 0%Q (get (x, y) s))).
  apply decide_ext. by rewrite !elem_of_sort_by, !elem_of_unique.
Qed.

(** Every cell of the matrix whose row and column exist. *)
Lemma frame_at_prop_df nobel d c :
  (∃ c', 0 < pair_total nobel (d, c')) →
  (∃ d', 0 < pair_total nobel (d', c)) →
  frame_at (prop_df nobel) (Some d) (Some c) =
    Some (if decide (0 < pair_female nobel (d, c))
          then quotient (pair_female nobel (d, c)) (pair_total nobel (d, c))
          else 0%Q).
Proof.
  intros [c' Hrow] [d' Hcol]. unfold prop_df.
  destruct (decide (length (female_winners nobel) = 0)) as [Hf|Hf].
  - apply length_zero_iff_nil in Hf.
    rewrite frame_at_zeros, (pair_female_no_women _ _ Hf).
    rewrite decide_True; [done|].
    apply pair_total_pos in Hrow as (r1 & Hr1 & Hd1 & _).
    apply pair_total_pos in Hcol as (r2 & Hr2 & _ & Hc2).
    rewrite !elem_of_unique. split.
    + rewrite <- Hd1. by apply list_elem_of_fmap_2.
    + rewrite <- Hc2. by apply list_elem_of_fmap_2.
  - assert (female_winners nobel ≠ []) as Hne.
    { intros E. by rewrite E in Hf. }
    rewrite frame_at_unstack, decide_True.
    2:{ split.
        - apply list_elem_of_fmap. exists (d, c'). split; [done|]. by apply prop_keys.
        - apply list_elem_of_fmap. exists (d', c). split; [done|]. by apply prop_keys. }
    rewrite get_prop by done.
    pose proof (pair_female_le_total nobel (d, c)).
    destruct (decide (0 < pair_total nobel (d, c))); simpl; [done|].
    by rewrite decide_False by lia.
Qed.

(** C3, as the script computes it: a pair with at least one record has the
    proportion (female records) / (all records), in the matrix and, when
    there is a female winner, in the Series the maximum is taken over; a
    pair without records has no entry in that Series, but the matrix shows
    0 for it whenever its decade and its category both occur; with a
    female winner and a pair of records, the reported pair carries the
    largest proportion. *)
Theorem female_proportion (nobel : table) :
  (∀ p, 0 < pair_total nobel p →
     ∃ q, frame_at (prop_df nobel) (Some p.1) (Some p.2) = Some q ∧
          (q == quotient (pair_female nobel p) (pair_total nobel p))%Q ∧
          (0 <= q <= 1)%Q ∧
          (female_winners nobel ≠ [] → get p (prop nobel) = Some q)) ∧
  (∀ p, pair_total nobel p = 0 →
     get p (prop nobel) = None ∧
     ((∃ c', 0 < pair_total nobel (p.1, c')) →
      (∃ d', 0 < pair_total nobel (d', p.2)) →
      frame_at (prop_df nobel) (Some p.1) (Some p.2) = Some 0%Q)) ∧
  (female_winners nobel ≠ [] → (∃ p, 0 < pair_total nobel p) →
     ∃ p q, max_female_dict nobel = Ok p ∧ get p (prop nobel) = Some q ∧
            ∀ p' q', get p' (prop nobel) = Some q' → (q' <= q)%Q).
Proof.
  split_and!.
  - intros [d c] Ht. simpl.
    rewrite frame_at_prop_df by eauto.
    pose proof (pair_female_le_total nobel (d, c)) as Hle.
    destruct (decide (0 < pair_female nobel (d, c))) as [Hf|Hf].
    + eexists. split_and!; [done|reflexivity|by apply ratio_bounds..|].
      intros Hne. rewrite get_prop by done. by rewrite !decide_True by done.
    + exists 0%Q. assert (pair_female nobel (d, c) = 0) as -> by lia.
      split_and!; [done|by rewrite quotient_zero|done..|].
      intros Hne. rewrite get_prop by done. rewrite decide_True by done.
      by rewrite decide_False by lia.
  - intros [d c] Ht. simpl. split.
    + destruct (decide (female_winners nobel = [])) as [Hf|Hf].
      * unfold prop. by rewrite Hf.
      * rewrite get_prop by done. by rewrite decide_False by lia.
    + intros Hrow Hcol. rewrite frame_at_prop_df by done.
      pose proof (pair_female_le_total nobel (d, c)).
      by rewrite decide_False by lia.
  - intros Hf [p Hp]. unfold max_female_dict.
    rewrite decide_False by (by intros ?%length_zero_iff_nil).
    assert (prop nobel ≠ []) as Hne.
    { intros Hnil. pose proof (get_prop nobel p Hf) as Hget.
      rewrite Hnil, decide_True in Hget by done. done. }
    rewrite decide_False by (by intros ?%length_zero_iff_nil).
    destruct (idxmax_nonempty Qltb (prop nobel) Hne) as [p0 Hidx].
    rewrite Hidx. apply idxmax_Qltb in Hidx as (q & Hin & Hmax).
    exists p0, q. split_and!; [done|apply elem_of_get_Some; [apply NoDup_prop|done]|].
    intros p' q' Hget. eapply Hmax, get_Some_elem_of, Hget.
Qed.

(** ** Question 5 *)

Section repeat_facts.
Context {K : Type} `{EqDecision K}.

Global Instance by_count_desc_total : Total (@by_count_desc K).
Proof. intros a b. unfold by_count_desc. lia. Qed.

Global Instance by_count_desc_trans : Transitive (@by_count_desc K).
Proof. intros a b c. unfold by_count_desc. lia. Qed.

Lemma elem_of_value_counts (k : K) n (l : list (option K)) :
  (k, n) ∈ value_counts l ↔ Some k ∈ l ∧ n = count (Some k) l.
Proof.
  assert (∀ k', k' ∈ unique (omap id l) ↔ Some k' ∈ l) as Hiff.
  { intros k'. by rewrite elem_of_unique, <- !count_pos, count_omap. }
  unfold value_counts. rewrite elem_of_sort_by, list_elem_of_fmap.
  split.
  - intros (k' & [= -> ->] & Hin). rewrite count_omap. split; [|done].
    by apply Hiff.
  - intros [Hin ->]. exists k. rewrite count_omap. split; [done|].
    by apply Hiff.
Qed.

Lemma StronglySorted_value_counts (l : list (option K)) :
  StronglySorted by_count_desc (value_counts l).
Proof. apply StronglySorted_sort_by; apply _. Qed.

(** The order of [unique] is the order of first appearance. *)
Lemma unique_first_occurrence (l : list K) i j x y :
  unique l !! i = Some x → unique l !! j = Some y → i < j →
  ∃ i' j', list_find (fun z => z = x) l = Some (i', x) ∧
           list_find (fun z => z = y) l = Some (j', y) ∧ i' < j'.
Proof.
  revert i j x y. induction l as [|k l IH] using rev_ind; intros i j x y; [done|].
  rewrite unique_snoc. destruct (decide (k ∈ l)) as [Hk|Hk].
  - intros Hi Hj Hij. destruct (IH _ _ _ _ Hi Hj Hij) as (i' & j' & Hx & Hy & Hlt).
    exists i', j'. split_and!; [by apply list_find_app_l..|done].
  - intros Hi Hj Hij.
    destruct (decide (j < length (unique l))) as [Hjl|Hjl].
    + rewrite lookup_app_l in Hi, Hj by lia.
      destruct (IH _ _ _ _ Hi Hj Hij) as (i' & j' & Hx & Hy & Hlt).
      exists i', j'. split_and!; [by apply list_find_app_l..|done].
    + apply lookup_snoc_Some in Hj as [[Hj' _]|[Hj' <-]]; [lia|].
      rewrite lookup_app_l in Hi by lia.
      assert (x ∈ l) as Hx.
      { apply elem_of_unique. by eapply list_elem_of_lookup_2. }
      destruct (list_find_elem_of (fun z => z = x) l x Hx eq_refl) as [[i' x'] Hfind].
      pose proof Hfind as (Hlook & -> & _)%list_find_Some.
      exists i', (length l). split_and!.
      * by apply list_find_app_l.
      * rewrite list_find_app_r.
        2:{ apply list_find_None, Forall_forall. by intros z Hz ->. }
        simpl. by rewrite decide_True.
      * by eapply lookup_lt_Some.
Qed.
End repeat_facts.

Lemma StronglySorted_filter {A} (R : relation A) (P : A → Prop)
    `{!∀ x, Decision (P x)} (l : list A) :
  StronglySorted R l → StronglySorted R (filter P l).
Proof.
  induction 1 as [|x l Hl IH Hx]; [constructor|].
  rewrite filter_cons. case_decide; [|done].
  constructor; [done|]. rewrite Forall_forall in *.
  intros y [_ Hy]%list_elem_of_filter. auto.
Qed.

Lemma StronglySorted_fmap_strong {A B} (R : relation A) (R' : relation B)
    (f : A → B) (l : list A) :
  (∀ x y, x ∈ l → y ∈ l → R x y → R' (f x) (f y)) →
  StronglySorted R l → StronglySorted R' (f <$> l).
Proof.
  intros HR Hl. revert HR. induction Hl as [|x l Hl IH Hx]; intros HR; [constructor|].
  rewrite fmap_cons. constructor.
  - apply IH. intros y z ??. apply HR; by right.
  - apply Forall_forall. intros y' (y & -> & Hy)%list_elem_of_fmap.
    apply HR; [left|by right|]. rewrite Forall_forall in Hx. by apply Hx.
Qed.

Lemma count_full_name nobel name :
  count (Some name) (full_name <$> rows nobel) = length (wins_of nobel name).
Proof. apply count_fmap. Qed.

Lemma elem_of_repeat_counts nobel name n :
  (name, n) ∈ repeat_counts nobel ↔ 0 < n ∧ n = length (wins_of nobel name).
Proof.
  unfold repeat_counts. rewrite elem_of_value_counts, count_full_name.
  rewrite <- count_pos, count_full_name. split; intros [? ->]; split; done.
Qed.

Lemma elem_of_repeat_list nobel name :
  name ∈ repeat_list nobel ↔ 1 < length (wins_of nobel name).
Proof.
  unfold repeat_list. rewrite list_elem_of_fmap. split.
  - intros ([k n] & -> & [Hn Hin]%list_elem_of_filter). simpl in *.
    apply elem_of_repeat_counts in Hin as [_ <-]. done.
  - intros Hn. exists (name, length (wins_of nobel name)). split; [done|].
    apply list_elem_of_filter. split; [done|].
    apply elem_of_repeat_counts. split; [lia|done].
Qed.

Lemma repeat_list_sorted nobel :
  StronglySorted (fun a b => length (wins_of nobel b) ≤ length (wins_of nobel a))
                 (repeat_list nobel).
Proof.
  unfold repeat_list.
  apply StronglySorted_fmap_strong with (R := by_count_desc).
  - intros [a n] [b m] [_ Ha]%list_elem_of_filter [_ Hb]%list_elem_of_filter.
    apply elem_of_repeat_counts in Ha as [_ ->].
    apply elem_of_repeat_counts in Hb as [_ ->]. done.
  - apply StronglySorted_filter, StronglySorted_value_counts.
Qed.

Lemma years_sorted nobel name :
  Forall (fun r => is_Some (year r)) (wins_of nobel name) →
  ∃ ys, years nobel name = Some (Some <$> ys) ∧ Sorted Z.le ys ∧
        Some <$> ys ≡ₚ year <$> wins_of nobel name.
Proof.
  intros Hall. unfold years, sorted.
  destruct (mapM id (year <$> wins_of nobel name)) as [ys|] eqn:Hm.
  - exists (sort_by Z.le ys). split_and!; [done|apply Sorted_sort_by; apply _|].
    rewrite sort_by_perm. apply mapM_Some in Hm.
    assert (Some <$> ys = year <$> wins_of nobel name) as ->; [|done].
    clear Hall. induction Hm as [|x y l k Hxy _ IH]; [done|].
    rewrite !fmap_cons. simpl in Hxy. by rewrite IH, Hxy.
  - apply mapM_None in Hm. apply Exists_exists in Hm as (x & Hx & Hnone).
    apply list_elem_of_fmap in Hx as (r & -> & Hr).
    rewrite Forall_forall in Hall. destruct (Hall r Hr) as [y Hy].
    simpl in Hnone. congruence.
Qed.

(** * Facts about the normalisation *)

Lemma bind_Ok {A B} (m : result A) (f : A → result B) (b : B) :
  m ≫= f = Ok b ↔ ∃ a, m = Ok a ∧ f a = Ok b.
Proof.
  destruct m as [a|e]; simpl; split.
  - intros Hf. by exists a.
  - by intros (a' & [= ->] & Hf).
  - done.
  - by intros (a' & [=] & _).
Qed.

Lemma traverse_Ok {A B} (f : A → result B) (l : list A) (k : list B) :
  traverse f l = Ok k ↔ Forall2 (fun x y => f x = Ok y) l k.
Proof.
  revert k. induction l as [|x l IH]; intros k; simpl.
  - split; [intros [= <-]; constructor|by inversion 1].
  - split.
    + intros (y & Hy & (ys & Hys & [= <-])%bind_Ok)%bind_Ok.
      constructor; [done|]. by apply IH.
    + inversion 1 as [|? y ? ys Hy Hys]; subst.
      apply bind_Ok. exists y. split; [done|].
      apply bind_Ok. exists ys. split; [by apply IH|done].
Qed.

Lemma columns_set_col name c df : columns (set_col name c df) = <[name := c]> (columns df).
Proof. done. Qed.

Lemma nrows_set_col name c df : nrows (set_col name c df) = nrows df.
Proof. done. Qed.

Lemma has_col_true name df : has_col name df = true ↔ is_Some (columns df !! name).
Proof. unfold has_col. apply bool_decide_eq_true. Qed.

Lemma get_col_Ok name df c : get_col name df = Ok c ↔ columns df !! name = Some c.
Proof.
  unfold get_col. destruct (columns df !! name); split; intros; simplify_eq; done.
Qed.

(** ** [map_columns] *)

Lemma map_one_eq df mapped std variants :
  map_one df mapped (std, variants) = set_col std (mapped_col df variants) mapped.
Proof. unfold map_one, mapped_col. by destruct (first_variant df variants). Qed.

Lemma map_columns_eq df :
  map_columns df =
    set_col "category" (mapped_col df (aliases "category"))
      (set_col "birth_country" (mapped_col df (aliases "birth_country"))
         (set_col "sex" (mapped_col df (aliases "sex"))
            (set_col "full_name" (mapped_col df (aliases "full_name"))
               (set_col "year" (mapped_col df (aliases "year")) df)))).
Proof. unfold map_columns, col_map. cbn [foldl]. by rewrite !map_one_eq. Qed.

Lemma nrows_map_columns df : nrows (map_columns df) = nrows df.
Proof. by rewrite map_columns_eq. Qed.

Lemma map_columns_std df std :
  std ∈ essential →
  columns (map_columns df) !! std = Some (mapped_col df (aliases std)).
Proof.
  intros Hstd. rewrite map_columns_eq, !columns_set_col.
  unfold essential in Hstd.
  repeat (apply elem_of_cons in Hstd as [->|Hstd];
          [by repeat (rewrite lookup_insert_eq || rewrite lookup_insert_ne by done)|]).
  by apply elem_of_nil in Hstd.
Qed.

Lemma map_columns_other df name :
  name ∉ essential → columns (map_columns df) !! name = columns df !! name.
Proof.
  intros Hne. rewrite map_columns_eq, !columns_set_col.
  unfold essential in Hne. rewrite !not_elem_of_cons in Hne.
  destruct Hne as (? & ? & ? & ? & ? & _).
  by rewrite !lookup_insert_ne by done.
Qed.

Lemma first_variant_None df variants :
  first_variant df variants = None ↔ Forall (fun v => columns df !! v = None) variants.
Proof.
  induction variants as [|v vs IH]; simpl.
  - split; [constructor|done].
  - rewrite Forall_cons. destruct (columns df !! v).
    + split; [done|by intros [? _]].
    + rewrite IH. split; [by split|by intros [_ ?]].
Qed.

Lemma first_variant_Some df variants c :
  first_variant df variants = Some c → ∃ v, v ∈ variants ∧ columns df !! v = Some c.
Proof.
  induction variants as [|v vs IH]; simpl; [done|].
  destruct (columns df !! v) eqn:Hv.
  - intros [= <-]. exists v. split; [left|done].
  - intros (v' & ? & ?)%IH. exists v'. split; [by right|done].
Qed.

Lemma mapped_col_lacks df std :
  lacks_aliases std df → mapped_col df (aliases std) = none_col (nrows df).
Proof.
  intros Hl. unfold mapped_col. by apply first_variant_None in Hl as ->.
Qed.

Lemma col_len_mapped df variants :
  table_wf df → col_len (mapped_col df variants) = nrows df.
Proof.
  intros Hwf. unfold mapped_col.
  destruct (first_variant df variants) as [c|] eqn:Hv; simpl.
  - apply first_variant_Some in Hv as (v & _ & Hv). by eapply Hwf.
  - apply length_replicate.
Qed.

Lemma isna_all_none_col n : isna_all (none_col n) = true.
Proof.
  simpl. apply forallb_forall. intros x Hx%list_elem_of_In.
  apply elem_of_replicate in Hx as [-> _]. done.
Qed.

(** ** The normalisation steps *)

Lemma standardize_sex_mapped df :
  standardize_sex (map_columns df) =
    match mapped_col df (aliases "sex") with
    | ObjCol l =>
        Ok (set_col "sex" (ObjCol (fillna "unknown" (fmap (M:=option) PyStr.lower <$> l)))
                    (map_columns df))
    | NumCol _ => Raise AttributeError
    end.
Proof.
  assert (columns (map_columns df) !! "sex" = Some (mapped_col df (aliases "sex"))) as Hsex.
  { apply map_columns_std. essential_tac. }
  unfold standardize_sex, has_col, get_col.
  rewrite Hsex, bool_decide_eq_true_2 by eauto.
  by destruct (mapped_col df (aliases "sex")).
Qed.

Lemma combine_names_inv n1 n2 :
  combine_names n1 = Ok n2 → n2 = n1 ∨ ∃ c, n2 = set_col "full_name" c n1.
Proof.
  unfold combine_names.
  destruct (has_col "givenName" n1 && has_col "familyName" n1).
  - intros (? & _ & (? & _ & (c & _ & [= <-])%bind_Ok)%bind_Ok)%bind_Ok. eauto.
  - destruct (has_col "firstname" n1 && has_col "surname" n1).
    + intros (? & _ & (? & _ & (c & _ & [= <-])%bind_Ok)%bind_Ok)%bind_Ok. eauto.
    + intros [= <-]. by left.
Qed.

Lemma strip_names_inv n2 n3 :
  strip_names n2 = Ok n3 →
  ∃ l, columns n2 !! "full_name" = Some (ObjCol l) ∧
       n3 = set_col "full_name" (ObjCol (fmap (M:=option) PyStr.strip <$> l)) n2.
Proof.
  unfold strip_names.
  intros (c & Hc%get_col_Ok & (l & Hl & [= <-])%bind_Ok)%bind_Ok.
  destruct c as [l'|]; [|done]. simpl in Hl. simplify_eq. eauto.
Qed.

(** What [normalize] leaves in the table: the lower-cased [sex] column, a
    stripped [full_name] column, and every other column as mapped. *)
Lemma normalize_inv df nobel :
  normalize df = Ok nobel →
  nrows nobel = nrows df ∧
  (∃ l, mapped_col df (aliases "sex") = ObjCol l ∧
        columns nobel !! "sex" =
          Some (ObjCol (fillna "unknown" (fmap (M:=option) PyStr.lower <$> l)))) ∧
  (∃ names, columns nobel !! "full_name" = Some (ObjCol names)) ∧
  (∀ name, name ≠ "sex" → name ≠ "full_name" →
     columns nobel !! name = columns (map_columns df) !! name).
Proof.
  unfold normalize.
  intros (n1 & H1 & (n2 & H2 & H3)%bind_Ok)%bind_Ok.
  rewrite standardize_sex_mapped in H1.
  destruct (mapped_col df (aliases "sex")) as [l|] eqn:Hsex; [|done].
  injection H1 as <-.
  apply strip_names_inv in H3 as (names & Hnames & ->).
  apply combine_names_inv in H2 as [->|[c ->]].
  - split_and!.
    + by rewrite !nrows_set_col, nrows_map_columns.
    + exists l. split; [done|].
      rewrite !columns_set_col, lookup_insert_ne, lookup_insert_eq by done. done.
    + eexists. by rewrite columns_set_col, lookup_insert_eq.
    + intros name ??. by rewrite !columns_set_col, !lookup_insert_ne by done.
  - split_and!.
    + by rewrite !nrows_set_col, nrows_map_columns.
    + exists l. split; [done|].
      rewrite !columns_set_col, !lookup_insert_ne, lookup_insert_eq by done. done.
    + eexists. by rewrite columns_set_col, lookup_insert_eq.
    + intros name ??. by rewrite !columns_set_col, !lookup_insert_ne by done.
Qed.

Lemma check_essential_Ok nobel t :
  check_essential nobel = Ok t ↔ t = nobel ∧ missing nobel = [].
Proof.
  unfold check_essential. destruct (missing nobel); split.
  - by intros [= <-].
  - by intros [-> _].
  - done.
  - by intros [_ ?].
Qed.

Lemma elem_of_missing nobel c :
  c ∈ missing nobel ↔ c ∈ essential ∧ is_missing nobel c = true.
Proof.
  unfold missing. rewrite !list_elem_of_In, filter_In. done.
Qed.

Lemma missing_nil nobel c :
  missing nobel = [] → c ∈ essential → is_missing nobel c = false.
Proof.
  intros Hm Hc. destruct (is_missing nobel c) eqn:E; [|done].
  assert (c ∈ missing nobel) as Hin by (by apply elem_of_missing).
  rewrite Hm in Hin. by apply elem_of_nil in Hin.
Qed.

(** What [load] returns: the normalised table with a [decade] column and
    the defaulted [birth_country] column. *)
Lemma load_inv df t :
  load df = Ok t →
  ∃ nobel ys bc,
    normalize df = Ok nobel ∧ missing nobel = [] ∧
    columns nobel !! "year" = Some (NumCol ys) ∧
    columns nobel !! "birth_country" = Some bc ∧
    t = set_col "birth_country"
          (ObjCol (Some <$> (str_of_value (is_float bc) <$> fillna_str "Unknown" bc)))
          (set_col "decade"
             (NumCol (fmap (M:=option) (decade_in (is_float (NumCol ys))) <$> ys)) nobel).
Proof.
  unfold load.
  intros (nobel & Hn & (n' & [-> Hm]%check_essential_Ok & Hp)%bind_Ok)%bind_Ok.
  unfold preprocess, add_decade, default_country in Hp.
  apply bind_Ok in Hp as (n1 & (c & Hc%get_col_Ok & Hd)%bind_Ok & Hb).
  destruct c as [|ys]; [done|]. injection Hd as <-.
  apply bind_Ok in Hb as (bc & Hbc%get_col_Ok & [= <-]).
  rewrite columns_set_col, lookup_insert_ne in Hbc by done.
  by exists nobel, ys, bc.
Qed.

(** ** Rows of a loaded table *)

Lemma num_at_NumCol df name l i :
  columns df !! name = Some (NumCol l) → num_at df name i = mjoin (l !! i).
Proof.
  intros H. unfold num_at, cell_at. rewrite H. simpl.
  rewrite list_lookup_fmap. by destruct (l !! i) as [[|]|].
Qed.

Lemma str_at_ObjCol df name l i :
  columns df !! name = Some (ObjCol l) → str_at df name i = mjoin (l !! i).
Proof.
  intros H. unfold str_at, cell_at. rewrite H. simpl.
  rewrite list_lookup_fmap. by destruct (l !! i) as [[|]|].
Qed.

Lemma elem_of_rows t r : r ∈ rows t ↔ ∃ i, i < nrows t ∧ r = row t i.
Proof.
  unfold rows. rewrite list_elem_of_fmap. split.
  - intros (i & -> & Hi%elem_of_seq). exists i. split; [lia|done].
  - intros (i & Hi & ->). exists i. split; [done|]. apply elem_of_seq. lia.
Qed.

Lemma rows_nonempty t : 0 < nrows t → rows t ≠ [].
Proof.
  intros Hn E. assert (row t 0 ∈ rows t) as Hin by (apply elem_of_rows; eauto).
  rewrite E in Hin. by apply elem_of_nil in Hin.
Qed.

Lemma Qfloor_decade (y : Z) :
  decade_of y = (Qfloor (inject_Z y / inject_Z 10) * 10)%Z.
Proof.
  unfold decade_of, Qdiv, Qmult, Qinv, inject_Z, Qfloor. simpl.
  by rewrite Z.mul_1_r.
Qed.

(** *** The arithmetic of line 74 *)

Lemma wrap64_id (z : Z) : (- 2 ^ 63 ≤ z < 2 ^ 63)%Z → wrap64 z = z.
Proof. intros Hz. unfold wrap64. rewrite Z.mod_small by lia. lia. Qed.

Lemma decade_int64_exact (y : Z) :
  (- 2 ^ 63 + 10 ≤ y < 2 ^ 63)%Z → decade_int64 y = (y / 10 * 10)%Z.
Proof.
  intros Hy. unfold decade_int64. apply wrap64_id.
  pose proof (Z.div_mod y 10 ltac:(lia)).
  pose proof (Z.mod_pos_bound y 10 ltac:(lia)). lia.
Qed.

Lemma Qred_inject_Z (q : Q) (z : Z) : (q == inject_Z z)%Q → Qred q = inject_Z z.
Proof.
  intros Hq. rewrite (Qred_complete _ _ Hq).
  apply Qcanon.Qred_identity. simpl. apply Z.gcd_1_r.
Qed.

Lemma round_even_inject_Z (q : Q) (z : Z) : (q == inject_Z z)%Q → round_even q = z.
Proof.
  intros Hq. unfold round_even.
  assert (Qfloor q = z) as -> by (rewrite (Qfloor_comp _ _ Hq); apply Qfloor_Z).
  assert ((q - inject_Z z ?= 1 # 2)%Q = Lt) as ->; [|done].
  rewrite <- Qlt_alt. rewrite Hq. unfold Qminus. by rewrite Qplus_opp_r.
Qed.

Lemma ilog2_inject_Z (z : Z) : z ≠ 0%Z → ilog2 (inject_Z z) = Z.log2 (Z.abs z).
Proof.
  intros Hz.
  change (ilog2 (inject_Z z))
    with (let e := (Z.log2 (Z.abs z) - 0)%Z in
          if Qle_bool (pow2 e) (Qabs (inject_Z z)) then e else (e - 1)%Z).
  cbv zeta. rewrite Z.sub_0_r.
  pose proof (Z.log2_nonneg (Z.abs z)) as Hnn.
  pose proof (Z.log2_spec (Z.abs z) ltac:(lia)) as [Hle _].
  assert (Qle_bool (pow2 (Z.log2 (Z.abs z))) (Qabs (inject_Z z)) = true) as ->; [|done].
  apply Qle_bool_iff. unfold pow2.
  destruct (Z.leb_spec 0 (Z.log2 (Z.abs z))) as [_|]; [|lia].
  change (Qabs (inject_Z z)) with (inject_Z (Z.abs z)). by rewrite <- Zle_Qle.
Qed.

Lemma pow2_nonpos (k : Z) : (0 ≤ k)%Z → (pow2 (- k) == / inject_Z (2 ^ k))%Q.
Proof.
  intros Hk. unfold pow2. destruct (Z.leb_spec 0 (- k)) as [H0|_].
  - assert (k = 0%Z) as -> by lia. reflexivity.
  - by rewrite Z.opp_involutive.
Qed.

(** An integer of fewer than 54 bits is a float. *)
Lemma RN_exact (q : Q) (z : Z) :
  (q == inject_Z z)%Q → (Z.abs z < 2 ^ 53)%Z → RN q = inject_Z z.
Proof.
  intros Hq Hz. unfold RN. rewrite (Qred_inject_Z q z Hq).
  destruct (Qeq_bool (inject_Z z) 0) eqn:Hzero.
  - apply Qeq_bool_eq in Hzero. change 0%Q with (inject_Z 0) in Hzero.
    apply (proj1 (inject_Z_injective z 0)) in Hzero. by rewrite Hzero.
  - assert (z ≠ 0%Z) as Hnz by (by intros ->).
    rewrite (ilog2_inject_Z z Hnz).
    pose proof (Z.log2_nonneg (Z.abs z)) as Hnn.
    assert (Z.log2 (Z.abs z) < 53)%Z as Hlog by (apply Z.log2_lt_pow2; lia).
    set (k := (52 - Z.log2 (Z.abs z))%Z).
    replace (Z.log2 (Z.abs z) - 52)%Z with (- k)%Z by lia.
    assert (0 ≤ k)%Z as Hk by lia.
    assert (0 < 2 ^ k)%Z as Hpos by (by apply Z.pow_pos_nonneg).
    assert (¬ (inject_Z (2 ^ k) == 0)%Q) as Hne.
    { change 0%Q with (inject_Z 0). rewrite inject_Z_injective. lia. }
    rewrite (round_even_inject_Z _ (z * 2 ^ k)).
    + apply Qred_inject_Z. rewrite (pow2_nonpos k Hk), inject_Z_mult. by field.
    + rewrite (pow2_nonpos k Hk), inject_Z_mult. by field.
Qed.

Lemma decade_float64_exact (y : Z) :
  (Z.abs y ≤ 2 ^ 52)%Z → decade_float64 y = (y / 10 * 10)%Z.
Proof.
  intros Hy. unfold decade_float64. cbv zeta.
  pose proof (Z.div_mod y 10 ltac:(lia)) as Hdm.
  pose proof (Z.mod_pos_bound y 10 ltac:(lia)) as Hmb.
  pose proof (Z.rem_bound_abs y 10 ltac:(lia)) as Hrb.
  pose proof (Z.quot_rem y 10 ltac:(lia)) as Hqr.
  rewrite (RN_exact (inject_Z y) y) by (reflexivity || lia).
  rewrite Qfloor_Z.
  assert (∃ t, (y - Z.rem y 10 = 10 * t)%Z ∧
               (if (Z.rem y 10 <? 0)%Z then t - 1 else t)%Z = (y / 10)%Z ∧
               (Z.abs t ≤ 2 ^ 52)%Z) as (t & Ht & Hfl & Hbt).
  { exists (y ÷ 10)%Z. split; [lia|]. split.
    - destruct (Z.ltb_spec (Z.rem y 10) 0) as [Hneg|Hpos].
      + pose proof (Z.rem_sign_nz y 10 ltac:(lia) ltac:(lia)). nia.
      + destruct (decide (Z.rem y 10 = 0%Z)); [nia|].
        pose proof (Z.rem_sign_nz y 10 ltac:(lia) ltac:(lia)). nia.
    - lia. }
  rewrite (RN_exact (inject_Z y - inject_Z (Z.rem y 10)) (10 * t)).
  2:{ rewrite <- Ht. unfold Z.sub. by rewrite inject_Z_plus, inject_Z_opp. }
  2:{ lia. }
  rewrite (RN_exact (inject_Z (10 * t) / inject_Z 10) t).
  2:{ rewrite inject_Z_mult. by field. }
  2:{ lia. }
  assert ((if (Z.rem y 10 <? 0)%Z then RN (inject_Z t - inject_Z 1) else inject_Z t)
          = inject_Z (y / 10)) as ->.
  { rewrite <- Hfl. destruct (Z.rem y 10 <? 0)%Z; [|done].
    apply RN_exact; [unfold Z.sub; by rewrite inject_Z_plus, inject_Z_opp|lia]. }
  assert (Z.abs (y / 10) ≤ 2 ^ 52)%Z as Hbd by lia.
  assert ((if Qeq_bool (inject_Z (y / 10)) 0 then 0%Q
           else if Qlt_le_dec (1 # 2)
                     (inject_Z (y / 10) - inject_Z (Qfloor (inject_Z (y / 10))))
                then RN (inject_Z (Qfloor (inject_Z (y / 10))) + inject_Z 1)
                else inject_Z (Qfloor (inject_Z (y / 10)))) = inject_Z (y / 10)) as ->.
  { destruct (Qeq_bool (inject_Z (y / 10)) 0) eqn:Hzero.
    - apply Qeq_bool_eq in Hzero. change 0%Q with (inject_Z 0) in Hzero.
      apply (proj1 (inject_Z_injective _ 0)) in Hzero. by rewrite Hzero.
    - rewrite Qfloor_Z.
      destruct (Qlt_le_dec (1 # 2) (inject_Z (y / 10) - inject_Z (y / 10))) as [Hlt|_];
        [|done].
      exfalso. unfold Qminus in Hlt. rewrite Qplus_opp_r in Hlt.
      revert Hlt. unfold Qlt. simpl. lia. }
  rewrite (RN_exact _ (y / 10 * 10)).
  - apply Qfloor_Z.
  - by rewrite inject_Z_mult.
  - lia.
Qed.

Lemma decade_in_exact (float : bool) (y : Z) :
  (Z.abs y ≤ 2 ^ 52)%Z → decade_in float y = decade_of y.
Proof.
  intros Hy. unfold decade_in, decade_of. destruct float.
  - by apply decade_float64_exact.
  - apply decade_int64_exact. lia.
Qed.

Lemma load_decade df t :
  load df = Ok t →
  ∃ float, ∀ i, num_at t "decade" i = decade_in float <$> num_at t "year" i.
Proof.
  intros (nobel & ys & bc & _ & _ & Hys & _ & ->)%load_inv.
  exists (is_float (NumCol ys)). intros i.
  rewrite (num_at_NumCol _ "decade"
             (fmap (M:=option) (decade_in (is_float (NumCol ys))) <$> ys)).
  2:{ by rewrite !columns_set_col, lookup_insert_ne, lookup_insert_eq by done. }
  rewrite (num_at_NumCol _ "year" ys).
  2:{ by rewrite !columns_set_col, !lookup_insert_ne by done. }
  rewrite list_lookup_fmap. by destruct (ys !! i) as [[|]|].
Qed.

(** C9, as the script does it: the decade of a record of a loaded table
    is the floor of a tenth of its year, times ten (1905 gives 1900, 1999
    gives 1990), when the year is at most 2^52 in magnitude, where the
    arithmetic of the column is exact; a record without a year has no
    decade. *)
Theorem decade_derivation :
  (∀ y, decade_of y = (Qfloor (inject_Z y / inject_Z 10) * 10)%Z) ∧
  decade_of 1905 = 1900%Z ∧ decade_of 1999 = 1990%Z ∧
  (∀ y, (decade_of y ≤ y < decade_of y + 10)%Z ∧ (decade_of y mod 10 = 0)%Z) ∧
  (∀ df t r, load df = Ok t → r ∈ rows t →
     (year r = None → decade r = None) ∧
     (∀ y, year r = Some y → (Z.abs y ≤ 2 ^ 52)%Z → decade r = Some (decade_of y))).
Proof.
  split_and!; [apply Qfloor_decade|done|done|..].
  - intros y. unfold decade_of. split; [|by apply Z_mod_mult].
    pose proof (Z.div_mod y 10 ltac:(done)).
    pose proof (Z.mod_pos_bound y 10 ltac:(done)). lia.
  - intros df t r Hload (i & _ & ->)%elem_of_rows.
    destruct (load_decade df t Hload) as [float Hd]. simpl. rewrite (Hd i).
    split.
    + by intros ->.
    + intros y -> Hy. simpl. f_equal. by apply decade_in_exact.
Qed.

(** ** Lower case *)

Lemma lower_char_idemp c : PyStr.lower_char (PyStr.lower_char c) = PyStr.lower_char c.
Proof. by destruct c as [[] [] [] [] [] [] [] []]. Qed.

Lemma lower_char_not_upper c : PyStr.is_upper (PyStr.lower_char c) = false.
Proof. by destruct c as [[] [] [] [] [] [] [] []]. Qed.

Lemma lower_idemp s : PyStr.lower (PyStr.lower s) = PyStr.lower s.
Proof. induction s as [|c s IH]; simpl; [done|]. by rewrite lower_char_idemp, IH. Qed.

Lemma lower_no_upper s :
  Forall (fun c => PyStr.is_upper c = false) (list_ascii_of_string (PyStr.lower s)).
Proof.
  induction s as [|c s IH]; simpl; constructor; [apply lower_char_not_upper|done].
Qed.

(** ** The [sex] and [birth_country] columns of a loaded table *)

Lemma lookup_fillna {A} (d : A) (l : list (option A)) i :
  fillna d l !! i = (fun x => Some (default d x)) <$> l !! i.
Proof. unfold fillna. apply list_lookup_fmap. Qed.

Lemma length_fillna_str d c : length (fillna_str d c) = col_len c.
Proof. destruct c; simpl; by rewrite length_fmap. Qed.

Lemma length_col_cells c : length (col_cells c) = col_len c.
Proof. destruct c; simpl; by rewrite length_fmap. Qed.

Lemma fillna_str_lookup d c i :
  fillna_str d c !! i = from_option id (Str d) <$> col_cells c !! i.
Proof.
  destruct c as [l|l]; simpl; rewrite !list_lookup_fmap;
    by destruct (l !! i) as [[|]|].
Qed.

Lemma load_sex df t i :
  table_wf df → load df = Ok t → i < nrows t →
  ∃ x, col_cells (mapped_col df (aliases "sex")) !! i = Some (Str <$> x) ∧
       sex (row t i) = Some (default "unknown" (PyStr.lower <$> x)).
Proof.
  intros Hwf (nobel & ys & bc & Hn & _ & _ & _ & ->)%load_inv Hi.
  apply normalize_inv in Hn as (Hrows & (l & Hl & Hsex) & _ & _).
  rewrite !nrows_set_col, Hrows in Hi.
  pose proof (col_len_mapped df (aliases "sex") Hwf) as Hlen.
  rewrite Hl in Hlen |- *. simpl in Hlen |- *.
  destruct (lookup_lt_is_Some_2 l i) as [x Hx]; [lia|].
  exists x. rewrite list_lookup_fmap, Hx. split; [done|].
  rewrite (str_at_ObjCol _ "sex"
             (fillna "unknown" (fmap (M:=option) PyStr.lower <$> l))).
  2:{ by rewrite !columns_set_col, !lookup_insert_ne by done. }
  by rewrite lookup_fillna, list_lookup_fmap, Hx.
Qed.

Lemma load_birth_country df t i :
  table_wf df → load df = Ok t → i < nrows t →
  ∃ s, birth_country (row t i) = Some s ∧
       (cell_at (map_columns df) "birth_country" i = None → s = "Unknown").
Proof.
  intros Hwf (nobel & ys & bc & Hn & _ & _ & Hbc & ->)%load_inv Hi.
  apply normalize_inv in Hn as (Hrows & _ & _ & Hother).
  rewrite !nrows_set_col, Hrows in Hi.
  rewrite Hother in Hbc by done.
  assert (columns (map_columns df) !! "birth_country"
          = Some (mapped_col df (aliases "birth_country"))) as Hm.
  { apply map_columns_std. essential_tac. }
  rewrite Hm in Hbc. injection Hbc as <-.
  pose proof (col_len_mapped df (aliases "birth_country") Hwf) as Hlen.
  set (bc := mapped_col df (aliases "birth_country")) in *.
  destruct (lookup_lt_is_Some_2 (col_cells bc) i) as [x Hx].
  { rewrite length_col_cells. lia. }
  simpl.
  rewrite (str_at_ObjCol _ "birth_country"
             (Some <$> (str_of_value (is_float bc) <$> fillna_str "Unknown" bc))).
  2:{ by rewrite !columns_set_col, lookup_insert_eq. }
  rewrite !list_lookup_fmap, fillna_str_lookup, Hx. simpl.
  eexists. split; [done|].
  unfold cell_at. rewrite Hm, Hx. simpl. by intros ->.
Qed.

(** The run adds the bar chart to the queries. *)
Lemma run_no_chart nobel :
  plot_usa_ratio nobel = Ok () → run nobel = aggregate nobel.
Proof.
  intros Hplot. unfold run, aggregate. rewrite Hplot.
  destruct (top_gender nobel); simpl; [|done].
  destruct (top_country nobel); simpl; [|done].
  by destruct (max_decade_usa nobel).
Qed.

Lemma run_aggregate nobel a : run nobel = Ok a → aggregate nobel = Ok a.
Proof.
  intros Hrun. destruct (plot_usa_ratio nobel) as [[]|e] eqn:Hplot.
  - by rewrite <- (run_no_chart nobel Hplot).
  - exfalso. revert Hrun. unfold run. rewrite Hplot.
    destruct (top_gender nobel); simpl; [|done].
    destruct (top_country nobel); simpl; [|done].
    by destruct (max_decade_usa nobel).
Qed.

(** C8: in a loaded table every record has a non-null [sex] in lower case,
    that is, without a capital letter and unchanged by [lower]
    (["unknown"] where the source is null, the lower-cased source
    otherwise) and a non-null string [birth_country] (["Unknown"] where the
    source is null); the queries only read the table, so the table a
    completed run ends with is the loaded one. *)
Theorem sex_and_country_normalized (df t : table) :
  table_wf df → load df = Ok t →
  (∀ i, i < nrows t →
     (∃ s, sex (row t i) = Some s ∧ PyStr.lower s = s ∧
           Forall (fun c => PyStr.is_upper c = false) (list_ascii_of_string s) ∧
           (cell_at (map_columns df) "sex" i = None → s = "unknown") ∧
           (∀ x, cell_at (map_columns df) "sex" i = Some (Str x) → s = PyStr.lower x)) ∧
     (∃ s, birth_country (row t i) = Some s ∧
           (cell_at (map_columns df) "birth_country" i = None → s = "Unknown"))) ∧
  (∀ t' a, analysis df = Ok (t', a) → t' = t ∧ aggregate t = Ok a).
Proof.
  intros Hwf Hload. split.
  - intros i Hi. split; [|by apply load_birth_country].
    destruct (load_sex df t i Hwf Hload Hi) as (x & Hx & Hsex).
    eexists. split; [done|].
    assert (cell_at (map_columns df) "sex" i = Str <$> x) as Hcell.
    { unfold cell_at. rewrite map_columns_std by essential_tac.
      by rewrite Hx. }
    rewrite Hcell. destruct x as [x|]; simpl.
    + split_and!; [apply lower_idemp|apply lower_no_upper|done|by intros ? [= ->]].
    + split_and!; [done|by repeat constructor|done|done].
  - intros t' a. unfold analysis. rewrite Hload. simpl.
    destruct (run t) as [a'|] eqn:Hrun; simpl; [|done].
    intros [= <- <-]. split; [done|]. by apply run_aggregate.
Qed.

(** ** Stripping *)

Lemma rev_app_list s1 s2 :
  list_ascii_of_string (String.rev_app s1 s2)
  = reverse (list_ascii_of_string s1) ++ list_ascii_of_string s2.
Proof.
  revert s2. induction s1 as [|c s1 IH]; intros s2; simpl; [done|].
  rewrite IH, reverse_cons, <- app_assoc. done.
Qed.

Lemma rev_list s : list_ascii_of_string (String.rev s) = reverse (list_ascii_of_string s).
Proof. unfold String.rev. rewrite rev_app_list. simpl. by rewrite app_nil_r. Qed.

Lemma lstrip_head s c s' : PyStr.lstrip s = String c s' → PyStr.is_space c = false.
Proof.
  induction s as [|x s IH]; simpl; [done|].
  destruct (PyStr.is_space x) eqn:Hx; [done|]. by intros [= <- _].
Qed.

(** What [lstrip] leaves is a suffix of its argument. *)
Lemma lstrip_suffix s :
  ∃ k, list_ascii_of_string s = k ++ list_ascii_of_string (PyStr.lstrip s).
Proof.
  induction s as [|x s [k IH]]; simpl; [by exists []|].
  destruct (PyStr.is_space x); [|by exists []].
  exists (x :: k). simpl. by rewrite <- IH.
Qed.

Lemma strip_is_stripped s : is_stripped (PyStr.strip s).
Proof.
  unfold is_stripped, PyStr.strip, PyStr.rstrip.
  remember (PyStr.lstrip s) as t eqn:Ht.
  remember (PyStr.lstrip (String.rev t)) as u eqn:Hu.
  split.
  - intros c s' Hrev.
    destruct (lstrip_suffix (String.rev t)) as [k Hk]. rewrite <- Hu in Hk.
    rewrite rev_list in Hk.
    apply (f_equal list_ascii_of_string) in Hrev. rewrite rev_list in Hrev. simpl in Hrev.
    apply (f_equal reverse) in Hk. rewrite reverse_involutive, reverse_app, Hrev in Hk.
    simpl in Hk. destruct t as [|x t']; simpl in Hk; [done|].
    injection Hk as Hx _. subst x. by apply (lstrip_head s c t').
  - intros c s' Hrev.
    apply (f_equal list_ascii_of_string) in Hrev.
    rewrite rev_list, rev_list, reverse_involutive in Hrev.
    apply (lstrip_head (String.rev t) c s'). rewrite <- Hu.
    rewrite <- (string_of_list_ascii_of_string u), Hrev. simpl.
    by rewrite string_of_list_ascii_of_string.
Qed.

(** ** Names *)

Lemma string_app_assoc (a b c : string) : (a +:+ b) +:+ c = a +:+ b +:+ c.
Proof.
  induction a as [|x a IH]; [done|].
  change (String x ((a +:+ b) +:+ c) = String x (a +:+ b +:+ c)). by rewrite IH.
Qed.

Lemma name_half_col df name c i :
  columns df !! name = Some c →
  name_half df name i =
    match col_cells c !! i with Some (Some (Str s)) => s | _ => "" end.
Proof.
  intros H. unfold name_half, cell_at. rewrite H.
  by destruct (col_cells c !! i) as [[[|]|]|].
Qed.

(** A joined name is the first half, a space and the second half, with a
    null half read as the empty string. *)
Lemma join_names_lookup ca cb c i :
  join_names ca cb = Ok c → i < col_len ca → i < col_len cb →
  ∃ names, c = ObjCol names ∧
    names !! i =
      Some (Some (match col_cells ca !! i with Some (Some (Str s)) => s | _ => "" end
                  +:+ " " +:+
                  match col_cells cb !! i with Some (Some (Str s)) => s | _ => "" end)).
Proof.
  unfold join_names.
  intros (left & Hl%traverse_Ok & (both & Hb%traverse_Ok
            & (names & Hn%traverse_Ok & [= <-])%bind_Ok)%bind_Ok)%bind_Ok Hia Hib.
  eexists. split; [done|].
  destruct (lookup_lt_is_Some_2 (fillna_str "" ca) i) as [va Hva].
  { by rewrite length_fillna_str. }
  destruct (lookup_lt_is_Some_2 (fillna_str "" cb) i) as [vb Hvb].
  { by rewrite length_fillna_str. }
  destruct (Forall2_lookup_l _ _ _ _ _ Hl Hva) as (y & Hy & Hadd).
  assert (zip left (fillna_str "" cb) !! i = Some (y, vb)) as Hz.
  { by apply lookup_zip_Some. }
  destruct (Forall2_lookup_l _ _ _ _ _ Hb Hz) as (z & Hz' & Hadd').
  destruct (Forall2_lookup_l _ _ _ _ _ Hn Hz') as (s & Hs & Hstr).
  rewrite list_lookup_fmap, Hs. simpl. do 2 f_equal.
  rewrite fillna_str_lookup in Hva, Hvb.
  destruct va as [a|]; [|done]. simpl in Hadd. injection Hadd as <-.
  destruct vb as [b|]; [|done]. simpl in Hadd'. injection Hadd' as <-.
  simpl in Hstr. injection Hstr as <-.
  rewrite string_app_assoc.
  destruct (col_cells ca !! i) as [[[|]|]|]; simplify_eq/=;
    destruct (col_cells cb !! i) as [[[|]|]|]; simplify_eq/=; done.
Qed.

Lemma has_col_normalizing df l name :
  name ∉ essential →
  has_col name (set_col "sex" l (map_columns df)) = has_col name df.
Proof.
  intros Hne. unfold has_col.
  rewrite columns_set_col, lookup_insert_ne.
  2:{ intros <-. apply Hne. essential_tac. }
  by rewrite map_columns_other.
Qed.

Lemma get_col_normalizing df l name c :
  name ∉ essential →
  get_col name (set_col "sex" l (map_columns df)) = Ok c → columns df !! name = Some c.
Proof.
  intros Hne Hc%get_col_Ok.
  rewrite columns_set_col, lookup_insert_ne in Hc.
  2:{ intros <-. apply Hne. essential_tac. }
  by rewrite map_columns_other in Hc.
Qed.

(** The [full_name] column [normalize] leaves. *)
Lemma normalize_full_name df nobel :
  normalize df = Ok nobel →
  match name_source df with
  | Some (a, b) =>
      ∃ ca cb names, columns df !! a = Some ca ∧ columns df !! b = Some cb ∧
        join_names ca cb = Ok (ObjCol names) ∧
        columns nobel !! "full_name" =
          Some (ObjCol (fmap (M:=option) PyStr.strip <$> names))
  | None =>
      ∃ l, mapped_col df (aliases "full_name") = ObjCol l ∧
        columns nobel !! "full_name" = Some (ObjCol (fmap (M:=option) PyStr.strip <$> l))
  end.
Proof.
  unfold normalize.
  intros (n1 & H1 & (n2 & H2 & H3)%bind_Ok)%bind_Ok.
  rewrite standardize_sex_mapped in H1.
  destruct (mapped_col df (aliases "sex")) as [l|] eqn:Hsex; [|done].
  injection H1 as <-.
  apply strip_names_inv in H3 as (names & Hnames & ->).
  unfold combine_names in H2. unfold name_source.
  rewrite !has_col_normalizing in H2 by essential_tac.
  destruct (has_col "givenName" df && has_col "familyName" df).
  - apply bind_Ok in H2 as (ca & Ha & (cb & Hb & (c & Hc & [= <-])%bind_Ok)%bind_Ok).
    apply get_col_normalizing in Ha, Hb; [|essential_tac..].
    rewrite columns_set_col, lookup_insert_eq in Hnames. injection Hnames as ->.
    exists ca, cb, names. split_and!; [done..|].
    by rewrite columns_set_col, lookup_insert_eq.
  - destruct (has_col "firstname" df && has_col "surname" df).
    + apply bind_Ok in H2 as (ca & Ha & (cb & Hb & (c & Hc & [= <-])%bind_Ok)%bind_Ok).
      apply get_col_normalizing in Ha, Hb; [|essential_tac..].
      rewrite columns_set_col, lookup_insert_eq in Hnames. injection Hnames as ->.
      exists ca, cb, names. split_and!; [done..|].
      by rewrite columns_set_col, lookup_insert_eq.
    + injection H2 as <-.
      rewrite columns_set_col, lookup_insert_ne in Hnames by done.
      rewrite map_columns_std in Hnames by essential_tac.
      injection Hnames as Hnames.
      exists names. split; [done|]. by rewrite columns_set_col, lookup_insert_eq.
Qed.

(** C4, as the script does it: when a pair of first and last name columns
    exists ([givenName] and [familyName], else [firstname] and [surname]),
    [full_name] is the two halves joined by one space, a null half read as
    the empty string, then stripped, whether or not [full_name] had been
    mapped directly; without such a pair it is the mapped [full_name],
    stripped.  Either way the name neither starts nor ends with white
    space. *)
Theorem full_name_synthesis (df nobel : table) (i : nat) :
  table_wf df → normalize df = Ok nobel → i < nrows df →
  str_at nobel "full_name" i =
    match name_source df with
    | Some (a, b) => Some (PyStr.strip (name_half df a i +:+ " " +:+ name_half df b i))
    | None => PyStr.strip <$> str_at (map_columns df) "full_name" i
    end ∧
  ∀ s, str_at nobel "full_name" i = Some s → is_stripped s.
Proof.
  intros Hwf Hn Hi. apply normalize_full_name in Hn.
  assert (str_at nobel "full_name" i =
    match name_source df with
    | Some (a, b) => Some (PyStr.strip (name_half df a i +:+ " " +:+ name_half df b i))
    | None => PyStr.strip <$> str_at (map_columns df) "full_name" i
    end) as Heq.
  { destruct (name_source df) as [[a b]|].
    - destruct Hn as (ca & cb & names & Ha & Hb & Hjoin & Hfull).
      rewrite (str_at_ObjCol _ _ _ _ Hfull).
      destruct (join_names_lookup ca cb _ i Hjoin) as (names' & [= <-] & Hlook).
      { by rewrite (Hwf _ _ Ha). }
      { by rewrite (Hwf _ _ Hb). }
      rewrite list_lookup_fmap, Hlook. simpl.
      by rewrite (name_half_col _ _ _ _ Ha), (name_half_col _ _ _ _ Hb).
    - destruct Hn as (l & Hl & Hfull).
      rewrite (str_at_ObjCol _ _ _ _ Hfull).
      rewrite (str_at_ObjCol (map_columns df) "full_name" l).
      2:{ rewrite map_columns_std by essential_tac. by rewrite Hl. }
      rewrite list_lookup_fmap. by destruct (l !! i) as [[|]|]. }
  split; [done|]. rewrite Heq. intros s.
  destruct (name_source df) as [[a b]|].
  - intros [= <-]. apply strip_is_stripped.
  - destruct (str_at (map_columns df) "full_name" i); simpl; [|done].
    intros [= <-]. apply strip_is_stripped.
Qed.

(** ** The check of the essential columns *)

Lemma isna_all_false_len c : isna_all c = false → 0 < col_len c.
Proof. destruct c as [[|]|[|]]; simpl; (done || lia). Qed.

Lemma isna_all_replicate_Some n (s : string) :
  0 < n → isna_all (ObjCol (replicate n (Some s))) = false.
Proof. destruct n; [lia|done]. Qed.

Lemma normalize_sex_lacking df nobel :
  lacks_aliases "sex" df → normalize df = Ok nobel →
  columns nobel !! "sex" = Some (ObjCol (replicate (nrows df) (Some "unknown"))).
Proof.
  intros Hl (_ & (l & Hsex & ->) & _)%normalize_inv.
  rewrite (mapped_col_lacks _ _ Hl) in Hsex. injection Hsex as <-.
  unfold fillna. by rewrite !fmap_replicate.
Qed.

Lemma normalize_essential_col df nobel c :
  normalize df = Ok nobel → c ∈ essential → is_Some (columns nobel !! c).
Proof.
  intros (_ & (l & _ & Hsex) & (names & Hnames) & Hother)%normalize_inv Hc.
  destruct (decide (c = "sex")) as [->|?]; [by rewrite Hsex|].
  destruct (decide (c = "full_name")) as [->|?]; [by rewrite Hnames|].
  rewrite Hother, map_columns_std by done. eauto.
Qed.

Lemma normalize_plain_col df nobel c :
  normalize df = Ok nobel → c ∈ ["year"; "birth_country"; "category"] →
  columns nobel !! c = Some (mapped_col df (aliases c)).
Proof.
  intros (_ & _ & _ & Hother)%normalize_inv Hc.
  repeat (apply elem_of_cons in Hc as [->|Hc];
          [rewrite Hother by done; apply map_columns_std; essential_tac|]).
  by apply elem_of_nil in Hc.
Qed.

Lemma preprocess_total df nobel :
  normalize df = Ok nobel → is_numeric (mapped_col df (aliases "year")) →
  ∃ t, preprocess nobel = Ok t.
Proof.
  intros Hn Hnum. unfold preprocess, add_decade, get_col.
  rewrite (normalize_plain_col df nobel "year" Hn) by repeat constructor. simpl.
  destruct (mapped_col df (aliases "year")) as [l|l]; [by destruct Hnum|]. simpl.
  unfold default_country, get_col.
  rewrite columns_set_col, lookup_insert_ne by done.
  rewrite (normalize_plain_col df nobel "birth_country" Hn) by repeat constructor.
  simpl. by eexists.
Qed.

(** C10, as the script does it: when the input has no alias of [sex], the
    column [map_columns] makes up is filled with ["unknown"] before the
    check runs: that step does not raise, the check does not list [sex]
    for a table with at least one row and passes when the other four
    columns are not missing, and every record of the loaded table has the
    sex ["unknown"].  The table is loaded, that is, nothing up to line 75
    raises, when in addition the normalisation of the names does not raise
    and the column mapped to [year] is numeric. *)
Theorem missing_sex_is_unknown (df : table) :
  table_wf df → lacks_aliases "sex" df →
  (∃ n1, standardize_sex (map_columns df) = Ok n1 ∧
         columns n1 !! "sex" = Some (ObjCol (replicate (nrows df) (Some "unknown")))) ∧
  (∀ nobel, normalize df = Ok nobel →
     columns nobel !! "sex" = Some (ObjCol (replicate (nrows df) (Some "unknown"))) ∧
     (0 < nrows df → "sex" ∉ missing nobel) ∧
     ((∀ c, c ∈ ["year"; "full_name"; "birth_country"; "category"] →
            is_missing nobel c = false) →
      check_essential nobel = Ok nobel)) ∧
  (∀ t, load df = Ok t → ∀ r, r ∈ rows t → sex r = Some "unknown") ∧
  (∀ nobel, normalize df = Ok nobel →
     (∀ c, c ∈ ["year"; "full_name"; "birth_country"; "category"] →
           is_missing nobel c = false) →
     is_numeric (mapped_col df (aliases "year")) →
     ∃ t, load df = Ok t).
Proof.
  intros Hwf Hl.
  assert (∀ nobel, normalize df = Ok nobel →
            (∀ c, c ∈ ["year"; "full_name"; "birth_country"; "category"] →
                  is_missing nobel c = false) →
            check_essential nobel = Ok nobel) as Hcheck.
  { intros nobel Hn Hfour.
    pose proof (normalize_sex_lacking df nobel Hl Hn) as Hsex.
    apply check_essential_Ok. split; [done|].
    assert (0 < nrows df) as Hrows.
    { pose proof (Hfour "year" ltac:(repeat constructor)) as Hy.
      unfold is_missing in Hy.
      rewrite (normalize_plain_col df nobel "year" Hn) in Hy by repeat constructor.
      apply isna_all_false_len in Hy. by rewrite col_len_mapped in Hy. }
    assert (is_missing nobel "sex" = false) as Hpresent.
    { unfold is_missing. rewrite Hsex. by apply isna_all_replicate_Some. }
    unfold missing, essential. simpl.
    rewrite (Hfour "year"), (Hfour "full_name"), Hpresent,
      (Hfour "birth_country"), (Hfour "category") by repeat constructor.
    done. }
  split_and!.
  - rewrite standardize_sex_mapped, (mapped_col_lacks _ _ Hl). simpl.
    eexists. split; [done|].
    rewrite columns_set_col, lookup_insert_eq. unfold fillna.
    by rewrite !fmap_replicate.
  - intros nobel Hn.
    pose proof (normalize_sex_lacking df nobel Hl Hn) as Hsex.
    assert (0 < nrows df → is_missing nobel "sex" = false) as Hpresent.
    { intros Hrows. unfold is_missing. rewrite Hsex.
      by apply isna_all_replicate_Some. }
    split_and!; [done|..].
    + intros Hrows [_ Hm]%elem_of_missing. rewrite Hpresent in Hm; done.
    + by apply Hcheck.
  - intros t Hload r (i & Hi & ->)%elem_of_rows.
    pose proof Hload as (nobel & ys & bc & Hn & _ & _ & _ & ->)%load_inv.
    pose proof (normalize_sex_lacking df nobel Hl Hn) as Hsex.
    apply normalize_inv in Hn as (Hrows & _).
    rewrite !nrows_set_col, Hrows in Hi. simpl.
    rewrite (str_at_ObjCol _ "sex" (replicate (nrows df) (Some "unknown"))).
    2:{ by rewrite !columns_set_col, !lookup_insert_ne by done. }
    by rewrite lookup_replicate_2.
  - intros nobel Hn Hfour Hnum. unfold load. rewrite Hn. simpl.
    rewrite (Hcheck nobel Hn Hfour). simpl. by apply (preprocess_total df).
Qed.

(** X19: once normalisation is through, the check lists exactly the
    essential columns that are null in every row; if
    there is one, the run ends in the [ValueError] that carries this list
    and yields no answers.  An input without any alias of [year],
    [birth_country] or [category] ends so, and so does one without any
    alias of [full_name] and without a [givenName]/[familyName] pair. *)
Theorem essential_columns_check (df nobel : table) :
  normalize df = Ok nobel →
  (∀ c, c ∈ missing nobel ↔
        c ∈ essential ∧ ∃ col, columns nobel !! c = Some col ∧ isna_all col = true) ∧
  (missing nobel ≠ [] →
     load df = Raise (ValueError (missing nobel)) ∧
     analysis df = Raise (ValueError (missing nobel))) ∧
  (missing nobel = [] → check_essential nobel = Ok nobel) ∧
  (∀ c, c ∈ ["year"; "birth_country"; "category"] → lacks_aliases c df →
        c ∈ missing nobel) ∧
  (lacks_aliases "full_name" df →
   has_col "givenName" df && has_col "familyName" df = false →
   "full_name" ∈ missing nobel).
Proof.
  intros Hn. split_and!.
  - intros c. rewrite elem_of_missing. split.
    + intros [Hc Hm]. split; [done|].
      destruct (normalize_essential_col df nobel c Hn Hc) as [col Hcol].
      exists col. split; [done|]. unfold is_missing in Hm. by rewrite Hcol in Hm.
    + intros [Hc (col & Hcol & Hna)]. split; [done|].
      unfold is_missing. by rewrite Hcol.
  - intros Hm.
    assert (load df = Raise (ValueError (missing nobel))) as Hload.
    { unfold load. rewrite Hn. simpl. unfold check_essential.
      by destruct (missing nobel). }
    split; [done|]. unfold analysis. by rewrite Hload.
  - intros Hm. by apply check_essential_Ok.
  - intros c Hc Hl. apply elem_of_missing. split.
    { repeat (apply elem_of_cons in Hc as [->|Hc]; [essential_tac|]).
      by apply elem_of_nil in Hc. }
    unfold is_missing. rewrite (normalize_plain_col df nobel c Hn Hc).
    rewrite (mapped_col_lacks _ _ Hl). apply isna_all_none_col.
  - intros Hl Hgiven. apply elem_of_missing. split; [essential_tac|].
    apply normalize_full_name in Hn. unfold name_source in Hn.
    rewrite Hgiven in Hn.
    assert (has_col "firstname" df = false) as Hfirst.
    { unfold has_col. apply bool_decide_eq_false. intros [c Hc].
      unfold lacks_aliases in Hl. rewrite Forall_forall in Hl.
      rewrite (Hl "firstname") in Hc; [done|]. unfold aliases. simpl.
      repeat constructor. }
    rewrite Hfirst in Hn. simpl in Hn. destruct Hn as (l & Hmapped & Hfull).
    rewrite (mapped_col_lacks _ _ Hl) in Hmapped. injection Hmapped as <-.
    unfold is_missing. rewrite Hfull, fmap_replicate. apply isna_all_none_col.
Qed.

(** ** Empty subsets and the end of the run *)

Lemma length_filter_pos {A} (P : A → Prop) `{!∀ x, Decision (P x)} (l : list A) x :
  x ∈ l → P x → 0 < length (filter P l).
Proof.
  intros Hx HP. assert (x ∈ filter P l) as Hin by (by apply list_elem_of_filter).
  destruct (filter P l); [by apply elem_of_nil in Hin|simpl; lia].
Qed.

Lemma traverse_total {A B} (f : A → result B) (l : list A) :
  (∀ x, x ∈ l → ∃ y, f x = Ok y) → ∃ k, traverse f l = Ok k.
Proof.
  induction l as [|x l IH]; intros Hf; simpl; [by eexists|].
  destruct (Hf x) as [y ->]; [left|]. simpl.
  destruct IH as [k ->]; [intros; apply Hf; by right|]. simpl. by eexists.
Qed.

Lemma join_total sep (l : list cell) :
  (∀ c, c ∈ l → ∃ s, c = Some (Str s)) → ∃ s, join sep l = Ok s.
Proof.
  induction l as [|c l IH]; intros Hl; [by eexists|].
  destruct (Hl c) as [s ->]; [left|].
  destruct IH as [rest Hrest]; [intros; apply Hl; by right|].
  simpl. destruct l; [by eexists|]. rewrite Hrest. simpl. by eexists.
Qed.

Lemma value_counts_nonempty {K} `{EqDecision K} (l : list (option K)) k :
  Some k ∈ l → value_counts l ≠ [].
Proof.
  intros Hk E.
  assert ((k, count (Some k) l) ∈ value_counts l) as Hin.
  { by apply elem_of_value_counts. }
  rewrite E in Hin. by apply elem_of_nil in Hin.
Qed.

Lemma not_all_null {A} (l : list (option A)) :
  forallb (fun x => bool_decide (x = None)) l = false → ∃ i y, l !! i = Some (Some y).
Proof.
  induction l as [|[y|] l IH]; simpl; [done|..].
  - intros _. by exists 0, y.
  - intros (i & y & Hi)%IH. by exists (S i), y.
Qed.

Lemma load_nrows df t : load df = Ok t → nrows t = nrows df.
Proof.
  intros (nobel & ys & bc & Hn & _ & _ & _ & ->)%load_inv.
  apply normalize_inv in Hn as (Hrows & _). by rewrite !nrows_set_col.
Qed.

(** The check leaves a table with a record that has a year. *)
Lemma load_some_year df t :
  table_wf df → load df = Ok t → ∃ i y, i < nrows t ∧ year (row t i) = Some y.
Proof.
  intros Hwf Hload. pose proof (load_nrows df t Hload) as Hrows.
  pose proof Hload as (nobel & ys & bc & Hn & Hm & Hys & _ & ->)%load_inv.
  pose proof (missing_nil nobel "year" Hm ltac:(essential_tac)) as Hyear.
  unfold is_missing in Hyear. rewrite Hys in Hyear. simpl in Hyear.
  rewrite (normalize_plain_col df nobel "year" Hn) in Hys by repeat constructor.
  pose proof (col_len_mapped df (aliases "year") Hwf) as Hlen.
  injection Hys as Hys. rewrite Hys in Hlen. simpl in Hlen.
  apply not_all_null in Hyear as (i & y & Hi).
  exists i, y. split.
  - rewrite Hrows, <- Hlen. by eapply lookup_lt_Some.
  - simpl. rewrite (num_at_NumCol _ "year" ys).
    2:{ rewrite !columns_set_col, !lookup_insert_ne by done.
        rewrite (normalize_plain_col df nobel "year" Hn) by repeat constructor.
        by rewrite Hys. }
    by rewrite Hi.
Qed.

Lemma load_some_decade df t :
  table_wf df → load df = Ok t → ∃ d, 0 < decade_total t d.
Proof.
  intros Hwf Hload. destruct (load_some_year df t Hwf Hload) as (i & y & Hi & Hy).
  destruct (load_decade df t Hload) as [float Hd].
  exists (decade_in float y). unfold decade_total.
  apply (length_filter_pos _ _ (row t i)); [apply elem_of_rows; eauto|].
  specialize (Hd i). simpl in *. by rewrite Hd, Hy.
Qed.

Lemma top_gender_total df t :
  table_wf df → load df = Ok t → ∃ g, top_gender t = Ok g.
Proof.
  intros Hwf Hload. destruct (load_some_year df t Hwf Hload) as (i & _ & Hi & _).
  destruct (load_sex df t i Hwf Hload Hi) as (x & _ & Hsex).
  apply idxmax_nonempty, (value_counts_nonempty _ (default "unknown" (PyStr.lower <$> x))).
  rewrite <- Hsex. apply list_elem_of_fmap_2, elem_of_rows. eauto.
Qed.

Lemma top_country_total df t :
  table_wf df → load df = Ok t → ∃ c, top_country t = Ok c.
Proof.
  intros Hwf Hload. destruct (load_some_year df t Hwf Hload) as (i & _ & Hi & _).
  destruct (load_birth_country df t i Hwf Hload Hi) as (s & Hs & _).
  apply idxmax_nonempty, (value_counts_nonempty _ s).
  rewrite <- Hs. apply list_elem_of_fmap_2, elem_of_rows. eauto.
Qed.

Lemma max_decade_usa_total df t :
  table_wf df → load df = Ok t → ∃ u, max_decade_usa t = Ok u.
Proof.
  intros Hwf Hload. destruct (decide (usa_winners t = [])) as [Hu|Hu].
  - unfold max_decade_usa. rewrite Hu. by eexists.
  - destruct (max_decade_usa_Some t Hu (load_some_decade df t Hwf Hload)) as [d ->].
    by eexists.
Qed.

Lemma max_female_dict_total nobel : ∃ p, max_female_dict nobel = Ok p.
Proof.
  unfold max_female_dict. case_decide; [by eexists|]. case_decide; [by eexists|].
  apply idxmax_nonempty. by intros E; rewrite E in *.
Qed.

Lemma print_repeat_winners_total nobel :
  (∀ name c, name ∈ repeat_list nobel → c ∈ cats nobel name → ∃ s, c = Some (Str s)) →
  ∃ lines, print_repeat_winners nobel = Ok lines.
Proof.
  intros Hstr. apply traverse_total. intros name Hname.
  apply join_total. intros c Hc. by apply (Hstr name).
Qed.

(** After a passed check the queries run to the end unless the report of
    the repeat winners meets a category that is not a string. *)
Lemma aggregate_total df t :
  table_wf df → load df = Ok t →
  (∀ name c, name ∈ repeat_list t → c ∈ cats t name → ∃ s, c = Some (Str s)) →
  ∃ a, aggregate t = Ok a.
Proof.
  intros Hwf Hload Hstr. unfold aggregate.
  destruct (top_gender_total df t Hwf Hload) as [g ->].
  destruct (top_country_total df t Hwf Hload) as [c ->].
  destruct (max_decade_usa_total df t Hwf Hload) as [u ->].
  destruct (max_female_dict_total t) as [p ->].
  destruct (print_repeat_winners_total t Hstr) as [lines ->].
  simpl. by eexists.
Qed.

(** X17: without a USA-born record the USA query is skipped,
    [max_decade_usa] is [None] and no bar chart is drawn; without a female
    record the first woman's name and category are ["Unknown"], the
    reported pair is the placeholder and the proportion matrix is all
    zeros, one row per distinct decade and one column per distinct
    category; without a repeat winner nothing is reported. *)
Theorem empty_subsets (nobel : table) :
  (usa_winners nobel = [] →
     max_decade_usa nobel = Ok None ∧ plot_usa_ratio nobel = Ok ()) ∧
  (female_winners nobel = [] →
     max_female_dict nobel = Ok (1900%Z, Str "Unknown") ∧
     first_woman_name nobel = Some "Unknown" ∧
     first_woman_category nobel = Some (Str "Unknown") ∧
     frame_index (prop_df nobel) = unique (decade <$> rows nobel) ∧
     frame_columns (prop_df nobel) = unique (category <$> rows nobel) ∧
     length (frame_values (prop_df nobel)) = length (unique (decade <$> rows nobel)) ∧
     Forall (fun r => length r = length (unique (category <$> rows nobel)) ∧
                      Forall (fun q => q = 0%Q) r)
            (frame_values (prop_df nobel))) ∧
  (repeat_list nobel = [] → print_repeat_winners nobel = Ok []).
Proof.
  split_and!.
  - intros Hu. unfold max_decade_usa, plot_usa_ratio. by rewrite Hu.
  - intros Hf. unfold max_female_dict, first_woman_name, first_woman_category,
      first, prop_df. rewrite Hf. simpl. split_and!; try done.
    + by rewrite length_fmap.
    + apply Forall_fmap, Forall_forall. intros d _. simpl. split.
      * by rewrite length_fmap.
      * apply Forall_fmap, Forall_forall. by intros c _.
  - intros Hr. unfold print_repeat_winners. by rewrite Hr.
Qed.

(** X18: a name is a repeat winner exactly when more than one record
    carries it; the list of repeat winners is in descending order of
    frequency; the categories reported for a name are its distinct
    categories in order of first appearance; the years reported for a
    repeat winner whose years are all present are its years in ascending
    order.
    On the sample input, A with 1990 (Physics) and 2000 (Chemistry) and B
    once, the list is [A], with years [1990; 2000] and categories
    [Physics; Chemistry]. *)
Theorem repeat_winners (nobel : table) :
  (∀ name, name ∈ repeat_list nobel ↔ 1 < length (wins_of nobel name)) ∧
  StronglySorted (fun a b => length (wins_of nobel b) ≤ length (wins_of nobel a))
                 (repeat_list nobel) ∧
  (∀ name, name ∈ repeat_list nobel →
     Forall (fun r => is_Some (year r)) (wins_of nobel name) →
     ∃ ys, years nobel name = Some (Some <$> ys) ∧ Sorted Z.le ys ∧
           Some <$> ys ≡ₚ year <$> wins_of nobel name) ∧
  (∀ name,
     NoDup (cats nobel name) ∧
     (∀ c, c ∈ cats nobel name ↔ c ∈ category <$> wins_of nobel name) ∧
     (∀ i j x y, cats nobel name !! i = Some x → cats nobel name !! j = Some y → i < j →
        ∃ i' j', list_find (fun z => z = x) (category <$> wins_of nobel name) = Some (i', x) ∧
                 list_find (fun z => z = y) (category <$> wins_of nobel name) = Some (j', y) ∧
                 i' < j')) ∧
  (t ← load df_repeat; Ok (repeat_list t, years t "A", cats t "A"))
    = Ok (["A"], Some [Some 1990; Some 2000]%Z,
          [Some (Str "Physics"); Some (Str "Chemistry")]).
Proof.
  split_and!.
  - apply elem_of_repeat_list.
  - apply repeat_list_sorted.
  - intros name _. apply years_sorted.
  - intros name. unfold cats. split_and!.
    + apply NoDup_unique.
    + intros c. apply elem_of_unique.
    + apply unique_first_occurrence.
  - by vm_compute.
Qed.

(** ** The USA test *)

Lemma lower_char_dot c : PyStr.lower_char "." = PyStr.lower_char c → c = "."%char.
Proof. by destruct c as [[] [] [] [] [] [] [] []]. Qed.

Lemma covers_Lit x : covers (PyStr.Lit x) x.
Proof. intros c Hc. simpl. by apply Ascii.eqb_eq. Qed.

Lemma covers_Dot : covers PyStr.Dot ".".
Proof. by intros c ->%lower_char_dot. Qed.

Lemma match_here_prefix p name s :
  covers_all p name →
  String.prefix (PyStr.lower name) (PyStr.lower s) = true →
  PyStr.match_here false p s = true.
Proof.
  revert name s. induction p as [|a p IH]; intros [|x name] s; simpl; try done.
  intros [Ha Hp]. destruct s as [|c s]; simpl; [done|].
  destruct (ascii_dec (PyStr.lower_char x) (PyStr.lower_char c)) as [Heq|]; [|done].
  intros Hpre. rewrite (Ha c Heq). simpl. by apply (IH name).
Qed.

Lemma search_one_substring p name s :
  covers_all p name →
  is_substring (PyStr.lower name) (PyStr.lower s) = true →
  PyStr.search_one false p s = true.
Proof.
  intros Hp. induction s as [|c s IH]; cbn [is_substring PyStr.lower PyStr.search_one].
  - rewrite !orb_false_r. by apply (match_here_prefix p name "").
  - intros [Hpre|Hsub]%orb_true_iff; apply orb_true_iff.
    + left. by apply (match_here_prefix p name (String c s)).
    + right. by apply IH.
Qed.

(** Every birth country that contains one of the four names, whatever the
    case, passes the script's test. *)
Lemma usa_mask_complete (s : string) :
  usa_born_literally s = true →
  PyStr.contains "United States|USA|America|U.S.A." false s = true.
Proof.
  unfold usa_born_literally, PyStr.contains, usa_names, contains_literal.
  let atoms := eval vm_compute in (PyStr.compile "United States|USA|America|U.S.A.") in
  change (PyStr.compile "United States|USA|America|U.S.A.") with atoms.
  intros Hs. cbn [existsb] in Hs. rewrite !orb_false_r in Hs.
  apply existsb_exists.
  apply orb_true_iff in Hs as [H|[H|[H|H]%orb_true_iff]%orb_true_iff].
  - eexists. split; [left; reflexivity|].
    eapply search_one_substring; [|exact H]. simpl; repeat split; apply covers_Lit.
  - eexists. split; [right; left; reflexivity|].
    eapply search_one_substring; [|exact H]. simpl; repeat split; apply covers_Lit.
  - eexists. split; [do 2 right; left; reflexivity|].
    eapply search_one_substring; [|exact H]. simpl; repeat split; apply covers_Lit.
  - eexists. split; [do 3 right; left; reflexivity|].
    eapply search_one_substring; [|exact H].
    simpl; repeat split; (apply covers_Lit || apply covers_Dot).
Qed.

(** C5 fails on the script: the dots of [U.S.A.] in the pattern stand for
    any character, so a birth country in the Russian Empire, which contains
    none of the four names, is classified as USA-born and the USA analysis
    of a table with this one record is not skipped. *)
Theorem usa_mask_russian_empire :
  usa_born_literally "Russian Empire" = false ∧
  PyStr.contains "United States|USA|America|U.S.A." false "Russian Empire" = true ∧
  usa_winners (loaded df_russian) = rows (loaded df_russian) ∧
  (a ← analysis df_russian; Ok (ans_max_decade_usa a.2)) = Ok (Some 1900%Z).
Proof. split_and!; by vm_compute. Qed.

(** * The statements on the sample inputs *)

(** Well-formedness of a table given by its columns. *)
Ltac wf_tac :=
  unfold table_wf, from_columns; simpl;
  repeat (apply map_Forall_insert_2; [reflexivity|]);
  apply map_Forall_empty.

Lemma df_repeat_wf : table_wf df_repeat.
Proof. wf_tac. Qed.

Lemma df_no_sex_wf : table_wf df_no_sex.
Proof. wf_tac. Qed.

Lemma df_names_wf : table_wf df_names.
Proof. wf_tac. Qed.

Lemma df_no_sex_lacks : lacks_aliases "sex" df_no_sex.
Proof. unfold lacks_aliases. by repeat constructor. Qed.

(** C1: an input without any alias of [sex], whose [sex] is null in every
    row once the columns are mapped, is not stopped: the check lists
    nothing and the run goes to its end. *)
Theorem missing_sex_not_fatal :
  lacks_aliases "sex" df_no_sex ∧
  isna_all (mapped_col df_no_sex (aliases "sex")) = true ∧
  missing (normalized df_no_sex) = [] ∧
  ∃ a, analysis df_no_sex = Ok (loaded df_no_sex, a).
Proof.
  split; [apply df_no_sex_lacks|]. split; [by vm_compute|]. split; [by vm_compute|].
  eexists. by vm_compute.
Qed.

Lemma essential_columns_check_witness :
  normalize df_no_category = Ok (normalized df_no_category) ∧
  "category" ∈ missing (normalized df_no_category) ∧
  analysis df_no_category = Raise (ValueError ["category"]).
Proof.
  assert (normalize df_no_category = Ok (normalized df_no_category)) as Hn
    by (by vm_compute).
  destruct (essential_columns_check df_no_category (normalized df_no_category) Hn)
    as (_ & Hraise & _ & Hplain & _).
  assert ("category" ∈ missing (normalized df_no_category)) as Hin.
  { apply Hplain; [repeat constructor|]. unfold lacks_aliases. by repeat constructor. }
  split; [done|]. split; [done|].
  replace ["category"] with (missing (normalized df_no_category)) by (by vm_compute).
  apply Hraise. intros E. rewrite E in Hin. by apply elem_of_nil in Hin.
Defined.

(** Two inputs without any alias of [sex] and with the other four columns
    in place.  With the years as text the check passes and line 74 raises;
    with no row at all the check lists the five columns, [sex] among
    them. *)
Lemma missing_sex_can_abort :
  (lacks_aliases "sex" df_text_year ∧
   normalize df_text_year = Ok (normalized df_text_year) ∧
   missing (normalized df_text_year) = [] ∧
   load df_text_year = Raise TypeError ∧
   analysis df_text_year = Raise TypeError) ∧
  (lacks_aliases "sex" df_header_only ∧
   analysis df_header_only
     = Raise (ValueError ["year"; "full_name"; "sex"; "birth_country"; "category"])).
Proof.
  split.
  - split; [unfold lacks_aliases; by repeat constructor|].
    split_and!; by vm_compute.
  - split; [unfold lacks_aliases; by repeat constructor|]. by vm_compute.
Qed.

Lemma missing_sex_is_unknown_witness :
  missing (normalized df_no_sex) = [] ∧
  check_essential (normalized df_no_sex) = Ok (normalized df_no_sex) ∧
  Forall (fun r => sex r = Some "unknown") (rows (loaded df_no_sex)) ∧
  ∃ t, load df_no_sex = Ok t.
Proof.
  destruct (missing_sex_is_unknown df_no_sex df_no_sex_wf df_no_sex_lacks)
    as (_ & Hcheck & Hrows & Hload).
  destruct (Hcheck (normalized df_no_sex)) as (_ & _ & Hpass); [by vm_compute|].
  assert (∀ c, c ∈ ["year"; "full_name"; "birth_country"; "category"] →
               is_missing (normalized df_no_sex) c = false) as Hfour.
  { intros c Hc.
    repeat (apply elem_of_cons in Hc as [->|Hc]; [vm_compute; reflexivity|]).
    apply elem_of_nil in Hc. destruct Hc. }
  split_and!.
  - by vm_compute.
  - by apply Hpass.
  - apply Forall_forall, Hrows. by vm_compute.
  - apply (Hload (normalized df_no_sex)); [by vm_compute|exact Hfour|].
    vm_compute. exact I.
Defined.

(** A directly mapped [full_name] is overwritten by the joined halves. *)
Lemma mapped_full_name_overwritten :
  str_at (map_columns df_names) "full_name" 0 = Some "Marie Curie" ∧
  str_at (normalized df_names) "full_name" 0 = Some "Maria Sklodowska" ∧
  normalize df_names = Ok (normalized df_names).
Proof. split_and!; by vm_compute. Qed.

Lemma full_name_synthesis_witness :
  str_at (normalized df_names) "full_name" 1 = Some "Albert" ∧
  is_stripped "Albert".
Proof.
  destruct (full_name_synthesis df_names (normalized df_names) 1 df_names_wf)
    as [Heq Hstripped].
  - by vm_compute.
  - simpl. lia.
  - assert (str_at (normalized df_names) "full_name" 1 = Some "Albert") as Hname.
    { rewrite Heq. by vm_compute. }
    split; [done|]. by apply Hstripped.
Defined.

(** The pair (1990, Chemistry) has no record, and the matrix shows 0 for
    it. *)
Lemma empty_pair_reported_as_zero :
  load df_sparse = Ok (loaded df_sparse) ∧
  pair_total (loaded df_sparse) (1990%Z, Str "Chemistry") = 0 ∧
  frame_at (prop_df (loaded df_sparse)) (Some 1990%Z) (Some (Str "Chemistry")) = Some 0%Q ∧
  (a ← analysis df_sparse;
   Ok (frame_at (ans_prop_df a.2) (Some 1990%Z) (Some (Str "Chemistry")))) = Ok (Some 0%Q).
Proof. split_and!; by vm_compute. Qed.

Lemma female_proportion_witness :
  frame_at (prop_df (loaded df_sparse)) (Some 1990%Z) (Some (Str "Chemistry")) = Some 0%Q ∧
  ∃ p q, max_female_dict (loaded df_sparse) = Ok p ∧
         get p (prop (loaded df_sparse)) = Some q ∧
         ∀ p' q', get p' (prop (loaded df_sparse)) = Some q' → (q' <= q)%Q.
Proof.
  destruct (female_proportion (loaded df_sparse)) as (_ & Hzero & Hmax).
  split.
  - apply (Hzero (1990%Z, Str "Chemistry")); [by vm_compute|..].
    + exists (Str "Physics"). vm_compute. lia.
    + exists 2000%Z. vm_compute. lia.
  - apply Hmax; [by vm_compute|].
    exists (1990%Z, Str "Physics"). vm_compute. lia.
Defined.


(** C2: the years reported for a repeat winner are not in ascending order
    when one of them is missing: A, with the years 2000, none and 1990 in
    this order, is reported with the years as they stand, on a table that
    passes the check. *)
Theorem nan_year_unsorted :
  load df_nan_year = Ok (loaded df_nan_year) ∧
  repeat_list (loaded df_nan_year) = ["A"] ∧
  year <$> wins_of (loaded df_nan_year) "A" = [Some 2000; None; Some 1990]%Z ∧
  years (loaded df_nan_year) "A" = Some [Some 2000; None; Some 1990]%Z ∧
  print_winner (loaded df_nan_year) "A" = Ok "Physics, Chemistry".
Proof. split_and!; by vm_compute. Qed.

Lemma repeat_winners_witness :
  "A" ∈ repeat_list (loaded df_repeat) ∧
  ∃ ys, years (loaded df_repeat) "A" = Some (Some <$> ys) ∧ Sorted Z.le ys.
Proof.
  destruct (repeat_winners (loaded df_repeat)) as (Hin & _ & Hyears & _).
  assert ("A" ∈ repeat_list (loaded df_repeat)) as HA.
  { apply Hin. vm_compute. lia. }
  split; [done|].
  destruct (Hyears "A" HA) as (ys & Hys & Hsorted & _).
  - change (wins_of (loaded df_repeat) "A")
      with (filter (fun r => full_name r = Some "A") (rows (loaded df_repeat))).
    let l := eval vm_compute in (wins_of (loaded df_repeat) "A") in
    replace (filter (fun r => full_name r = Some "A") (rows (loaded df_repeat)))
      with l by (by vm_compute).
    repeat constructor; by eexists.
  - exists ys. split; assumption.
Defined.

(** The decade of the least year of an int64 column: the product by ten
    wraps around.  The decade of a year beyond 2^53 in a float64 column:
    the difference, the quotient and the product are rounded. *)
Lemma decade_wraps_around :
  (load df_least_year = Ok (loaded df_least_year) ∧
   year (row (loaded df_least_year) 0) = Some (-9223372036854775808)%Z ∧
   decade (row (loaded df_least_year) 0) = Some 9223372036854775806%Z ∧
   decade_of (-9223372036854775808) = (-9223372036854775810)%Z) ∧
  (load df_large_year = Ok (loaded df_large_year) ∧
   year (row (loaded df_large_year) 0) = Some 100000000000000016%Z ∧
   decade (row (loaded df_large_year) 0) = Some 100000000000000016%Z ∧
   decade_of 100000000000000016 = 100000000000000010%Z).
Proof. split; split_and!; by vm_compute. Qed.

Lemma decade_derivation_witness :
  year (row (loaded df_repeat) 1) = Some 1995%Z ∧
  decade (row (loaded df_repeat) 1) = Some 1990%Z.
Proof.
  destruct decade_derivation as (_ & _ & _ & _ & Hrows).
  assert (year (row (loaded df_repeat) 1) = Some 1995%Z) as Hy
    by (vm_compute; reflexivity).
  split; [exact Hy|].
  destruct (Hrows df_repeat (loaded df_repeat) (row (loaded df_repeat) 1)) as [_ Hdec].
  - vm_compute. reflexivity.
  - apply elem_of_rows. exists 1. split; [vm_compute; lia|reflexivity].
  - apply (Hdec 1995%Z Hy). vm_compute. discriminate.
Defined.

Lemma sex_and_country_normalized_witness :
  sex (row (loaded df_repeat) 0) = Some "male" ∧
  sex (row (loaded df_repeat) 2) = Some "unknown" ∧
  birth_country (row (loaded df_repeat) 1) = Some "Unknown" ∧
  ∀ t' a, analysis df_repeat = Ok (t', a) → t' = loaded df_repeat.
Proof.
  destruct (sex_and_country_normalized df_repeat (loaded df_repeat) df_repeat_wf)
    as (Hrow & Hsame); [by vm_compute|].
  split_and!.
  - destruct (Hrow 0) as ((s & -> & _ & _ & _ & Hs) & _); [vm_compute; lia|].
    f_equal. apply (Hs "Male"). by vm_compute.
  - destruct (Hrow 2) as ((s & -> & _ & _ & Hs & _) & _); [vm_compute; lia|].
    f_equal. apply Hs. by vm_compute.
  - destruct (Hrow 1) as (_ & (s & -> & Hs)); [vm_compute; lia|].
    f_equal. apply Hs. by vm_compute.
  - intros t' a H. by destruct (Hsame t' a H).
Defined.

(** C7: a repeat winner with an empty category cell ends the run in a
    [TypeError], after a passed check, with no woman and nobody born in
    the USA among the records. *)
Theorem null_category_ends_run :
  load df_null_category = Ok (loaded df_null_category) ∧
  female_winners (loaded df_null_category) = [] ∧
  usa_winners (loaded df_null_category) = [] ∧
  analysis df_null_category = Raise TypeError.
Proof. split_and!; by vm_compute. Qed.

Lemma empty_subsets_witness :
  max_decade_usa (loaded df_no_sex) = Ok None ∧
  first_woman_name (loaded df_no_sex) = Some "Unknown" ∧
  first_woman_category (loaded df_no_sex) = Some (Str "Unknown").
Proof.
  destruct (empty_subsets (loaded df_no_sex)) as (Husa & Hfemale & _).
  destruct Hfemale as (_ & Hname & Hcat & _); [vm_compute; reflexivity|].
  split; [|split; [exact Hname|exact Hcat]].
  apply Husa. vm_compute. reflexivity.
Defined.

(** * Further properties of the script *)

(** ** Mapping of column names *)

Lemma table_eq (a b : table) : nrows a = nrows b → columns a = columns b → a = b.
Proof. destruct a, b. simpl. by intros -> ->. Qed.

Lemma col_map_entry std variants :
  (std, variants) ∈ col_map → std ∈ essential ∧ aliases std = variants.
Proof.
  unfold col_map. intros H.
  repeat (apply elem_of_cons in H as [[= -> ->]|H]; [split; [essential_tac|reflexivity]|]).
  by apply elem_of_nil in H.
Qed.

Lemma first_variant_app df pre v post c :
  Forall (fun a => columns df !! a = None) pre → columns df !! v = Some c →
  first_variant df (pre ++ v :: post) = Some c.
Proof.
  intros Hpre Hv. induction Hpre as [|a pre Ha _ IH]; simpl.
  - by rewrite Hv.
  - by rewrite Ha.
Qed.

Lemma aliases_head std : std ∈ essential → ∃ rest, aliases std = std :: rest.
Proof.
  unfold essential. intros H.
  repeat (apply elem_of_cons in H as [->|H]; [by eexists|]).
  by apply elem_of_nil in H.
Qed.

(** X1: for each of the five canonical names, [map_columns] stores the
    column of the first alias that the input has, in the order of the
    alias list, and a column of nulls, one per row, when the input has
    none; it keeps the number of rows and every column under another
    name. *)
Theorem map_columns_first_alias (df : table) :
  (∀ std pre v post c,
     (std, pre ++ v :: post) ∈ col_map →
     Forall (fun a => columns df !! a = None) pre → columns df !! v = Some c →
     columns (map_columns df) !! std = Some c) ∧
  (∀ std variants,
     (std, variants) ∈ col_map →
     Forall (fun a => columns df !! a = None) variants →
     columns (map_columns df) !! std = Some (ObjCol (replicate (nrows df) None))) ∧
  (∀ name, name ∉ essential → columns (map_columns df) !! name = columns df !! name) ∧
  nrows (map_columns df) = nrows df.
Proof.
  split_and!.
  - intros std pre v post c [Hstd Hal]%col_map_entry Hpre Hv.
    rewrite map_columns_std by done. unfold mapped_col.
    by rewrite Hal, (first_variant_app _ _ _ _ _ Hpre Hv).
  - intros std variants [Hstd Hal]%col_map_entry Hnone.
    rewrite map_columns_std by done. unfold mapped_col.
    apply first_variant_None in Hnone. by rewrite Hal, Hnone.
  - apply map_columns_other.
  - apply nrows_map_columns.
Qed.

Lemma mapped_col_again df std :
  std ∈ essential →
  mapped_col (map_columns df) (aliases std) = mapped_col df (aliases std).
Proof.
  intros Hstd. destruct (aliases_head std Hstd) as [rest Hal].
  unfold mapped_col at 1.
  assert (first_variant (map_columns df) (aliases std)
          = Some (mapped_col df (aliases std))) as ->; [|done].
  rewrite Hal at 1. cbn [first_variant]. by rewrite map_columns_std.
Qed.

(** X2: mapping the columns of an already mapped table changes nothing. *)
Theorem map_columns_idempotent (df : table) :
  map_columns (map_columns df) = map_columns df.
Proof.
  apply table_eq; [by rewrite !nrows_map_columns|].
  apply map_eq. intros name.
  destruct (decide (name ∈ essential)) as [Hin|Hnot].
  - by rewrite !map_columns_std, mapped_col_again.
  - by rewrite !map_columns_other.
Qed.

(** ** Exceptions of the normalisation *)

Lemma traverse_Raise {A B} (f : A → result B) (l : list A) e :
  traverse f l = Raise e → ∃ x, x ∈ l ∧ f x = Raise e.
Proof.
  induction l as [|x l IH]; simpl; [done|].
  destruct (f x) as [y|e'] eqn:Hx; simpl.
  - destruct (traverse f l) as [ys|e'']; simpl; [done|].
    intros [= ->]. destruct IH as (x' & Hin & Hx'); [done|].
    exists x'. split; [by right|done].
  - intros [= ->]. exists x. split; [left|done].
Qed.

Lemma elem_of_fillna_str_Num d c z :
  Num z ∈ fillna_str d c ↔ ∃ l, c = NumCol l ∧ Some z ∈ l.
Proof.
  destruct c as [l|l]; simpl; rewrite list_elem_of_fmap; split.
  - by intros (x & ? & _).
  - by intros (l' & ? & _).
  - intros ([x|] & Hx & Hin); simpl in Hx; [|done].
    injection Hx as ->. by exists l.
  - intros (l' & [= <-] & Hin). by exists (Some z).
Qed.

Lemma add_space_Ok a y : add_values a (Str " ") = Ok y → ∃ s, a = Str s ∧ y = Str (s +:+ " ").
Proof. destruct a; simpl; [|done]. intros [= <-]. by eexists. Qed.

(** The two ways [join_names] ends, for columns of the same length. *)
Lemma join_names_cases ca cb :
  col_len ca = col_len cb →
  (¬ has_number ca ∧ ¬ has_number cb ∧ ∃ names, join_names ca cb = Ok (ObjCol names)) ∨
  ((has_number ca ∨ has_number cb) ∧ join_names ca cb = Raise TypeError).
Proof.
  intros Hlen. unfold join_names.
  destruct (traverse (fun a => add_values a (Str " ")) (fillna_str "" ca))
    as [left|e] eqn:Hleft; simpl.
  2:{ right. apply traverse_Raise in Hleft as (x & Hx & Hadd).
      destruct x as [s|z]; [done|]. simpl in Hadd. injection Hadd as <-.
      split; [|done]. left.
      apply elem_of_fillna_str_Num in Hx as (l & -> & Hz). by exists z. }
  apply traverse_Ok in Hleft.
  assert (∀ y, y ∈ left → ∃ s, y = Str s) as Hstr.
  { intros y (i & Hi)%list_elem_of_lookup.
    destruct (Forall2_lookup_r _ _ _ _ _ Hleft Hi) as (a & _ & Ha).
    apply add_space_Ok in Ha as (s & _ & ->). by eexists. }
  assert (¬ has_number ca) as Hca.
  { destruct ca as [l|l]; simpl; [tauto|]. intros [z Hz].
    assert (Num z ∈ fillna_str "" (NumCol l)) as Hin.
    { apply elem_of_fillna_str_Num. by exists l. }
    apply list_elem_of_lookup in Hin as [i Hi].
    destruct (Forall2_lookup_l _ _ _ _ _ Hleft Hi) as (y & _ & Hy). done. }
  assert (length left = col_len cb) as Hll.
  { rewrite <- (Forall2_length _ _ _ Hleft), length_fillna_str. done. }
  destruct (traverse (fun ab => add_values ab.1 ab.2) (zip left (fillna_str "" cb)))
    as [both|e] eqn:Hboth; simpl.
  2:{ right. apply traverse_Raise in Hboth as ([y v] & Hin & Hadd). simpl in Hadd.
      apply list_elem_of_lookup in Hin as [i Hi].
      apply lookup_zip_Some in Hi as [Hy Hv].
      destruct (Hstr y) as [s ->]; [by eapply list_elem_of_lookup_2|].
      destruct v as [s'|z]; [done|]. simpl in Hadd. injection Hadd as <-.
      split; [|done]. right.
      apply list_elem_of_lookup_2, elem_of_fillna_str_Num in Hv as (l & -> & Hz).
      by exists z. }
  apply traverse_Ok in Hboth.
  assert (¬ has_number cb) as Hcb.
  { destruct cb as [l|l]; simpl; [tauto|]. intros [z Hz].
    assert (Num z ∈ fillna_str "" (NumCol l)) as Hin.
    { apply elem_of_fillna_str_Num. by exists l. }
    apply list_elem_of_lookup in Hin as [i Hi].
    destruct (lookup_lt_is_Some_2 left i) as [y Hy].
    { rewrite Hll. apply lookup_lt_Some in Hi. by rewrite length_fillna_str in Hi. }
    destruct (Hstr y) as [s ->]; [by eapply list_elem_of_lookup_2|].
    assert (zip left (fillna_str "" (NumCol l)) !! i = Some (Str s, Num z)) as Hz'.
    { by apply lookup_zip_Some. }
    destruct (Forall2_lookup_l _ _ _ _ _ Hboth Hz') as (w & _ & Hw). done. }
  destruct (traverse as_str both) as [names|e] eqn:Hnames; simpl.
  - left. split_and!; [done..|]. by eexists.
  - exfalso. apply traverse_Raise in Hnames as (w & Hin & Hw).
    apply list_elem_of_lookup in Hin as [i Hi].
    destruct (Forall2_lookup_r _ _ _ _ _ Hboth Hi) as ([y v] & Hyv & Hadd).
    apply lookup_zip_Some in Hyv as [Hy _].
    destruct (Hstr y) as [s ->]; [by eapply list_elem_of_lookup_2|].
    simpl in Hadd. destruct v; simpl in Hadd; [|done]. injection Hadd as <-. done.
Qed.

Lemma get_col_normalizing_eq df l name :
  name ∉ essential →
  get_col name (set_col "sex" l (map_columns df)) = get_col name df.
Proof.
  intros Hne. unfold get_col. rewrite columns_set_col, lookup_insert_ne.
  2:{ intros <-. apply Hne. essential_tac. }
  by rewrite map_columns_other.
Qed.

Lemma name_source_cols df a b :
  name_source df = Some (a, b) →
  ∃ ca cb, columns df !! a = Some ca ∧ columns df !! b = Some cb.
Proof.
  unfold name_source.
  destruct (has_col "givenName" df && has_col "familyName" df) eqn:H1.
  - intros [= <- <-]. apply andb_true_iff in H1 as [[ca Ha]%has_col_true [cb Hb]%has_col_true].
    by exists ca, cb.
  - destruct (has_col "firstname" df && has_col "surname" df) eqn:H2; [|done].
    intros [= <- <-]. apply andb_true_iff in H2 as [[ca Ha]%has_col_true [cb Hb]%has_col_true].
    by exists ca, cb.
Qed.

(** [normalize], step by step. *)
Lemma normalize_unfold df :
  normalize df =
    match mapped_col df (aliases "sex") with
    | NumCol _ => Raise AttributeError
    | ObjCol l =>
        let n1 := set_col "sex"
                    (ObjCol (fillna "unknown" (fmap (M:=option) PyStr.lower <$> l)))
                    (map_columns df) in
        match name_source df with
        | Some (a, b) =>
            ca ← get_col a df; cb ← get_col b df; c ← join_names ca cb;
            strip_names (set_col "full_name" c n1)
        | None => strip_names n1
        end
    end.
Proof.
  unfold normalize. rewrite standardize_sex_mapped.
  destruct (mapped_col df (aliases "sex")) as [l|]; [|done]. simpl.
  unfold combine_names, name_source.
  rewrite !has_col_normalizing, !get_col_normalizing_eq by essential_tac.
  destruct (has_col "givenName" df && has_col "familyName" df).
  - destruct (get_col "givenName" df); simpl; [|done].
    destruct (get_col "familyName" df); simpl; [|done].
    by destruct (join_names _ _).
  - destruct (has_col "firstname" df && has_col "surname" df); [|done].
    destruct (get_col "firstname" df); simpl; [|done].
    destruct (get_col "surname" df); simpl; [|done].
    by destruct (join_names _ _).
Qed.

Lemma strip_names_full_name c n :
  strip_names (set_col "full_name" c n) =
    match c with
    | ObjCol l =>
        Ok (set_col "full_name" (ObjCol (fmap (M:=option) PyStr.strip <$> l))
                    (set_col "full_name" c n))
    | NumCol _ => Raise AttributeError
    end.
Proof.
  unfold strip_names, get_col. rewrite columns_set_col, lookup_insert_eq. simpl.
  by destruct c.
Qed.

(** X3: [normalize] raises nothing but an [AttributeError] or a
    [TypeError].  It raises the first exactly when the column mapped to
    [sex] is numeric, or there is no pair of name columns to join and the
    column mapped to [full_name] is numeric; it raises the second exactly
    when [sex] is fine and one of the two name columns it joins holds a
    number. *)
Theorem normalize_exceptions (df : table) :
  table_wf df →
  ∀ e, normalize df = Raise e ↔
    (e = AttributeError ∧
     (is_numeric (mapped_col df (aliases "sex")) ∨
      (name_source df = None ∧ is_numeric (mapped_col df (aliases "full_name"))))) ∨
    (e = TypeError ∧ ¬ is_numeric (mapped_col df (aliases "sex")) ∧
     ∃ a b ca cb, name_source df = Some (a, b) ∧
       columns df !! a = Some ca ∧ columns df !! b = Some cb ∧
       (has_number ca ∨ has_number cb)).
Proof.
  intros Hwf e. rewrite normalize_unfold.
  destruct (mapped_col df (aliases "sex")) as [l|l] eqn:Hsex; simpl.
  2:{ split.
      - intros [= <-]. left. split; [done|by left].
      - intros [[-> _]|(_ & Hn & _)]; [done|]. by destruct Hn. }
  destruct (name_source df) as [[a b]|] eqn:Hsrc.
  - destruct (name_source_cols df a b Hsrc) as (ca & cb & Ha & Hb).
    unfold get_col. rewrite Ha, Hb. simpl.
    destruct (join_names_cases ca cb) as [(Hna & Hnb & names & ->)|[Hnum ->]].
    { by rewrite (Hwf _ _ Ha), (Hwf _ _ Hb). }
    + simpl. rewrite strip_names_full_name. split; [done|].
      intros [(_ & [[]|[[=] _]])|(_ & _ & a' & b' & ca' & cb' & [= <- <-] & Ha' & Hb' & Hnum)].
      rewrite Ha in Ha'. rewrite Hb in Hb'. simplify_eq. tauto.
    + simpl. split.
      * intros [= <-]. right. split_and!; [done|by intros []|].
        by exists a, b, ca, cb.
      * intros [(_ & [[]|[[=] _]])|(-> & _)]. done.
  - unfold strip_names, get_col.
    rewrite columns_set_col, lookup_insert_ne by done.
    rewrite map_columns_std by essential_tac.
    destruct (mapped_col df (aliases "full_name")) as [names|names]; simpl.
    + split; [done|].
      intros [(_ & [[]|[_ []]])|(_ & _ & a & b & ca & cb & [=] & _)].
    + split.
      * intros [= <-]. left. split; [done|]. by right.
      * intros [(-> & _)|(_ & _ & a & b & ca & cb & [=] & _)]. done.
Qed.

(** X4: [load] raises what [normalize] raises; or, after a normalisation
    without exception, the [ValueError] of the check, which carries the
    list of the missing columns; or, after a passed check, a [TypeError]
    when the column mapped to [year] is not numeric.  It raises nothing
    else. *)
Theorem load_exceptions (df : table) :
  ∀ e, load df = Raise e ↔
    normalize df = Raise e ∨
    ∃ nobel, normalize df = Ok nobel ∧
      ((missing nobel ≠ [] ∧ e = ValueError (missing nobel)) ∨
       (missing nobel = [] ∧ e = TypeError ∧
        ¬ is_numeric (mapped_col df (aliases "year")))).
Proof.
  intros e. unfold load.
  destruct (normalize df) as [nobel|e'] eqn:Hn; simpl.
  2:{ split; [intros [= <-]; by left|]. intros [[= <-]|(? & [=] & _)]. done. }
  pose proof (normalize_plain_col df nobel "year" Hn ltac:(repeat constructor)) as Hyear.
  unfold check_essential.
  destruct (missing nobel) as [|c m] eqn:Hm; simpl.
  - unfold preprocess, add_decade, get_col. rewrite Hyear. simpl.
    destruct (mapped_col df (aliases "year")) as [l|l]; simpl.
    + split.
      * intros [= <-]. right. exists nobel. split; [done|]. right.
        split_and!; [done..|]. simpl. tauto.
      * intros [[=]|(n' & [= <-] & [[Hne _]|(_ & -> & _)])]; done.
    + unfold default_country, get_col.
      rewrite columns_set_col, lookup_insert_ne by done.
      rewrite (normalize_plain_col df nobel "birth_country" Hn) by repeat constructor.
      simpl. split; [done|].
      intros [[=]|(n' & [= <-] & [[Hne _]|(_ & _ & Hnum)])]; [done|].
      by destruct Hnum.
  - split.
    + intros [= <-]. right. exists nobel. split; [done|]. left. by rewrite Hm.
    + intros [[=]|(n' & [= <-] & [[_ ->]|[Hnil _]])]; [by rewrite Hm|].
      by rewrite Hm in Hnil.
Qed.

(** ** What a loaded table keeps *)

Lemma set_col_wf name c df :
  table_wf df → col_len c = nrows df → table_wf (set_col name c df).
Proof. intros Hwf Hc. unfold table_wf, set_col. simpl. by apply map_Forall_insert_2. Qed.

Lemma map_columns_wf df : table_wf df → table_wf (map_columns df).
Proof.
  intros Hwf. rewrite map_columns_eq.
  repeat (apply set_col_wf; [|by rewrite ?nrows_set_col, col_len_mapped]). done.
Qed.

Lemma join_names_len ca cb c :
  join_names ca cb = Ok c → col_len c = min (col_len ca) (col_len cb).
Proof.
  unfold join_names.
  intros (left & Hl%traverse_Ok & (both & Hb%traverse_Ok
            & (names & Hn%traverse_Ok & [= <-])%bind_Ok)%bind_Ok)%bind_Ok.
  simpl. rewrite length_fmap.
  rewrite <- (Forall2_length _ _ _ Hn), <- (Forall2_length _ _ _ Hb), length_zip.
  by rewrite <- (Forall2_length _ _ _ Hl), !length_fillna_str.
Qed.

Lemma normalize_wf df nobel : table_wf df → normalize df = Ok nobel → table_wf nobel.
Proof.
  intros Hwf. rewrite normalize_unfold.
  pose proof (col_len_mapped df (aliases "sex") Hwf) as Hsex.
  destruct (mapped_col df (aliases "sex")) as [l|]; [|done]. simpl in *.
  assert (table_wf (set_col "sex"
            (ObjCol (fillna "unknown" (fmap (M:=option) PyStr.lower <$> l)))
            (map_columns df))) as Hn1.
  { apply set_col_wf; [by apply map_columns_wf|].
    simpl. unfold fillna. by rewrite !length_fmap, nrows_map_columns. }
  destruct (name_source df) as [[a b]|] eqn:Hsrc.
  - destruct (name_source_cols df a b Hsrc) as (ca & cb & Ha & Hb).
    unfold get_col. rewrite Ha, Hb. simpl.
    destruct (join_names ca cb) as [c|] eqn:Hjoin; simpl; [|done].
    pose proof (join_names_len _ _ _ Hjoin) as Hc.
    rewrite (Hwf _ _ Ha), (Hwf _ _ Hb), Nat.min_id in Hc.
    rewrite strip_names_full_name. destruct c as [names|]; [|done].
    intros [= <-]. apply set_col_wf.
    + apply set_col_wf; [done|]. simpl. by rewrite ?nrows_map_columns.
    + simpl. rewrite length_fmap. simpl in Hc. by rewrite ?nrows_map_columns.
  - intros (names & Hnames & ->)%strip_names_inv.
    apply set_col_wf; [done|]. simpl. rewrite length_fmap.
    apply (Hn1 "full_name" (ObjCol names) Hnames).
Qed.

Lemma load_wf df t : table_wf df → load df = Ok t → table_wf t.
Proof.
  intros Hwf (nobel & ys & bc & Hn & _ & Hys & Hbc & ->)%load_inv.
  pose proof (normalize_wf df nobel Hwf Hn) as Hnobel.
  apply set_col_wf; [apply set_col_wf; [done|]|].
  - simpl. rewrite length_fmap. apply (Hnobel "year" (NumCol ys) Hys).
  - simpl. rewrite !length_fmap, length_fillna_str.
    apply (Hnobel "birth_country" bc Hbc).
Qed.

Lemma load_other_columns df t name :
  load df = Ok t → name ∉ essential → name ≠ "decade" →
  columns t !! name = columns df !! name.
Proof.
  intros (nobel & ys & bc & Hn & _ & _ & _ & ->)%load_inv Hne Hdec.
  apply normalize_inv in Hn as (_ & _ & _ & Hother).
  assert (name ≠ "birth_country" ∧ name ≠ "sex" ∧ name ≠ "full_name") as (? & ? & ?).
  { split_and!; intros ->; apply Hne; essential_tac. }
  rewrite !columns_set_col, !lookup_insert_ne by done.
  by rewrite Hother, map_columns_other.
Qed.

(** X5: when [load] returns a table for a well-formed input, the table has
    the rows of the input and is well-formed again, it has the five
    canonical columns and [decade], and every column of the input under
    another name is still there, unchanged. *)
Theorem load_keeps_shape (df t : table) :
  table_wf df → load df = Ok t →
  nrows t = nrows df ∧ table_wf t ∧
  (∀ name, name ∈ "decade" :: essential → is_Some (columns t !! name)) ∧
  (∀ name, name ∉ "decade" :: essential → columns t !! name = columns df !! name).
Proof.
  intros Hwf Hload. split_and!.
  - by apply load_nrows.
  - by apply (load_wf df).
  - intros name Hname.
    pose proof Hload as (nobel & ys & bc & Hn & _ & _ & _ & ->)%load_inv.
    rewrite !columns_set_col.
    destruct (decide (name = "birth_country")) as [->|?];
      [by rewrite lookup_insert_eq|rewrite lookup_insert_ne by done].
    destruct (decide (name = "decade")) as [->|?];
      [by rewrite lookup_insert_eq|rewrite lookup_insert_ne by done].
    apply (normalize_essential_col df nobel name Hn).
    by apply elem_of_cons in Hname as [->|?].
  - intros name [Hdec Hne]%not_elem_of_cons. by apply (load_other_columns df).
Qed.

(** ** Question 1: the most common value *)

Lemma argmax_ltb {K} (best : K * nat) (s : list (K * nat)) :
  argmax Nat.ltb best s ∈ best :: s ∧
  ∀ kv, kv ∈ best :: s → kv.2 ≤ (argmax Nat.ltb best s).2.
Proof.
  revert best. induction s as [|kv s IH]; intros best; simpl.
  - split; [left|]. by intros kv ->%list_elem_of_singleton.
  - destruct (Nat.ltb_spec best.2 kv.2) as [Hlt|Hge].
    + destruct (IH kv) as [Hin Hmax]. split; [by right|].
      intros kv' [->|Hkv']%elem_of_cons; [|by apply Hmax].
      pose proof (Hmax kv ltac:(left)). lia.
    + destruct (IH best) as [Hin Hmax]. split.
      { apply elem_of_cons in Hin as [->|?]; [left|right; by right]. }
      intros kv' [->|[->|Hkv']%elem_of_cons]%elem_of_cons.
      * apply Hmax; left.
      * pose proof (Hmax best ltac:(left)). lia.
      * apply Hmax. by right.
Qed.

(** The label [value_counts().idxmax()] returns is a value of the Series
    that no other value outnumbers; the call fails only on a Series
    without any value. *)
Lemma mode_spec {K} `{EqDecision K} (l : list (option K)) :
  (∀ k, idxmax Nat.ltb (value_counts l) = Ok k →
        Some k ∈ l ∧ ∀ k', count (Some k') l ≤ count (Some k) l) ∧
  (∀ e, idxmax Nat.ltb (value_counts l) = Raise e →
        e = EmptyArgmax ∧ ∀ k, Some k ∉ l).
Proof.
  split.
  - intros k Hk. destruct (value_counts l) as [|kv s] eqn:Hvc; [done|].
    simpl in Hk. injection Hk as <-.
    destruct (argmax_ltb kv s) as [Hin Hmax]. rewrite <- Hvc in Hin, Hmax.
    destruct (argmax Nat.ltb kv s) as [k n]. simpl in *.
    apply elem_of_value_counts in Hin as [Hin ->]. split; [done|].
    intros k'. destruct (decide (Some k' ∈ l)) as [Hk'|Hk'].
    + apply (Hmax (k', count (Some k') l)). by apply elem_of_value_counts.
    + assert (count (Some k') l = 0) as ->; [|lia].
      destruct (count (Some k') l) eqn:E; [done|].
      exfalso. apply Hk', count_pos. lia.
  - intros e He. destruct (value_counts l) as [|kv s] eqn:Hvc; [|done].
    injection He as <-. split; [done|]. intros k Hk.
    by apply (value_counts_nonempty l k).
Qed.

(** X6: the most common gender (and likewise the most common birth
    country) is the value of some record, and no value occurs in more
    records; the query fails only when no record has a value.  On a loaded
    table it does not fail. *)
Theorem most_common_value (nobel : table) :
  (∀ g, top_gender nobel = Ok g →
     (∃ r, r ∈ rows nobel ∧ sex r = Some g) ∧
     ∀ s, length (filter (fun r => sex r = Some s) (rows nobel))
          ≤ length (filter (fun r => sex r = Some g) (rows nobel))) ∧
  (∀ c, top_country nobel = Ok c →
     (∃ r, r ∈ rows nobel ∧ birth_country r = Some c) ∧
     ∀ s, length (filter (fun r => birth_country r = Some s) (rows nobel))
          ≤ length (filter (fun r => birth_country r = Some c) (rows nobel))) ∧
  (∀ e, top_gender nobel = Raise e →
     e = EmptyArgmax ∧ ∀ r, r ∈ rows nobel → sex r = None) ∧
  (∀ e, top_country nobel = Raise e →
     e = EmptyArgmax ∧ ∀ r, r ∈ rows nobel → birth_country r = None) ∧
  (∀ df, table_wf df → load df = Ok nobel →
     ∃ g c, top_gender nobel = Ok g ∧ top_country nobel = Ok c).
Proof.
  split_and!.
  - intros g Hg. apply mode_spec in Hg as [Hin Hmax]. split.
    + apply list_elem_of_fmap in Hin as (r & Hr & Hin). by exists r.
    + intros s. rewrite <- !count_fmap. apply Hmax.
  - intros c Hc. apply mode_spec in Hc as [Hin Hmax]. split.
    + apply list_elem_of_fmap in Hin as (r & Hr & Hin). by exists r.
    + intros s. rewrite <- !count_fmap. apply Hmax.
  - intros e He. apply mode_spec in He as [-> Hnone]. split; [done|].
    intros r Hr. destruct (sex r) as [s|] eqn:Hs; [|done].
    exfalso. apply (Hnone s). rewrite <- Hs. by apply list_elem_of_fmap_2.
  - intros e He. apply mode_spec in He as [-> Hnone]. split; [done|].
    intros r Hr. destruct (birth_country r) as [s|] eqn:Hs; [|done].
    exfalso. apply (Hnone s). rewrite <- Hs. by apply list_elem_of_fmap_2.
  - intros df Hwf Hload.
    destruct (top_gender_total df nobel Hwf Hload) as [g Hg].
    destruct (top_country_total df nobel Hwf Hload) as [c Hc]. by exists g, c.
Qed.

(** ** Question 4: the first woman *)

Global Instance year_le_total : Total year_le.
Proof.
  intros a b. unfold year_le. destruct (year a), (year b); try tauto. lia.
Qed.

Global Instance year_le_trans : Transitive year_le.
Proof.
  intros a b c. unfold year_le.
  destruct (year a), (year b), (year c); try tauto. lia.
Qed.

Lemma first_spec nobel r :
  first nobel = Some r →
  r ∈ female_winners nobel ∧ ∀ r', r' ∈ female_winners nobel → year_le r r'.
Proof.
  unfold first. intros Hhead.
  pose proof (StronglySorted_sort_by year_le (female_winners nobel)) as Hsorted.
  destruct (sort_by year_le (female_winners nobel)) as [|x l] eqn:Hs; [done|].
  simpl in Hhead. injection Hhead as ->.
  assert (∀ r', r' ∈ female_winners nobel ↔ r' ∈ r :: l) as Hperm.
  { intros r'. by rewrite <- Hs, elem_of_sort_by. }
  split; [apply Hperm; left|].
  intros r' [->|Hr']%Hperm%elem_of_cons.
  - by destruct (total year_le r r).
  - apply StronglySorted_cons in Hsorted as [Hall _].
    rewrite Forall_forall in Hall. by apply Hall.
Qed.

(** X7: with at least one female record the first woman is a female record
    of the table, and no female record with a year is earlier; if any
    female record has a year, so has she.  Her name and category are those
    of that record.  Without a female record there is none. *)
Theorem first_woman_earliest (nobel : table) :
  (first nobel = None ↔ female_winners nobel = []) ∧
  (∀ r, first nobel = Some r →
     r ∈ rows nobel ∧ sex r = Some "female" ∧
     first_woman_name nobel = full_name r ∧
     first_woman_category nobel = category r ∧
     first_woman_year nobel = year r ∧
     ∀ r' y', r' ∈ rows nobel → sex r' = Some "female" → year r' = Some y' →
        ∃ y, year r = Some y ∧ (y ≤ y')%Z).
Proof.
  split.
  - unfold first. split.
    + intros Hnone. apply (sort_by_nil_inv year_le).
      by destruct (sort_by year_le (female_winners nobel)).
    + by intros ->.
  - intros r Hfirst. pose proof (first_spec nobel r Hfirst) as [Hin Hmin].
    apply list_elem_of_filter in Hin as [Hsex Hrows].
    unfold first_woman_name, first_woman_category, first_woman_year.
    rewrite Hfirst. split_and!; [done..|].
    intros r' y' Hr' Hsex' Hy'.
    assert (year_le r r') as Hle.
    { apply Hmin. by apply list_elem_of_filter. }
    unfold year_le in Hle. rewrite Hy' in Hle.
    destruct (year r) as [y|]; [|done]. by exists y.
Qed.

(** ** Groups partition the records *)

Lemma sum_fmap_filter_split {A} (f : A → nat) (P : A → Prop) `{!∀ x, Decision (P x)}
    (l : list A) :
  sum_list (f <$> l) = sum_list (f <$> filter P l) + sum_list (f <$> filter (fun x => ¬ P x) l).
Proof.
  induction l as [|x l IH]; [done|].
  rewrite !filter_cons. destruct (decide (P x)) as [HP|HP].
  - rewrite decide_False by tauto. rewrite !fmap_cons. simpl. lia.
  - rewrite decide_True by done. rewrite !fmap_cons. simpl. lia.
Qed.

Lemma filter_eq_NoDup {A} `{EqDecision A} (x : A) (u : list A) :
  NoDup u → filter (fun y => y = x) u = if decide (x ∈ u) then [x] else [].
Proof.
  induction 1 as [|y u Hy Hu IH]; [done|].
  destruct (decide (y = x)) as [Heq|Hne].
  - subst y. rewrite filter_cons_True, IH by done.
    rewrite (decide_False (P := x ∈ u)) by done.
    by rewrite (decide_True (P := x ∈ x :: u)) by left.
  - rewrite filter_cons_False, IH by done.
    destruct (decide (x ∈ u)) as [Hin|Hin].
    + by rewrite decide_True by (by right).
    + rewrite decide_False; [done|]. intros [Heq|?]%elem_of_cons; [by subst|done].
Qed.

(** The sizes of the distinct values add up to the length of the list. *)
Lemma sum_count_unique {K} `{EqDecision K} (l : list K) :
  sum_list ((fun k => count k l) <$> unique l) = length l.
Proof.
  induction l as [|x l IH]; [done|].
  cbn [unique]. rewrite fmap_cons. simpl.
  assert (count x (x :: l) = S (count x l)) as ->.
  { unfold count. by rewrite filter_cons_True. }
  assert ((fun k => count k (x :: l)) <$> filter (fun y => y ≠ x) (unique l)
          = (fun k => count k l) <$> filter (fun y => y ≠ x) (unique l)) as ->.
  { apply Forall_fmap_ext_1, Forall_forall. intros k [Hk _]%list_elem_of_filter.
    unfold count. by rewrite filter_cons_False. }
  rewrite (sum_fmap_filter_split _ (fun y => y = x)) in IH.
  rewrite (filter_eq_NoDup x (unique l) (NoDup_unique l)) in IH.
  destruct (decide (x ∈ unique l)) as [Hin|Hin].
  - simpl in IH. lia.
  - assert (count x l = 0) as ->.
    { destruct (count x l) eqn:E; [done|]. exfalso.
      apply Hin, elem_of_unique, count_pos. lia. }
    simpl in IH. lia.
Qed.

Lemma series_sum_groupby {K} `{EqDecision K} (le : relation K) `{!RelDecision le}
    (keys : list (option K)) :
  series_sum (groupby_size le keys) = length (omap id keys).
Proof.
  unfold series_sum, groupby_size.
  rewrite <- list_fmap_compose.
  rewrite <- (sum_count_unique (omap id keys)).
  apply sum_list_with_Permutation_proper, fmap_Permutation, sort_by_perm.
Qed.

Lemma length_omap_fmap {A B} (f : A → option B) (l : list A) :
  length (omap id (f <$> l)) = length (filter (fun x => is_Some (f x)) l).
Proof.
  induction l as [|x l IH]; [done|].
  rewrite fmap_cons, filter_cons. cbn [omap list_omap id].
  destruct (f x) as [y|] eqn:Hx.
  - rewrite decide_True by eauto. simpl. by rewrite <- IH.
  - rewrite decide_False by (by intros [? ?]). done.
Qed.

Lemma length_filter_filter_le {A} (P Q : A → Prop)
    `{!∀ x, Decision (P x), !∀ x, Decision (Q x)} (l : list A) :
  length (filter P (filter Q l)) ≤ length (filter P l).
Proof.
  induction l as [|x l IH]; [done|].
  rewrite !(filter_cons _ x l). destruct (decide (Q x)), (decide (P x)).
  - rewrite filter_cons_True by done. simpl. lia.
  - by rewrite filter_cons_False by done.
  - simpl. lia.
  - done.
Qed.

(** X8: the sizes of the decades add up to the number of records that have
    a decade, for all records and for the USA-born ones alike; together
    with the records without one they are all the records, and in a loaded
    table a record is without a decade exactly when it is without a year. *)
Theorem decades_partition (nobel : table) :
  series_sum (total_per_decade nobel)
    = length (filter (fun r => is_Some (decade r)) (rows nobel)) ∧
  series_sum (usa_per_decade nobel)
    = length (filter (fun r => is_Some (decade r)) (usa_winners nobel)) ∧
  series_sum (total_per_decade nobel)
    + length (filter (fun r => ¬ is_Some (decade r)) (rows nobel)) = nrows nobel ∧
  series_sum (usa_per_decade nobel) ≤ series_sum (total_per_decade nobel) ∧
  (∀ df r, load df = Ok nobel → r ∈ rows nobel →
     (is_Some (decade r) ↔ is_Some (year r))).
Proof.
  assert (series_sum (total_per_decade nobel)
          = length (filter (fun r => is_Some (decade r)) (rows nobel))) as Htotal.
  { unfold total_per_decade. by rewrite series_sum_groupby, length_omap_fmap. }
  assert (series_sum (usa_per_decade nobel)
          = length (filter (fun r => is_Some (decade r)) (usa_winners nobel))) as Husa.
  { unfold usa_per_decade. by rewrite series_sum_groupby, length_omap_fmap. }
  split_and!; [done..| | |].
  - rewrite Htotal.
    pose proof (filter_app_complement (fun r => is_Some (decade r)) (rows nobel)) as Hperm.
    apply Permutation_length in Hperm. rewrite length_app in Hperm.
    rewrite Hperm. unfold rows. by rewrite length_fmap, length_seq.
  - rewrite Htotal, Husa. unfold usa_winners. apply length_filter_filter_le.
  - intros df r Hload (i & _ & ->)%elem_of_rows. simpl.
    destruct (load_decade df nobel Hload) as [float Hd]. rewrite (Hd i).
    destruct (num_at nobel "year" i); simpl; split; intros [? ?]; eauto; done.
Qed.

(** ** The ratio Series: order of the decades, and ties *)

Lemma StronglySorted_lt (l : list Z) :
  StronglySorted Z.le l → NoDup l → StronglySorted Z.lt l.
Proof.
  induction 1 as [|x l Hl IH Hx]; intros Hnd; [constructor|].
  apply NoDup_cons in Hnd as [Hx' Hnd]. constructor; [by apply IH|].
  rewrite Forall_forall in *. intros y Hy.
  assert (x ≠ y) by (by intros ->). specialize (Hx y Hy). lia.
Qed.

Global Instance Z_le_total : Total Z.le.
Proof. intros a b. lia. Qed.

Lemma usa_ratio_index nobel :
  StronglySorted Z.lt (usa_ratio nobel).*1 ∧
  ∀ d, d ∈ (usa_ratio nobel).*1 ↔ 0 < decade_total nobel d.
Proof.
  split.
  - apply StronglySorted_lt; [|apply NoDup_share].
    unfold usa_ratio. rewrite fst_fillna0, fst_series_div.
    apply StronglySorted_sort_by; apply _.
  - intros d. unfold usa_ratio, usa_per_decade, total_per_decade.
    rewrite share_keys by (intros; apply count_fmap_filter).
    by rewrite count_decade_rows.
Qed.

(** The label [idxmax] returns splits the Series: everything before it is
    smaller, nothing after it is larger. *)
Lemma argmax_split {K} (best : K * Q) (s : list (K * Q)) :
  ∃ pre post, best :: s = pre ++ argmax Qltb best s :: post ∧
    (∀ kv, kv ∈ pre → (kv.2 < (argmax Qltb best s).2)%Q) ∧
    (∀ kv, kv ∈ post → (kv.2 <= (argmax Qltb best s).2)%Q).
Proof.
  revert best. induction s as [|kv s IH]; intros best; simpl.
  - exists [], []. split_and!; [done|by intros ? ?%elem_of_nil..].
  - destruct (Qltb best.2 kv.2) eqn:Hlt.
    + destruct (IH kv) as (pre & post & Heq & Hpre & Hpost).
      exists (best :: pre), post. split_and!; [simpl; f_equal; exact Heq|..|done].
      intros kv' [->|Hkv']%elem_of_cons; [|by apply Hpre].
      assert (best.2 < kv.2)%Q as Hbk.
      { unfold Qltb in Hlt. apply negb_true_iff in Hlt.
        apply Qnot_le_lt. intros Hle%Qle_bool_iff. congruence. }
      destruct (argmax_Qltb kv s) as [_ Hmax].
      eapply Qlt_le_trans; [exact Hbk|]. apply (Hmax kv). left.
    + assert (kv.2 <= best.2)%Q as Hkb.
      { unfold Qltb in Hlt. apply negb_false_iff in Hlt. by apply Qle_bool_iff. }
      destruct (IH best) as (pre & post & Heq & Hpre & Hpost).
      destruct pre as [|b pre].
      * simpl in Heq. injection Heq as Hbest Hs.
        exists [], (kv :: post). rewrite <- Hbest. split_and!.
        -- simpl. do 2 f_equal. exact Hs.
        -- by intros ? ?%elem_of_nil.
        -- intros kv' [->|Hkv']%elem_of_cons; [done|].
           rewrite Hbest. by apply Hpost.
      * simpl in Heq. injection Heq as Hb Hs. subst b.
        exists (best :: kv :: pre), post. split_and!.
        -- simpl. do 2 f_equal. exact Hs.
        -- intros kv' [->|[->|Hkv']%elem_of_cons]%elem_of_cons.
           ++ apply Hpre. left.
           ++ eapply Qle_lt_trans; [exact Hkb|]. apply Hpre. left.
           ++ apply Hpre. by right.
        -- done.
Qed.

(** X9: the ratio Series has one entry for each decade that has a record,
    and no other, in ascending order of the decades. *)
Theorem usa_ratio_decades (nobel : table) :
  StronglySorted Z.lt (usa_ratio nobel).*1 ∧
  (∀ d, d ∈ (usa_ratio nobel).*1 ↔ ∃ r, r ∈ rows nobel ∧ decade r = Some d).
Proof.
  destruct (usa_ratio_index nobel) as [Hsorted Hkeys]. split; [done|].
  intros d. rewrite Hkeys. unfold decade_total. split.
  - intros Hpos.
    destruct (filter (fun r => decade r = Some d) (rows nobel)) as [|r l] eqn:Hf;
      [simpl in Hpos; lia|].
    assert (r ∈ filter (fun r => decade r = Some d) (rows nobel)) as Hr
      by (rewrite Hf; left).
    apply list_elem_of_filter in Hr as [? ?]. by exists r.
  - intros (r & Hr & Hd). by apply (length_filter_pos _ _ r).
Qed.

Lemma idxmax_first {K} (R : relation K) `{!AntiSymm (=) R} (s : list (K * Q)) k :
  StronglySorted R (s.*1) → idxmax Qltb s = Ok k →
  ∃ q, (k, q) ∈ s ∧
    ∀ k' q', (k', q') ∈ s → R k' k → k' ≠ k → (q' < q)%Q.
Proof.
  intros Hsorted Hidx. destruct s as [|kv s]; [done|].
  simpl in Hidx. injection Hidx as <-.
  destruct (argmax_split kv s) as (pre & post & Heq & Hpre & Hpost).
  rewrite Heq in Hsorted. rewrite Heq. clear Heq.
  destruct (argmax Qltb kv s) as [k q]. simpl in Hpre, Hpost. simpl fst.
  exists q. split.
  { apply elem_of_app. right. left. }
  intros k' q' Hin HR Hne.
  apply elem_of_app in Hin as [Hin|[Hin|Hin]%elem_of_cons].
  - by apply (Hpre (k', q')).
  - by injection Hin as -> _.
  - exfalso. apply Hne. rewrite fmap_app, fmap_cons in Hsorted.
    apply StronglySorted_app in Hsorted as (_ & _ & Hs).
    apply StronglySorted_cons in Hs as [Hall _]. rewrite Forall_forall in Hall.
    apply (anti_symm R); [done|]. apply Hall.
    apply list_elem_of_fmap. by exists (k', q').
Qed.

Global Instance Z_le_antisym : AntiSymm (=) Z.le.
Proof. intros a b. lia. Qed.

Global Instance value_le_total : Total value_le.
Proof.
  intros [x|x] [y|y]; simpl; try tauto; [apply (total String.le)|lia].
Qed.

Global Instance value_le_trans : Transitive value_le.
Proof.
  intros [x|x] [y|y] [z|z]; simpl; try tauto; [apply (transitivity (R:=String.le))|lia].
Qed.

Global Instance value_le_antisym : AntiSymm (=) value_le.
Proof.
  intros [x|x] [y|y]; simpl; try tauto.
  - intros H1 H2. f_equal. by apply (anti_symm String.le).
  - intros H1 H2. f_equal. lia.
Qed.

Global Instance pair_le_total : Total pair_le.
Proof.
  intros [d c] [d' c']. unfold pair_le. simpl.
  destruct (Z.lt_trichotomy d d') as [?|[->|?]]; [tauto| |tauto].
  destruct (total value_le c c'); tauto.
Qed.

Global Instance pair_le_trans : Transitive pair_le.
Proof.
  intros [d c] [d' c'] [d'' c'']. unfold pair_le. simpl.
  intros [?|[-> ?]] [?|[-> ?]]; [left; lia|by left|by left|right].
  split; [done|]. by etrans.
Qed.

Global Instance pair_le_antisym : AntiSymm (=) pair_le.
Proof.
  intros [d c] [d' c']. unfold pair_le. simpl.
  intros [?|[-> ?]] [?|[? ?]]; try lia. f_equal. by apply (anti_symm value_le).
Qed.

Lemma prop_index_sorted nobel : StronglySorted pair_le (prop nobel).*1.
Proof.
  unfold prop. case_decide; [constructor|].
  rewrite fst_fillna0, fst_series_div. apply StronglySorted_sort_by; apply _.
Qed.

Lemma usa_ratio_index_le nobel : StronglySorted Z.le (usa_ratio nobel).*1.
Proof.
  unfold usa_ratio. rewrite fst_fillna0, fst_series_div.
  apply StronglySorted_sort_by; apply _.
Qed.

(** X10: among several decades with the largest ratio the script reports
    the earliest: every earlier decade has a strictly smaller ratio.  In
    the same way, every (decade, category) pair before the reported one,
    by decade and then by category, has a strictly smaller proportion. *)
Theorem ties_go_to_the_first (nobel : table) :
  (∀ d, max_decade_usa nobel = Ok (Some d) →
     ∃ q, get d (usa_ratio nobel) = Some q ∧
       ∀ d' q', get d' (usa_ratio nobel) = Some q' → (d' < d)%Z → (q' < q)%Q) ∧
  (∀ p, female_winners nobel ≠ [] → prop nobel ≠ [] → max_female_dict nobel = Ok p →
     ∃ q, get p (prop nobel) = Some q ∧
       ∀ p' q', get p' (prop nobel) = Some q' → pair_le p' p → p' ≠ p → (q' < q)%Q).
Proof.
  split.
  - intros d. unfold max_decade_usa. case_decide; [done|].
    destruct (idxmax Qltb (usa_ratio nobel)) as [d0|] eqn:Hidx; [|done].
    intros [= ->].
    apply (idxmax_first Z.le) in Hidx as (q & Hin & Hfirst);
      [|apply usa_ratio_index_le].
    assert (NoDup (usa_ratio nobel).*1) as Hnd by apply NoDup_share.
    exists q. split; [by apply elem_of_get_Some|].
    intros d' q' Hget Hlt. apply (Hfirst d' q'); [by apply get_Some_elem_of|lia..].
  - intros p Hf Hp. unfold max_female_dict.
    rewrite !decide_False by (by intros ?%length_zero_iff_nil).
    intros Hidx.
    apply (idxmax_first pair_le) in Hidx as (q & Hin & Hfirst);
      [|apply prop_index_sorted].
    exists q. split; [apply elem_of_get_Some; [apply NoDup_prop|done]|].
    intros p' q' Hget Hle Hne. apply (Hfirst p' q'); [by apply get_Some_elem_of|done..].
Qed.

(** ** The largest ratio *)

Lemma ratio_max_spec {K} (s : list (K * Q)) :
  match ratio_max s with
  | Some m => (∃ kv, kv ∈ s ∧ kv.2 = m) ∧ ∀ kv, kv ∈ s → (kv.2 <= m)%Q
  | None => s = []
  end.
Proof.
  induction s as [|kv s IH]; simpl; [done|].
  destruct (ratio_max s) as [m|].
  - destruct IH as [(kv' & Hin & Hm) Hmax].
    destruct (Qltb m kv.2) eqn:Hlt.
    + assert (m < kv.2)%Q as Hmk.
      { unfold Qltb in Hlt. apply negb_true_iff in Hlt.
        apply Qnot_le_lt. intros Hle%Qle_bool_iff. congruence. }
      split; [exists kv; split; [left|done]|].
      intros x [->|Hx]%elem_of_cons; [apply Qle_refl|].
      apply Qlt_le_weak. eapply Qle_lt_trans; [by apply Hmax|done].
    + assert (kv.2 <= m)%Q as Hkm.
      { unfold Qltb in Hlt. apply negb_false_iff in Hlt. by apply Qle_bool_iff. }
      split; [exists kv'; split; [by right|done]|].
      intros x [->|Hx]%elem_of_cons; [done|by apply Hmax].
  - subst s. split; [exists kv; split; [left|done]|].
    intros x [->|Hx]%elem_of_cons; [apply Qle_refl|by apply elem_of_nil in Hx].
Qed.

Lemma ratio_max_idxmax {K} `{EqDecision K} (s : list (K * Q)) k :
  NoDup (s.*1) → idxmax Qltb s = Ok k →
  ∃ q m, get k s = Some q ∧ ratio_max s = Some m ∧ (m == q)%Q.
Proof.
  intros Hnd Hidx. apply idxmax_Qltb in Hidx as (q & Hin & Hmax).
  pose proof (ratio_max_spec s) as Hspec.
  destruct (ratio_max s) as [m|]; [|by subst s; apply elem_of_nil in Hin].
  destruct Hspec as [([k' q'] & Hin' & Hm) Hbound]. simpl in Hm. subst q'.
  exists q, m. split_and!; [by apply elem_of_get_Some|done|].
  apply Qle_antisym; [by apply (Hmax k' m)|by apply (Hbound (k, q))].
Qed.

(** X11: the largest proportion the script prints is the proportion of the
    pair it reports.  The largest ratio among the decades from 1900 on,
    which the chart marks, is the ratio of the reported decade whenever
    that decade is 1900 or later.  In a loaded table whose years are all
    before 1900, and not below -2^52, the charted series has no entry, and
    the bar chart of a table with a USA-born record raises. *)
Theorem printed_maximum (nobel : table) :
  (∀ p, female_winners nobel ≠ [] → prop nobel ≠ [] → max_female_dict nobel = Ok p →
     ∃ q m, get p (prop nobel) = Some q ∧ ratio_max (prop nobel) = Some m ∧ (m == q)%Q) ∧
  (∀ d, max_decade_usa nobel = Ok (Some d) → (1900 ≤ d)%Z →
     ∃ q m, get d (usa_ratio nobel) = Some q ∧
            ratio_max (ratio_series nobel) = Some m ∧ (m == q)%Q) ∧
  (∀ df, load df = Ok nobel →
     (∀ r y, r ∈ rows nobel → year r = Some y → (- 2 ^ 52 ≤ y < 1900)%Z) →
     ratio_series nobel = [] ∧
     (usa_winners nobel ≠ [] → plot_usa_ratio nobel = Raise PlotError)).
Proof.
  split_and!.
  - intros p Hf Hp. unfold max_female_dict.
    rewrite !decide_False by (by intros ?%length_zero_iff_nil).
    apply ratio_max_idxmax, NoDup_prop.
  - intros d. unfold max_decade_usa. case_decide; [done|].
    destruct (idxmax Qltb (usa_ratio nobel)) as [d0|] eqn:Hidx; [|done].
    intros [= ->] Hd.
    apply idxmax_Qltb in Hidx as (q & Hin & Hmax).
    assert (NoDup (usa_ratio nobel).*1) as Hnd by apply NoDup_share.
    assert ((d, q) ∈ ratio_series nobel) as Hin'.
    { by apply list_elem_of_filter. }
    pose proof (ratio_max_spec (ratio_series nobel)) as Hspec.
    destruct (ratio_max (ratio_series nobel)) as [m|];
      [|by rewrite Hspec in Hin'; apply elem_of_nil in Hin'].
    destruct Hspec as [([d' q'] & [_ Hd']%list_elem_of_filter & Hm) Hbound].
    simpl in Hm. subst q'.
    exists q, m. split_and!; [by apply elem_of_get_Some|done|].
    apply Qle_antisym; [by apply (Hmax d' m)|by apply (Hbound (d, q))].
  - intros df Hload Hold.
    assert (∀ r, r ∈ rows nobel → ∃ float, decade r = decade_in float <$> year r) as Hdec.
    { destruct (load_decade df nobel Hload) as [float Hd].
      intros r (i & _ & ->)%elem_of_rows. exists float. simpl. apply Hd. }
    assert (ratio_series nobel = []) as Hempty; [|split; [done|]].
    2:{ intros Hne. unfold plot_usa_ratio.
        rewrite decide_False by (by intros ?%length_zero_iff_nil).
        by rewrite Hempty. }
    destruct (ratio_series nobel) as [|[d q] rest] eqn:Hrs; [done|]. exfalso.
    assert ((d, q) ∈ ratio_series nobel) as Hdq by (rewrite Hrs; left).
    apply list_elem_of_filter in Hdq as [Hd Hin]. simpl in Hd.
    assert (d ∈ (usa_ratio nobel).*1) as Hkey.
    { apply list_elem_of_fmap. by exists (d, q). }
    apply usa_ratio_index in Hkey. unfold decade_total in Hkey.
    destruct (filter (fun r => decade r = Some d) (rows nobel)) as [|r l] eqn:Hf;
      [simpl in Hkey; lia|].
    assert (r ∈ filter (fun r => decade r = Some d) (rows nobel)) as Hr
      by (rewrite Hf; left).
    apply list_elem_of_filter in Hr as [Hrd Hr].
    destruct (Hdec r Hr) as [float Hfl]. rewrite Hfl in Hrd.
    destruct (year r) as [y|] eqn:Hy; [|done]. simpl in Hrd. injection Hrd as <-.
    pose proof (Hold r y Hr Hy).
    rewrite decade_in_exact in Hd by lia. unfold decade_of in Hd.
    pose proof (Z.div_mod y 10 ltac:(done)).
    pose proof (Z.mod_pos_bound y 10 ltac:(done)). lia.
Qed.

(** ** Question 5: the number of wins *)

Lemma NoDup_value_counts {K} `{EqDecision K} (l : list (option K)) :
  NoDup (value_counts l).*1.
Proof.
  unfold value_counts. rewrite sort_by_perm, fst_tabulate. apply NoDup_unique.
Qed.

Lemma length_unique_le {K} `{EqDecision K} (l : list K) : length (unique l) ≤ length l.
Proof.
  induction l as [|x l IH]; [done|]. cbn [unique]. simpl.
  pose proof (length_filter (fun y => y ≠ x) (unique l)). lia.
Qed.

(** X12: for every repeat winner the reported number of wins is the number
    of records with that name, and at least two; the reported categories
    are at least one and at most that many, and the reported years, when
    no year is missing, are exactly that many. *)
Theorem wins_count (nobel : table) (name : string) :
  name ∈ repeat_list nobel →
  wins nobel name = Some (length (wins_of nobel name)) ∧
  2 ≤ length (wins_of nobel name) ∧
  1 ≤ length (cats nobel name) ≤ length (wins_of nobel name) ∧
  (∀ ys, years nobel name = Some ys → length ys = length (wins_of nobel name)).
Proof.
  intros Hname%elem_of_repeat_list. split_and!.
  - unfold wins. apply elem_of_get_Some; [apply NoDup_value_counts|].
    apply elem_of_repeat_counts. split; [lia|done].
  - lia.
  - unfold cats. destruct (wins_of nobel name) as [|r l] eqn:Hw; [simpl in Hname; lia|].
    rewrite fmap_cons. cbn [unique]. simpl. lia.
  - unfold cats. rewrite <- (length_fmap category (wins_of nobel name)).
    apply length_unique_le.
  - intros ys. unfold years, sorted.
    destruct (mapM id (year <$> wins_of nobel name)) as [l|] eqn:Hm.
    + intros [= <-]. rewrite length_fmap, length_sort_by.
      apply mapM_Some, Forall2_length in Hm. by rewrite <- Hm, length_fmap.
    + destruct (one_run (year <$> wins_of nobel name)); [|done].
      intros [= <-]. by rewrite length_fmap.
Qed.

(** ** The exceptions of the queries *)

Lemma traverse_Raise_one {A B} (f : A → result B) (l : list A) e x :
  (∀ y e', f y = Raise e' → e' = e) → x ∈ l → f x = Raise e →
  traverse f l = Raise e.
Proof.
  intros Hall Hx Hfx. destruct (traverse f l) as [k|e'] eqn:Ht.
  - apply traverse_Ok in Ht. apply list_elem_of_lookup in Hx as [i Hi].
    destruct (Forall2_lookup_l _ _ _ _ _ Ht Hi) as (y & _ & Hy). congruence.
  - apply traverse_Raise in Ht as (y & _ & Hy). by rewrite (Hall y e' Hy).
Qed.

Lemma join_Raise sep (l : list cell) e :
  join sep l = Raise e → e = TypeError ∧ ∃ c, c ∈ l ∧ ∀ s, c ≠ Some (Str s).
Proof.
  induction l as [|c l IH]; [done|]. cbn [join].
  destruct c as [[s|z]|].
  - destruct l as [|c' l']; [done|].
    destruct (join sep (c' :: l')) as [rest|e'] eqn:Hj; simpl; [done|].
    intros [= <-]. destruct IH as (-> & c & Hc & Hs); [done|].
    split; [done|]. exists c. split; [by right|done].
  - intros [= <-]. split; [done|]. exists (Some (Num z)). split; [left|done].
  - intros [= <-]. split; [done|]. exists None. split; [left|done].
Qed.

Lemma join_not_str sep (l : list cell) c :
  c ∈ l → (∀ s, c ≠ Some (Str s)) → join sep l = Raise TypeError.
Proof.
  intros Hc Hs. destruct (join sep l) as [s|e] eqn:Hj.
  - exfalso. revert s Hj. induction l as [|x l IH]; intros s Hj.
    + by apply elem_of_nil in Hc.
    + cbn [join] in Hj. destruct x as [[x|x]|]; [|done..].
      apply elem_of_cons in Hc as [->|Hc]; [by apply (Hs x)|].
      destruct l as [|y l']; [by apply elem_of_nil in Hc|].
      destruct (join sep (y :: l')) as [rest|] eqn:Hrest; [|done].
      by apply (IH Hc rest).
  - by apply join_Raise in Hj as [-> _].
Qed.

(** X13: on a loaded table the queries, the charts left aside, raise
    nothing but a [TypeError], and they raise it exactly when some repeat
    winner has a category that is not a string (an empty cell or a
    number), which the report cannot join. *)
Theorem aggregate_exceptions (df nobel : table) :
  table_wf df → load df = Ok nobel →
  ∀ e, aggregate nobel = Raise e ↔
    e = TypeError ∧
    ∃ name c, name ∈ repeat_list nobel ∧ c ∈ cats nobel name ∧ ∀ s, c ≠ Some (Str s).
Proof.
  intros Hwf Hload e. unfold aggregate.
  destruct (top_gender_total df nobel Hwf Hload) as [g ->].
  destruct (top_country_total df nobel Hwf Hload) as [c ->].
  destruct (max_decade_usa_total df nobel Hwf Hload) as [u ->].
  destruct (max_female_dict_total nobel) as [p ->]. simpl.
  destruct (print_repeat_winners nobel) as [lines|e'] eqn:Hprint; simpl.
  - split; [done|]. intros (_ & name & c' & Hname & Hc & Hs). exfalso.
    assert (print_repeat_winners nobel = Raise TypeError) as Hraise; [|congruence].
    apply (traverse_Raise_one _ _ _ name); [|done|by apply (join_not_str _ _ c')].
    intros y e'' Hy. by apply join_Raise in Hy as [-> _].
  - apply traverse_Raise in Hprint as (name & Hname & Hjoin).
    apply join_Raise in Hjoin as (-> & c' & Hc & Hs).
    split; [|by intros [-> _]].
    intros [= <-]. split; [done|]. by exists name, c'.
Qed.

(** ** The USA test ignores case *)

Lemma lower_char_newline c :
  Ascii.eqb (PyStr.lower_char c) "010" = Ascii.eqb c "010".
Proof. by destruct c as [[] [] [] [] [] [] [] []]. Qed.

Lemma atom_matches_lower a c :
  PyStr.atom_matches false a (PyStr.lower_char c) = PyStr.atom_matches false a c.
Proof.
  destruct a as [x|]; simpl.
  - by rewrite lower_char_idemp.
  - by rewrite lower_char_newline.
Qed.

Lemma match_here_lower p s :
  PyStr.match_here false p (PyStr.lower s) = PyStr.match_here false p s.
Proof.
  revert s. induction p as [|a p IH]; intros [|c s]; simpl; try done.
  by rewrite atom_matches_lower, IH.
Qed.

Lemma search_one_lower p s :
  PyStr.search_one false p (PyStr.lower s) = PyStr.search_one false p s.
Proof.
  induction s as [|c s IH].
  - simpl. by destruct p.
  - cbn [PyStr.lower PyStr.search_one]. rewrite IH. f_equal.
    apply (match_here_lower p (String c s)).
Qed.

Lemma contains_lower pat s :
  PyStr.contains pat false (PyStr.lower s) = PyStr.contains pat false s.
Proof.
  unfold PyStr.contains. induction (PyStr.compile pat) as [|p ps IH]; [done|].
  simpl. by rewrite IH, search_one_lower.
Qed.

(** X14: the USA test does not depend on the case of the letters: two
    records whose birth countries, strings of characters below code point
    256, are equal up to case are classified alike. *)
Theorem usa_mask_ignores_case (r1 r2 : laureate) (s1 s2 : string) :
  birth_country r1 = Some s1 → birth_country r2 = Some s2 →
  PyStr.lower s1 = PyStr.lower s2 →
  usa_mask r1 = usa_mask r2.
Proof.
  intros H1 H2 Heq. unfold usa_mask. rewrite H1, H2.
  by rewrite <- (contains_lower _ s1), <- (contains_lower _ s2), Heq.
Qed.

(** ** The shape of the proportion matrix *)

Lemma Qle_0_1_bounds : (0 <= 0 <= 1)%Q.
Proof. split; unfold Qle; simpl; lia. Qed.

Lemma prop_value_bounds nobel p :
  (0 <= default 0 (get p (prop nobel)) <= 1)%Q.
Proof.
  destruct (decide (female_winners nobel = [])) as [Hf|Hf].
  - unfold prop. rewrite decide_True by (by rewrite Hf). apply Qle_0_1_bounds.
  - rewrite (get_prop nobel p Hf). case_decide as Ht; [|apply Qle_0_1_bounds].
    simpl. case_decide as Hw; [|apply Qle_0_1_bounds].
    apply ratio_bounds; [apply pair_female_le_total|done].
Qed.

(** X15: the proportion matrix is rectangular, one row of values per row
    label and one value per column label, no label occurs twice, and every
    entry is a proportion between 0 and 1; when there is a female record
    the row labels are non-null decades in strictly ascending order, and a
    decade or category is a label exactly when some record has both a
    decade and a category and carries it. *)
Theorem prop_df_shape (nobel : table) :
  let f := prop_df nobel in
  (length (frame_values f) = length (frame_index f) ∧
   Forall (fun r => length r = length (frame_columns f) ∧
                    Forall (fun q => (0 <= q <= 1)%Q) r) (frame_values f) ∧
   NoDup (frame_index f) ∧ NoDup (frame_columns f)) ∧
  (female_winners nobel ≠ [] →
   ∃ ds cs, frame_index f = Some <$> ds ∧ frame_columns f = Some <$> cs ∧
            StronglySorted Z.lt ds ∧
            (∀ d, d ∈ ds ↔ ∃ c, 0 < pair_total nobel (d, c)) ∧
            (∀ c, c ∈ cs ↔ ∃ d, 0 < pair_total nobel (d, c))).
Proof.
  simpl. unfold prop_df. case_decide as Hf.
  - split; [|intros Hne; exfalso; apply Hne; by apply length_zero_iff_nil].
    simpl. split_and!.
    + by rewrite length_fmap.
    + apply Forall_fmap, Forall_forall. intros d _. simpl. split.
      * by rewrite length_fmap.
      * apply Forall_fmap, Forall_forall. intros c _. apply Qle_0_1_bounds.
    + apply NoDup_unique.
    + apply NoDup_unique.
  - assert (female_winners nobel ≠ []) as Hne by (by intros E; rewrite E in Hf).
    unfold unstack_fillna0. simpl. split.
    + split_and!.
      * by rewrite !length_fmap.
      * apply Forall_fmap, Forall_forall. intros d _. simpl. split.
        -- by rewrite !length_fmap.
        -- apply Forall_fmap, Forall_forall. intros c _. apply prop_value_bounds.
      * apply (NoDup_fmap_2 Some), NoDup_sort_by, NoDup_unique.
      * apply (NoDup_fmap_2 Some), NoDup_sort_by, NoDup_unique.
    + intros _. eexists _, _. split_and!; [done|done|..].
      * apply StronglySorted_lt; [apply StronglySorted_sort_by; apply _|].
        apply NoDup_sort_by, NoDup_unique.
      * intros d. rewrite elem_of_sort_by, elem_of_unique, list_elem_of_fmap. split.
        -- intros ([d' c] & -> & Hp). exists c. by apply prop_keys.
        -- intros [c Hc]. exists (d, c). split; [done|]. by apply prop_keys.
      * intros c. rewrite elem_of_sort_by, elem_of_unique, list_elem_of_fmap. split.
        -- intros ([d c'] & -> & Hp). exists d. by apply prop_keys.
        -- intros [d Hd]. exists (d, c). split; [done|]. by apply prop_keys.
Qed.

(** ** The year range *)

Lemma series_min_spec (l : list (option Z)) :
  match series_min l with
  | Some m => Some m ∈ l ∧ ∀ y, Some y ∈ l → (m ≤ y)%Z
  | None => ∀ y, Some y ∉ l
  end.
Proof.
  induction l as [|x l IH]; simpl.
  - intros y Hy. by apply elem_of_nil in Hy.
  - destruct x as [a|], (series_min l) as [b|].
    + destruct IH as [Hb Hle]. split.
      * destruct (Z.min_spec a b) as [[_ ->]|[_ ->]]; [left|by right].
      * intros y [[= ->]|Hy]%elem_of_cons; [lia|]. specialize (Hle y Hy). lia.
    + split; [left|]. intros y [[= ->]|Hy]%elem_of_cons; [lia|]. by apply IH in Hy.
    + destruct IH as [Hb Hle]. split; [by right|].
      intros y [[=]|Hy]%elem_of_cons. by apply Hle.
    + intros y [[=]|Hy]%elem_of_cons. by apply IH in Hy.
Qed.

Lemma series_max_spec (l : list (option Z)) :
  match series_max l with
  | Some m => Some m ∈ l ∧ ∀ y, Some y ∈ l → (y ≤ m)%Z
  | None => ∀ y, Some y ∉ l
  end.
Proof.
  induction l as [|x l IH]; simpl.
  - intros y Hy. by apply elem_of_nil in Hy.
  - destruct x as [a|], (series_max l) as [b|].
    + destruct IH as [Hb Hle]. split.
      * destruct (Z.max_spec a b) as [[_ ->]|[_ ->]]; [by right|left].
      * intros y [[= ->]|Hy]%elem_of_cons; [lia|]. specialize (Hle y Hy). lia.
    + split; [left|]. intros y [[= ->]|Hy]%elem_of_cons; [lia|]. by apply IH in Hy.
    + destruct IH as [Hb Hle]. split; [by right|].
      intros y [[=]|Hy]%elem_of_cons. by apply Hle.
    + intros y [[=]|Hy]%elem_of_cons. by apply IH in Hy.
Qed.

(** X16: on a loaded table the printed year range exists: both ends are
    years of records, and the year of every record that has one lies
    between them. *)
Theorem year_range (df nobel : table) :
  table_wf df → load df = Ok nobel →
  ∃ lo hi, year_min nobel = Some lo ∧ year_max nobel = Some hi ∧
    (∃ r, r ∈ rows nobel ∧ year r = Some lo) ∧
    (∃ r, r ∈ rows nobel ∧ year r = Some hi) ∧
    ∀ r y, r ∈ rows nobel → year r = Some y → (lo ≤ y ≤ hi)%Z.
Proof.
  intros Hwf Hload.
  destruct (load_some_year df nobel Hwf Hload) as (i & y0 & Hi & Hy0).
  assert (Some y0 ∈ year <$> rows nobel) as Hin.
  { apply list_elem_of_fmap. exists (row nobel i). split; [done|].
    apply elem_of_rows. eauto. }
  unfold year_min, year_max.
  pose proof (series_min_spec (year <$> rows nobel)) as Hmin.
  pose proof (series_max_spec (year <$> rows nobel)) as Hmax.
  destruct (series_min (year <$> rows nobel)) as [lo|]; [|by destruct (Hmin y0)].
  destruct (series_max (year <$> rows nobel)) as [hi|]; [|by destruct (Hmax y0)].
  destruct Hmin as [Hlo Hle], Hmax as [Hhi Hge].
  exists lo, hi. split_and!; [done|done|..].
  - apply list_elem_of_fmap in Hlo as (r & Hr & Hin'). by exists r.
  - apply list_elem_of_fmap in Hhi as (r & Hr & Hin'). by exists r.
  - intros r y Hr Hy.
    assert (Some y ∈ year <$> rows nobel) as Hy'.
    { apply list_elem_of_fmap. by exists r. }
    split; [by apply Hle|by apply Hge].
Qed.

(** ** The further properties on sample inputs *)

Lemma df_numeric_sex_wf : table_wf df_numeric_sex.
Proof. wf_tac. Qed.

Lemma df_null_category_wf : table_wf df_null_category.
Proof. wf_tac. Qed.

Lemma df_sparse_wf : table_wf df_sparse.
Proof. wf_tac. Qed.

Lemma map_columns_first_alias_witness :
  columns (map_columns df_no_sex) !! "full_name" = columns df_no_sex !! "name" ∧
  columns (map_columns df_no_sex) !! "sex" = Some (ObjCol [None; None]).
Proof.
  destruct (map_columns_first_alias df_no_sex) as (Hfirst & Hnone & _).
  split.
  - apply (Hfirst "full_name" ["full_name"] "name"
             ["laureate_name"; "Full Name"; "firstname"; "surname"]).
    + apply (list_elem_of_lookup_2 _ 1). reflexivity.
    + repeat constructor.
    + vm_compute. reflexivity.
  - apply (Hnone "sex" ["sex"; "gender"; "Sex"; "Gender"]).
    + apply (list_elem_of_lookup_2 _ 2). reflexivity.
    + repeat constructor.
Defined.

Lemma normalize_exceptions_witness :
  table_wf df_numeric_sex ∧ normalize df_numeric_sex = Raise AttributeError.
Proof.
  split; [apply df_numeric_sex_wf|].
  apply (normalize_exceptions df_numeric_sex df_numeric_sex_wf AttributeError).
  left. split; [reflexivity|]. left. vm_compute. exact I.
Defined.

Lemma load_keeps_shape_witness :
  nrows (loaded df_names) = 2 ∧ table_wf (loaded df_names) ∧
  columns (loaded df_names) !! "givenName" = columns df_names !! "givenName".
Proof.
  destruct (load_keeps_shape df_names (loaded df_names) df_names_wf)
    as (Hn & Hwf & _ & Hother); [vm_compute; reflexivity|].
  split; [exact Hn|]. split; [exact Hwf|].
  apply Hother. intros H.
  repeat (apply elem_of_cons in H as [H|H]; [discriminate H|]).
  apply elem_of_nil in H. destruct H.
Defined.

Lemma most_common_value_witness :
  ∃ g c, top_gender (loaded df_repeat) = Ok g ∧ top_country (loaded df_repeat) = Ok c ∧
         ∃ r, r ∈ rows (loaded df_repeat) ∧ sex r = Some g.
Proof.
  destruct (most_common_value (loaded df_repeat)) as (Hg & _ & _ & _ & Hload).
  destruct (Hload df_repeat df_repeat_wf) as (g & c & Htg & Htc); [vm_compute; reflexivity|].
  exists g, c. split; [exact Htg|]. split; [exact Htc|]. exact (proj1 (Hg g Htg)).
Defined.

Lemma first_woman_earliest_witness :
  ∃ r, first (loaded df_women) = Some r ∧ sex r = Some "female" ∧
       first_woman_name (loaded df_women) = full_name r ∧
       ∃ y, year r = Some y ∧ (y ≤ 1911)%Z.
Proof.
  destruct (first_woman_earliest (loaded df_women)) as [_ Hfirst].
  destruct (first (loaded df_women)) as [r|] eqn:Hr.
  - destruct (Hfirst r eq_refl) as (_ & Hs & Hn & _ & _ & Hmin).
    exists r. split; [reflexivity|]. split; [exact Hs|]. split; [exact Hn|].
    apply (Hmin (row (loaded df_women) 0)).
    + apply elem_of_rows. exists 0. split; [vm_compute; lia|reflexivity].
    + vm_compute. reflexivity.
    + vm_compute. reflexivity.
  - vm_compute in Hr. discriminate Hr.
Defined.

Lemma ties_go_to_the_first_witness :
  max_decade_usa (loaded df_repeat) = Ok (Some 2000%Z) ∧
  ∃ q, get 2000%Z (usa_ratio (loaded df_repeat)) = Some q ∧
       ∀ q', get 1990%Z (usa_ratio (loaded df_repeat)) = Some q' → (q' < q)%Q.
Proof.
  assert (max_decade_usa (loaded df_repeat) = Ok (Some 2000%Z)) as Hmax
    by (vm_compute; reflexivity).
  split; [exact Hmax|].
  destruct (ties_go_to_the_first (loaded df_repeat)) as [Husa _].
  destruct (Husa 2000%Z Hmax) as (q & Hq & Hlt).
  exists q. split; [exact Hq|]. intros q' Hq'. apply (Hlt 1990%Z q' Hq'). lia.
Defined.

Lemma printed_maximum_witness :
  (∃ q m, get 2000%Z (usa_ratio (loaded df_repeat)) = Some q ∧
          ratio_max (ratio_series (loaded df_repeat)) = Some m ∧ (m == q)%Q) ∧
  ratio_series (loaded df_before_1900) = [] ∧
  plot_usa_ratio (loaded df_before_1900) = Raise PlotError.
Proof.
  split.
  - destruct (printed_maximum (loaded df_repeat)) as (_ & Husa & _).
    apply Husa; [vm_compute; reflexivity|lia].
  - destruct (printed_maximum (loaded df_before_1900)) as (_ & _ & Hold).
    destruct (Hold df_before_1900) as [Hempty Hplot].
    + vm_compute. reflexivity.
    + intros r y Hr Hy.
      assert (rows (loaded df_before_1900) = [row (loaded df_before_1900) 0]) as Hrows
        by reflexivity.
      rewrite Hrows in Hr. apply list_elem_of_singleton in Hr. subst r.
      assert (year (row (loaded df_before_1900) 0) = Some 1895%Z) as Hy'
        by (vm_compute; reflexivity).
      rewrite Hy' in Hy. injection Hy as <-. lia.
    + split; [exact Hempty|]. apply Hplot.
      intros Hnil. vm_compute in Hnil. discriminate Hnil.
Defined.

Lemma wins_count_witness :
  "A" ∈ repeat_list (loaded df_repeat) ∧ wins (loaded df_repeat) "A" = Some 2.
Proof.
  assert ("A" ∈ repeat_list (loaded df_repeat)) as HA.
  { apply (list_elem_of_lookup_2 _ 0). vm_compute. reflexivity. }
  split; [exact HA|].
  destruct (wins_count (loaded df_repeat) "A" HA) as (Hw & _).
  rewrite Hw. vm_compute. reflexivity.
Defined.

Lemma aggregate_exceptions_witness :
  load df_null_category = Ok (loaded df_null_category) ∧
  aggregate (loaded df_null_category) = Raise TypeError.
Proof.
  assert (load df_null_category = Ok (loaded df_null_category)) as Hl
    by (vm_compute; reflexivity).
  split; [exact Hl|].
  apply (aggregate_exceptions df_null_category (loaded df_null_category)
           df_null_category_wf Hl TypeError).
  split; [reflexivity|]. exists "A", None. split; [|split].
  - apply (list_elem_of_lookup_2 _ 0). vm_compute. reflexivity.
  - apply (list_elem_of_lookup_2 _ 1). vm_compute. reflexivity.
  - intros s H. discriminate H.
Defined.

Lemma usa_mask_ignores_case_witness :
  usa_mask (row (loaded df_repeat) 0)
    = usa_mask (Laureate None None None (Some "usa") None None).
Proof.
  apply (usa_mask_ignores_case (row (loaded df_repeat) 0)
           (Laureate None None None (Some "usa") None None) "USA" "usa");
    [vm_compute; reflexivity|reflexivity|vm_compute; reflexivity].
Defined.

Lemma prop_df_shape_witness :
  ∃ ds cs, frame_index (prop_df (loaded df_sparse)) = Some <$> ds ∧
           frame_columns (prop_df (loaded df_sparse)) = Some <$> cs ∧
           StronglySorted Z.lt ds.
Proof.
  destruct (prop_df_shape (loaded df_sparse)) as [_ Hwomen].
  destruct Hwomen as (ds & cs & Hi & Hc & Hs & _).
  - intros H. vm_compute in H. discriminate H.
  - exists ds, cs. split; [exact Hi|]. split; [exact Hc|exact Hs].
Defined.

Lemma year_range_witness :
  ∃ lo hi, year_min (loaded df_repeat) = Some lo ∧
           year_max (loaded df_repeat) = Some hi ∧ (lo ≤ hi)%Z.
Proof.
  destruct (year_range df_repeat (loaded df_repeat) df_repeat_wf)
    as (lo & hi & Hlo & Hhi & (r & Hr & Hy) & _ & Hall); [vm_compute; reflexivity|].
  exists lo, hi. split; [exact Hlo|]. split; [exact Hhi|].
  destruct (Hall r lo Hr Hy) as [_ Hle]. exact Hle.
Defined.
